(** * hex_to_image: a shallow embedding of HexToImageConverter.tsx

    The development follows the component's pure core:
    [parseHexFile] (text -> ImageData), [rgb565ToRgb] and [createBMP].
    JavaScript numbers that hold integers are modelled as [Z]; the 32-bit
    conversions performed by the bitwise operators are written out.  A text
    is a sequence of 8-bit characters ([list ascii]). *)

From Stdlib Require Import ZArith Lia List Bool Ascii String.
From stdpp Require Import base option list list_numbers.

Local Open Scope Z_scope.

(** * Part I: the embedding *)

(** ** JavaScript 32-bit integer operators *)

Module JS.

(** ToInt32: wrap an integer into [-2^31, 2^31). *)
Definition ToInt32 (z : Z) : Z := (z + 2 ^ 31) mod 2 ^ 32 - 2 ^ 31.

(** [a >> n]: sign-propagating shift of ToInt32(a) by [n mod 32]. *)
Definition shr (a n : Z) : Z := Z.shiftr (ToInt32 a) (n mod 32).

(** [a << n]. *)
Definition shl (a n : Z) : Z := ToInt32 (Z.shiftl (ToInt32 a) (n mod 32)).

(** [a & b]. *)
Definition and (a b : Z) : Z := Z.land (ToInt32 a) (ToInt32 b).

(** [a | b]. *)
Definition or (a b : Z) : Z := Z.lor (ToInt32 a) (ToInt32 b).

(** [a % b] on integers, [b] not zero: the sign follows the dividend. *)
Definition rem (a b : Z) : Z := Z.rem a b.

End JS.

(** ** ColorConverter: [rgb565ToRgb] *)

Definition rgb565ToRgb (rgb565 : Z) : Z * Z * Z :=
  let r := JS.and (JS.shr rgb565 11) 0x1F in
  let g := JS.and (JS.shr rgb565 5) 0x3F in
  let b := JS.and rgb565 0x1F in
  let r8 := JS.or (JS.shl r 3) (JS.shr r 2) in
  let g8 := JS.or (JS.shl g 2) (JS.shr g 4) in
  let b8 := JS.or (JS.shl b 3) (JS.shr b 2) in
  (r8, g8, b8).

(** The three channel expansions of [rgb565ToRgb], on an already extracted
    field. *)
Definition expand5 (v : Z) : Z := JS.or (JS.shl v 3) (JS.shr v 2).
Definition expand6 (v : Z) : Z := JS.or (JS.shl v 2) (JS.shr v 4).

(** [bits c hi lo]: the unsigned value of bits [hi] down to [lo] of [c]. *)
Definition bits (c hi lo : Z) : Z := (c / 2 ^ lo) mod 2 ^ (hi - lo + 1).

(** ** ImageData *)

Record ImageData := {
  width : Z;
  height : Z;
  data : list Z;
  name : list ascii
}.

(** ** ArrayBuffer, DataView and Uint8Array

    [createBMP] allocates one ArrayBuffer and looks at it through two
    aliases, a DataView and a Uint8Array.  The buffer is one [list Z] of
    bytes threaded through every write. *)

Module Buf.

(** [new ArrayBuffer(n)]: zero filled; a negative length throws RangeError
    ([None]).  Allocation limits of the host are not modelled. *)
Definition new_ArrayBuffer (n : Z) : option (list Z) :=
  if decide (0 <= n) then Some (replicate (Z.to_nat n) 0) else None.

(** The [n] bytes of the two's complement representation of [v]. *)
Definition bytes_of (n : Z) (v : Z) (littleEndian : bool) : list Z :=
  let le := (fun k => (v / 256 ^ k) mod 256) <$> seqZ 0 n in
  if littleEndian then le else reverse le.

(** A DataView store: RangeError ([None]) unless the bytes fit. *)
Definition view_set (buf : list Z) (byteOffset : Z) (bs : list Z)
  : option (list Z) :=
  if decide (0 <= byteOffset /\ byteOffset + Z.of_nat (length bs) <= Z.of_nat (length buf))
  then Some (list_inserts (Z.to_nat byteOffset) bs buf)
  else None.

Definition setUint16 (buf : list Z) (byteOffset v : Z) (littleEndian : bool) :=
  view_set buf byteOffset (bytes_of 2 v littleEndian).
Definition setUint32 (buf : list Z) (byteOffset v : Z) (littleEndian : bool) :=
  view_set buf byteOffset (bytes_of 4 v littleEndian).
Definition setInt32 (buf : list Z) (byteOffset v : Z) (littleEndian : bool) :=
  view_set buf byteOffset (bytes_of 4 v littleEndian).

(** [uint8Array[i] = v]: the value is reduced modulo 256; an index outside
    the array is ignored. *)
Definition u8_store (buf : list Z) (i v : Z) : list Z :=
  if decide (0 <= i) then <[Z.to_nat i := v mod 256]> buf else buf.

End Buf.

(** [data[i]]: [None] stands for [undefined]. *)
Definition js_index (l : list Z) (i : Z) : option Z :=
  if decide (0 <= i) then l !! Z.to_nat i else None.

(** ** BmpEncoder: [createBMP] *)

(** The loop state: the byte array and the running [offset]. *)
Definition bmp_state : Type := list Z * Z.

(** [uint8Array[offset++] = v] *)
Definition emit (st : bmp_state) (v : Z) : bmp_state :=
  (Buf.u8_store st.1 st.2 v, st.2 + 1).

(** Body of the inner [for (x ...)] loop.  [undefined] becomes 0 under the
    bitwise operators of [rgb565ToRgb]. *)
Definition pixel_step (img : ImageData) (y : Z) (st : bmp_state) (x : Z)
  : bmp_state :=
  let pixelIndex := y * width img + x in
  if decide (pixelIndex < Z.of_nat (length (data img))) then
    let '(r, g, b) := rgb565ToRgb (default 0 (js_index (data img) pixelIndex)) in
    emit (emit (emit st b) g) r
  else
    emit (emit (emit st 0) 0) 0.

(** Body of the outer [for (y ...)] loop: the pixels of row [y], then the
    padding. *)
Definition row_step (img : ImageData) (paddingSize : Z) (st : bmp_state) (y : Z)
  : bmp_state :=
  let st1 := foldl (pixel_step img y) st (seqZ 0 (width img)) in
  foldl (fun st' _ => emit st' 0) st1 (seqZ 0 paddingSize).

Definition paddingSize_of (width : Z) : Z := JS.rem (4 - JS.rem (width * 3) 4) 4.

Definition createBMP (imageData : ImageData) : option (list Z) :=
  let width := width imageData in
  let height := height imageData in
  let paddingSize := paddingSize_of width in
  let rowSize := width * 3 + paddingSize in
  let imageSize := rowSize * height in
  let fileSize := 54 + imageSize in
  buffer ← Buf.new_ArrayBuffer fileSize;
  (* BMP File Header (14 bytes) *)
  buffer ← Buf.setUint16 buffer 0 0x424D true;
  buffer ← Buf.setUint32 buffer 2 fileSize true;
  buffer ← Buf.setUint32 buffer 6 0 true;
  buffer ← Buf.setUint32 buffer 10 54 true;
  (* BMP Info Header (40 bytes) *)
  buffer ← Buf.setUint32 buffer 14 40 true;
  buffer ← Buf.setInt32 buffer 18 width true;
  buffer ← Buf.setInt32 buffer 22 height true;
  buffer ← Buf.setUint16 buffer 26 1 true;
  buffer ← Buf.setUint16 buffer 28 24 true;
  buffer ← Buf.setUint32 buffer 30 0 true;
  buffer ← Buf.setUint32 buffer 34 imageSize true;
  buffer ← Buf.setInt32 buffer 38 2835 true;
  buffer ← Buf.setInt32 buffer 42 2835 true;
  buffer ← Buf.setUint32 buffer 46 0 true;
  buffer ← Buf.setUint32 buffer 50 0 true;
  (* Pixel data (bottom-up) *)
  Some (foldl (row_step imageData paddingSize) (buffer, 54)
          (reverse (seqZ 0 height))).1.

(** *** The byte stream written by the pixel loops

    [pixel_rows] lists, in writing order, the bytes the two nested loops of
    [createBMP] store from offset 54 on; the loops are shown below to write
    exactly this stream. *)

Definition emit_all (st : bmp_state) (bs : list Z) : bmp_state := foldl emit st bs.

Definition pixel_bytes (img : ImageData) (y x : Z) : list Z :=
  let pixelIndex := y * width img + x in
  if decide (pixelIndex < Z.of_nat (length (data img))) then
    let '(r, g, b) := rgb565ToRgb (default 0 (js_index (data img) pixelIndex)) in
    [b; g; r]
  else [0; 0; 0].

Definition row_bytes (img : ImageData) (paddingSize : Z) (y : Z) : list Z :=
  mjoin (pixel_bytes img y <$> seqZ 0 (width img))
  ++ replicate (Z.to_nat paddingSize) 0.

Definition pixel_rows (img : ImageData) (paddingSize : Z) : list Z :=
  mjoin (row_bytes img paddingSize <$> reverse (seqZ 0 (height img))).

(** The colour of pixel number [i] of an image: the expansion of [data[i]],
    black when the data is too short. *)
Definition pixel_color (img : ImageData) (i : Z) : Z * Z * Z :=
  match data img !! Z.to_nat i with
  | Some v => rgb565ToRgb v
  | None => (0, 0, 0)
  end.

(** ** DimensionResolver (the dimension block of [parseHexFile])

    The candidate dimensions are numbers that need not be integers: the
    square candidate holds [Math.sqrt(totalPixels)] and the last-resort
    candidate a quotient.  A [jsnum] is such a number, kept symbolic, and
    [Math_floor] and [Math_ceil] are exact on it.  For pixel counts below
    2^52 (array lengths are below 2^32) the double-precision [Math.sqrt]
    and division followed by [Math.floor] or [Math.ceil] give these exact
    values. *)

Inductive jsnum :=
| Num (z : Z)            (* an integer *)
| Sqrt (n : Z)           (* Math.sqrt(n), n >= 0 *)
| Quot (a b : Z).        (* a / b, b > 0 *)

Definition Math_floor (v : jsnum) : Z :=
  match v with
  | Num z => z
  | Sqrt n => Z.sqrt n
  | Quot a b => a / b
  end.

Definition Math_ceil (v : jsnum) : Z :=
  match v with
  | Num z => z
  | Sqrt n => if Z.sqrt n * Z.sqrt n =? n then Z.sqrt n else Z.sqrt n + 1
  | Quot a b => - ((- a) / b)
  end.

Record dimension := { w : jsnum; h : jsnum }.

Definition commonResolutions : list (Z * Z) :=
  [ (128, 128); (64, 64); (32, 32); (16, 16);
    (320, 240); (240, 320); (128, 160); (160, 128);
    (128, 64); (64, 128); (96, 64); (64, 96) ].

(** The initial [possibleDimensions]: square, single row, single column. *)
Definition genericDimensions (totalPixels : Z) : list dimension :=
  [ {| w := Sqrt totalPixels; h := Sqrt totalPixels |};
    {| w := Num totalPixels; h := Num 1 |};
    {| w := Num 1; h := Num totalPixels |} ].

(** [commonResolutions.forEach(res => { if (res.w * res.h === totalPixels)
    possibleDimensions.unshift(res) })]: each match is put in front. *)
Definition possibleDimensions (totalPixels : Z) : list dimension :=
  fold_left
    (fun acc (res : Z * Z) =>
       if res.1 * res.2 =? totalPixels
       then {| w := Num res.1; h := Num res.2 |} :: acc
       else acc)
    commonResolutions (genericDimensions totalPixels).

Definition exact_match (totalPixels : Z) (dim : dimension) : bool :=
  Math_floor (w dim) * Math_floor (h dim) =? totalPixels.

(** The operand of [||]: used when [find] returns [undefined]. *)
Definition lastResort (totalPixels : Z) : dimension :=
  {| w := Num (Math_ceil (Sqrt totalPixels));
     h := Num (Math_ceil (Quot totalPixels (Math_ceil (Sqrt totalPixels)))) |}.

Definition resolveDimensions (totalPixels : Z) : Z * Z :=
  let dimension :=
    default (lastResort totalPixels)
      (List.find (exact_match totalPixels) (possibleDimensions totalPixels)) in
  let width := Math_floor (w dimension) in
  let height := Math_floor (h dimension) in
  if negb (width * height =? totalPixels)
  then (totalPixels, 1)
  else (width, height).

(** ** Characters and texts *)

Definition text : Type := list ascii.

(** A string literal as a text. *)
Definition str (s : string) : text := list_ascii_of_string s.

Definition code (c : ascii) : N := N_of_ascii c.

Definition in_range (lo hi : N) (c : ascii) : bool :=
  ((lo <=? code c) && (code c <=? hi))%N.

(** [\d], [\w], [[0-9a-fA-F]] and [\s].  Of the white space and line
    terminator characters of JavaScript, tab, line feed, vertical tab,
    form feed, carriage return, space and no-break space fit in 8 bits. *)
Definition is_digit (c : ascii) : bool := in_range 48 57 c.
Definition is_word (c : ascii) : bool :=
  in_range 97 122 c || in_range 65 90 c || in_range 48 57 c || (code c =? 95)%N.
Definition is_hex (c : ascii) : bool :=
  in_range 48 57 c || in_range 97 102 c || in_range 65 70 c.
Definition is_ws (c : ascii) : bool :=
  in_range 9 13 c || (code c =? 32)%N || (code c =? 160)%N.

(** Canonicalize of the [i] flag, on ASCII: lower-case letters are
    upper-cased.  Characters above 127 are left alone: their canonical
    form is never an ASCII character, and the patterns below compare with
    ASCII characters only, so this does not change what they match. *)
Definition canon (c : ascii) : ascii :=
  if in_range 97 122 c then ascii_of_N (code c - 32) else c.

Fixpoint take_while {A} (p : A -> bool) (l : list A) : list A :=
  match l with
  | x :: l' => if p x then x :: take_while p l' else []
  | [] => []
  end.

Fixpoint drop_while {A} (p : A -> bool) (l : list A) : list A :=
  match l with
  | x :: l' => if p x then drop_while p l' else l
  | [] => []
  end.

(** ** Regular expressions

    The patterns of [parseHexFile] use characters, character classes,
    concatenation, greedy quantifiers and capturing groups.  Matching is
    the backtracking matcher of the language definition, written with
    continuations: a matcher receives the rest of the input, the captures
    so far and a continuation that tries the remainder of the pattern. *)

Module Regex.

Inductive regex :=
| Eps                                     (* the empty pattern *)
| Chr (p : ascii -> bool)                 (* one character, one class *)
| Seq (r1 r2 : regex)
| Rep (min : nat) (max : option nat) (r : regex)   (* greedy {min,max} *)
| Grp (i : nat) (r : regex).              (* capturing group number i *)

Definition Star := Rep 0 None.            (* r* *)
Definition Plus := Rep 1 None.            (* r+ *)
Definition Opt := Rep 0 (Some 1%nat).     (* r? *)

Definition chr (c : ascii) : regex := Chr (Ascii.eqb c).
Definition chr_i (c : ascii) : regex := Chr (fun a => Ascii.eqb (canon a) (canon c)).
Definition not_chr (c : ascii) : regex := Chr (fun a => negb (Ascii.eqb c a)).

(** A literal run of characters. *)
Fixpoint lit (l : text) : regex :=
  match l with
  | [] => Eps
  | c :: l' => Seq (chr c) (lit l')
  end.

Definition captures : Type := list (nat * text).

(** The text captured by group [i], if it took part in the match. *)
Fixpoint capture (i : nat) (cs : captures) : option text :=
  match cs with
  | [] => None
  | (j, t) :: cs' => if Nat.eqb i j then Some t else capture i cs'
  end.

Section Matcher.
Context {R : Type}.

Definition cont : Type := text -> captures -> option R.
Definition matcher : Type := text -> captures -> cont -> option R.

(** RepeatMatcher.  [d] is the continuation after one more iteration: an
    iteration that is not required and consumed nothing is rejected.  The
    fuel bounds the number of iterations; [min + length s] iterations are
    never exceeded (see [matchK_fuel]). *)
Fixpoint repeatK (m : matcher) (fuel min : nat) (max : option nat)
    (s : text) (cs : captures) (k : cont) : option R :=
  match fuel with
  | O => None
  | S fuel' =>
      match max with
      | Some O => k s cs
      | _ =>
          let d : cont := fun s' cs' =>
            if Nat.eqb min 0 && Nat.eqb (length s') (length s) then None
            else repeatK m fuel' (Nat.pred min) (Nat.pred <$> max) s' cs' k in
          if Nat.eqb min 0 then
            match m s cs d with
            | Some z => Some z
            | None => k s cs
            end
          else m s cs d
      end
  end.

Fixpoint matchK (r : regex) (s : text) (cs : captures) (k : cont) : option R :=
  match r with
  | Eps => k s cs
  | Chr p =>
      match s with
      | c :: s' => if p c then k s' cs else None
      | [] => None
      end
  | Seq r1 r2 => matchK r1 s cs (fun s' cs' => matchK r2 s' cs' k)
  | Rep min max r1 =>
      repeatK (matchK r1) (S (min + length s)) min max s cs k
  | Grp i r1 =>
      matchK r1 s cs
        (fun s' cs' => k s' ((i, take (length s - length s') s) :: cs'))
  end.

End Matcher.

(** A match: the matched text, the text after it, the captures. *)
Definition match_result : Type := text * text * captures.

(** Try the pattern at the start of [s]. *)
Definition match_here (r : regex) (s : text) : option match_result :=
  matchK r s []
    (fun s' cs => let n := (length s - length s')%nat in
                  Some (take n s, drop n s, cs)).

(** [regex.exec]: the leftmost position of [s] where the pattern matches. *)
Fixpoint exec (r : regex) (s : text) : option match_result :=
  match match_here r s with
  | Some m => Some m
  | None =>
      match s with
      | [] => None
      | _ :: s' => exec r s'
      end
  end.

(** [s.match(r)] with the [g] flag: all matches, left to right, each search
    resuming where the previous match ended (one character further after
    an empty match).  [[]] stands for [null]. *)
Fixpoint match_all_fuel (fuel : nat) (r : regex) (s : text) : list text :=
  match fuel with
  | O => []
  | S fuel' =>
      match exec r s with
      | None => []
      | Some (m, rest, _) =>
          m :: match m, rest with
               | [], [] => []
               | [], _ :: rest' => match_all_fuel fuel' r rest'
               | _ :: _, _ => match_all_fuel fuel' r rest
               end
      end
  end.

Definition match_all (r : regex) (s : text) : list text :=
  match_all_fuel (S (length s)) r s.

(** [s.split(r)] for a pattern without groups.  [piece] holds the
    characters between the last split point [p] and the position [q] that
    is being tried; a match at [q] that ends at [p] is skipped. *)
Fixpoint split_fuel (fuel : nat) (r : regex) (piece s : text) : list text :=
  match fuel with
  | O => [piece ++ s]
  | S fuel' =>
      match s with
      | [] => [piece]
      | c :: s' =>
          match match_here r s with
          | None => split_fuel fuel' r (piece ++ [c]) s'
          | Some (m, rest, _) =>
              match m, piece with
              | [], [] => split_fuel fuel' r (piece ++ [c]) s'
              | _, _ => piece :: split_fuel fuel' r [] rest
              end
          end
      end
  end.

Definition split (r : regex) (s : text) : list text :=
  match s with
  | [] => match match_here r [] with Some _ => [] | None => [[]] end
  | _ => split_fuel (2 * length s + 1) r [] s
  end.

End Regex.

Import Regex.

Infix "+>" := Seq (at level 60, right associativity).

(** ** The patterns of [parseHexFile] *)

Definition ws : regex := Chr is_ws.           (* \s *)
Definition not_brace : regex := not_chr "}".  (* [^}] *)

(** A class under the [i] flag, for a class closed under [canon]. *)
Definition class_i (p : ascii -> bool) : regex :=
  Chr (fun a => p a || p (canon a)).

(** [/(?:const\s+)?uint16_t\s+(\w+)\s*\[\s*(?:\d+)?\s*\]\s*=\s*\{([^}]+)\}/] *)
Definition arrayPattern : regex :=
  Opt (lit (str "const") +> Plus ws) +>
  lit (str "uint16_t") +> Plus ws +>
  Grp 1 (Plus (Chr is_word)) +> Star ws +>
  chr "[" +> Star ws +> Opt (Plus (Chr is_digit)) +> Star ws +> chr "]" +>
  Star ws +> chr "=" +> Star ws +>
  chr "{" +> Grp 2 (Plus not_brace) +> chr "}".

(** [/\{( [^}]* (?: 0x[0-9a-fA-F]+ [^}]* )+ )\}/], written here with
    blanks between its parts. *)
Definition fallbackPattern : regex :=
  chr "{" +>
  Grp 1 (Star not_brace +>
         Plus (lit (str "0x") +> Plus (Chr is_hex) +> Star not_brace)) +>
  chr "}".

(** [/0x[0-9a-fA-F]+/g], the [hexPattern] local to the last extraction
    tier. *)
Definition allHexPattern : regex := lit (str "0x") +> Plus (Chr is_hex).

(** [/0x[0-9a-fA-F]{1,4}/gi], the [hexPattern] of the value parser. *)
Definition hexPattern : regex :=
  chr_i "0" +> chr_i "x" +> Rep 1 (Some 4%nat) (class_i is_hex).

(** [/[,\s\n\r]+/] *)
Definition separatorPattern : regex :=
  Plus (Chr (fun c => Ascii.eqb "," c || is_ws c
                      || Ascii.eqb "010" c || Ascii.eqb "013" c)).

(** ** String helpers *)

(** [s.replace(/c/g, d)] for a single character [c]. *)
Definition replace_char (c d : ascii) (s : text) : text :=
  map (fun a => if Ascii.eqb c a then d else a) s.

(** [s.trim()] *)
Definition trim (s : text) : text :=
  rev (drop_while is_ws (rev (drop_while is_ws s))).

(** [a.join(sep)] *)
Fixpoint join (sep : text) (a : list text) : text :=
  match a with
  | [] => []
  | [x] => x
  | x :: a' => x ++ sep ++ join sep a'
  end.

(** The value of a hexadecimal digit. *)
Definition hex_digit (c : ascii) : Z :=
  if in_range 48 57 c then Z.of_N (code c) - 48
  else if in_range 97 102 c then Z.of_N (code c) - 87
  else Z.of_N (code c) - 55.

Definition hex_value (ds : text) : Z :=
  fold_left (fun acc c => 16 * acc + hex_digit c) ds 0.

(** [parseInt(s, 16)]: leading white space, a sign, an optional [0x] or
    [0X], then the longest run of hexadecimal digits; [None] is NaN.  The
    value is exact below 2^53; the callers pass at most four digits. *)
Definition parseInt16 (s : text) : option Z :=
  let s := drop_while is_ws s in
  let '(sign, s) :=
    match s with
    | "-"%char :: t => (-1, t)
    | "+"%char :: t => (1, t)
    | _ => (1, s)
    end in
  let s :=
    match s with
    | "0"%char :: x :: t =>
        if Ascii.eqb x "x" || Ascii.eqb x "X" then t else s
    | _ => s
    end in
  match take_while is_hex s with
  | [] => None
  | ds => Some (sign * hex_value ds)
  end.

(** ** [parseHexFile] *)

Inductive error :=
| NoHexValuesFound    (* 'No hex values found in the file. ...' *)
| NoValidHexValues.   (* 'No valid hex values found. ...' *)

(** HexTokenExtractor: the three extraction tiers; the result is
    [(arrayName, hexDataString)].  A group that matched always has a
    capture, [default] stands for the [undefined] that cannot occur. *)
Definition extract (content : text) : error + (text * text) :=
  match exec arrayPattern content with
  | Some (_, _, arrayMatch) =>
      inr (default [] (capture 1 arrayMatch), default [] (capture 2 arrayMatch))
  | None =>
      let singleLineContent :=
        replace_char "013" " " (replace_char "010" " " content) in
      match exec fallbackPattern singleLineContent with
      | Some (_, _, fallbackMatch) =>
          inr (str "parsed_array", default [] (capture 1 fallbackMatch))
      | None =>
          match match_all allHexPattern content with
          | [] => inl NoHexValuesFound
          | allHexMatches =>
              inr (str "extracted_hex_values", join (str ", ") allHexMatches)
          end
      end
  end.

(** [if (!isNaN(hexVal) && hexVal >= 0 && hexVal <= 0xFFFF) hexValues.push(hexVal)] *)
Definition push_if_valid (hexVal : option Z) : list Z :=
  match hexVal with
  | Some v => if (0 <=? v) && (v <=? 0xFFFF) then [v] else []
  | None => []
  end.

(** First strategy: the values of the [0x]-prefixed matches. *)
Definition directValues (hexDataString : text) : list Z :=
  flat_map (fun m => push_if_valid (parseInt16 m))
           (match_all hexPattern hexDataString).

(** Second strategy: split, trim, drop the empty pieces, strip what is not
    a hexadecimal digit, keep the pieces of 3 or 4 digits. *)
Definition cleanedValues (hexDataString : text) : list Z :=
  let potentialValues :=
    List.filter (fun val => (0 <? length val)%nat)
      (map trim (split separatorPattern hexDataString)) in
  flat_map
    (fun val =>
       let cleanVal := List.filter is_hex val in
       if (3 <=? length cleanVal)%nat && (length cleanVal <=? 4)%nat
       then push_if_valid (parseInt16 (str "0x" ++ cleanVal))
       else [])
    potentialValues.

(** HexValueParser: the second strategy runs only when the first one left
    [hexValues] empty. *)
Definition parseValues (hexDataString : text) : list Z :=
  match directValues hexDataString with
  | [] => cleanedValues hexDataString
  | hexValues => hexValues
  end.

Definition parseHexFile (content : text) : error + ImageData :=
  match extract content with
  | inl e => inl e
  | inr (arrayName, hexDataString) =>
      match parseValues hexDataString with
      | [] => inl NoValidHexValues
      | hexValues =>
          let totalPixels := Z.of_nat (length hexValues) in
          let '(width, height) := resolveDimensions totalPixels in
          inr {| width := width; height := height;
                 data := hexValues; name := arrayName |}
      end
  end.

(** ** The language of a pattern

    [lang r w]: the text [w] is matched by [r] as a whole, in the ordinary
    set-theoretic reading of the pattern. *)

Fixpoint lang (r : regex) (w : text) : Prop :=
  match r with
  | Eps => w = []
  | Chr p => exists c, w = [c] /\ p c = true
  | Seq r1 r2 => exists u v, w = u ++ v /\ lang r1 u /\ lang r2 v
  | Rep min max r1 =>
      exists ws, w = mjoin ws /\ Forall (lang r1) ws /\
                 (min <= length ws)%nat /\
                 match max with
                 | Some mx => (length ws <= mx)%nat
                 | None => True
                 end
  | Grp _ r1 => lang r1 w
  end.

(** A matcher respects its input when only the continuation's behaviour on
    texts no longer than the input matters. *)
Definition respects {R} (m : @matcher R) : Prop :=
  forall s cs k1 k2,
    (forall s' cs', (length s' <= length s)%nat -> k1 s' cs' = k2 s' cs') ->
    m s cs k1 = m s cs k2.

(** A quantifier [{min,max}] is well formed when [min <= max]; the
    language rejects the others when it reads the pattern. *)
Fixpoint well_formed (r : regex) : bool :=
  match r with
  | Eps | Chr _ => true
  | Seq r1 r2 => well_formed r1 && well_formed r2
  | Rep min (Some mx) r1 => (min <=? mx)%nat && well_formed r1
  | Rep _ None r1 => well_formed r1
  | Grp _ r1 => well_formed r1
  end.

(** [stops p b]: a run of [p]-characters ends in front of [b]. *)
Definition stops (p : ascii -> bool) (b : text) : Prop :=
  match b with
  | [] => True
  | c :: _ => p c = false
  end.

(** The length of the longest run of [p]-characters at the start of [s],
    cut at [max] characters. *)
Fixpoint run_length (p : ascii -> bool) (max : option nat) (s : text) : nat :=
  match s with
  | c :: s' =>
      if p c then
        match max with
        | Some O => O
        | _ => S (run_length p (Nat.pred <$> max) s')
        end
      else O
  | [] => O
  end.

(** The letter of the [0x] prefix, in either case. *)
Definition is_x (c : ascii) : bool := Ascii.eqb c "x" || Ascii.eqb c "X".

(** All 256 characters. *)
Definition all_ascii : list ascii := map ascii_of_nat (seq 0 256).

(** An open prefix: [0x] or [0X] followed by at most three hexadecimal
    digits.  A match of [hexPattern] that starts there takes a hexadecimal
    digit that follows. *)
Definition open_prefix (s : text) : bool :=
  match s with
  | c0 :: c1 :: hs =>
      Ascii.eqb c0 "0" && is_x c1 && (length hs <=? 3)%nat && forallb is_hex hs
  | _ => false
  end.

(** [glued pre]: [pre] ends with an open prefix, so that the [0] of a
    token right behind [pre] can be taken as a digit of an earlier match. *)
Fixpoint glued (pre : text) : bool :=
  open_prefix pre ||
  match pre with
  | [] => false
  | _ :: pre' => glued pre'
  end.

(** The text contains a [0x]-prefixed hexadecimal token: [0x] and at least
    one hexadecimal digit. *)
Definition has_hex_token (t : text) : Prop :=
  exists pre h post,
    t = pre ++ "0"%char :: "x"%char :: h :: post /\ is_hex h = true.

(** ** Declarations and loose tokens *)


Definition all_of (p : ascii -> bool) (s : text) : Prop :=
  Forall (fun c => p c = true) s.



(** ** Auxiliary predicates of the proofs *)

Definition is_byte (v : Z) : Prop := 0 <= v < 256.

(** What survives every header store after the first one: the size of the
    buffer and its first two bytes. *)
Definition hdr_inv (n : Z) (b0 b1 : Z) (buf : list Z) : Prop :=
  Z.of_nat (length buf) = n /\ buf !! 0%nat = Some b0 /\ buf !! 1%nat = Some b1.

(** A matcher is sound for a language [L] when, on success, it has consumed
    a text of [L] and the continuation succeeded on the rest. *)
Definition sound_for {R} (L : text -> Prop) (m : @matcher R) : Prop :=
  forall s cs k z, m s cs k = Some z ->
    exists w s' cs', s = w ++ s' /\ L w /\ k s' cs' = Some z.

(** [n] repetitions are allowed by the upper bound [max]. *)
Definition within (max : option nat) (n : nat) : Prop :=
  match max with Some mx => (n <= mx)%nat | None => True end.

(** The number of steps [split_fuel] still needs. *)
Definition split_measure (piece s : text) : nat :=
  (2 * length s + match piece with [] => 0 | _ :: _ => 1 end)%nat.

(** * Part I, continued: the rest of the component *)

(** ** DimensionResolver: the table entry that wins

    Each matching entry of [commonResolutions] is put in front of the
    earlier ones, so the entry found first is the last matching one of the
    table. *)
Definition tableChoice (totalPixels : Z) : option (Z * Z) :=
  List.find (fun res : Z * Z => res.1 * res.2 =? totalPixels)
            (rev commonResolutions).

(** ** BmpEncoder: the header as a list of fields *)

(** The fifteen fields that [createBMP] stores, in the order of their
    offsets, each in little-endian byte order. *)
Definition header_fields (width height imageSize fileSize : Z) : list (list Z) :=
  [ Buf.bytes_of 2 0x424D true;      (* offset 0 *)
    Buf.bytes_of 4 fileSize true;    (* 2 *)
    Buf.bytes_of 4 0 true;           (* 6 *)
    Buf.bytes_of 4 54 true;          (* 10 *)
    Buf.bytes_of 4 40 true;          (* 14 *)
    Buf.bytes_of 4 width true;       (* 18 *)
    Buf.bytes_of 4 height true;      (* 22 *)
    Buf.bytes_of 2 1 true;           (* 26 *)
    Buf.bytes_of 2 24 true;          (* 28 *)
    Buf.bytes_of 4 0 true;           (* 30 *)
    Buf.bytes_of 4 imageSize true;   (* 34 *)
    Buf.bytes_of 4 2835 true;        (* 38 *)
    Buf.bytes_of 4 2835 true;        (* 42 *)
    Buf.bytes_of 4 0 true;           (* 46 *)
    Buf.bytes_of 4 0 true ].         (* 50 *)

(** The unsigned value of a little-endian byte sequence. *)
Fixpoint le_value (bs : list Z) : Z :=
  match bs with
  | [] => 0
  | b :: bs' => b + 256 * le_value bs'
  end.

(** The unsigned little-endian integer held by the [n] bytes at [off]. *)
Definition read_le (buf : list Z) (off n : nat) : Z :=
  le_value (take n (drop off buf)).

(** ** Preview raster: [createPreview]

    [createPreview] fills an RGBA raster and hands it to the canvas.  The
    model keeps the raster: the canvas element, the early return when no
    2D context is available and the data URL are the browser's. *)

Module Canvas.

(** [ctx.createImageData(sw, sh)]: a transparent black raster of
    [|sw| * |sh|] pixels, four bytes each; a zero size throws
    IndexSizeError ([None]).  The limits of what a browser allocates are
    left out. *)
Definition createImageData (sw sh : Z) : option (list Z) :=
  if decide (sw = 0 \/ sh = 0) then None
  else Some (replicate (Z.to_nat (4 * Z.abs sw * Z.abs sh)) 0).

(** A store into the Uint8ClampedArray of the raster: the value is clamped
    to [0, 255]; an index outside the array is ignored. *)
Definition store (raster : list Z) (i v : Z) : list Z :=
  if decide (0 <= i) then <[Z.to_nat i := Z.max 0 (Z.min 255 v)]> raster
  else raster.

End Canvas.

(** Body of the loop over [imageData.data]. *)
Definition preview_step (data : list Z) (imgData : list Z) (i : Z) : list Z :=
  let '(r, g, b) := rgb565ToRgb (default 0 (js_index data i)) in
  let pixelIndex := i * 4 in
  let imgData := Canvas.store imgData pixelIndex r in
  let imgData := Canvas.store imgData (pixelIndex + 1) g in
  let imgData := Canvas.store imgData (pixelIndex + 2) b in
  Canvas.store imgData (pixelIndex + 3) 255.

(** The raster passed to [putImageData]. *)
Definition createPreview (imageData : ImageData) : option (list Z) :=
  imgData ← Canvas.createImageData (width imageData) (height imageData);
  Some (foldl (preview_step (data imageData)) imgData
          (seqZ 0 (Z.of_nat (length (data imageData))))).

(** The four raster bytes of one value. *)
Definition preview_pixel (v : Z) : list Z :=
  let '(r, g, b) := rgb565ToRgb v in [r; g; b; 255].

(** ** The example's display data ([loadExampleFile])

    [new Array(57600).fill(0)], then the copy loop up to
    [Math.min(parsedData.data.length, 57600)]. *)
Definition displayPixels (parsed : list Z) : list Z :=
  foldl (fun dp i => <[Z.to_nat i := default 0 (js_index parsed i)]> dp)
        (replicate (Z.to_nat 57600) 0)
        (seqZ 0 (Z.min (Z.of_nat (length parsed)) 57600)).

(** [{...parsedData, width: 240, height: 240, data: displayPixels}] *)
Definition displayData (parsedData : ImageData) : ImageData :=
  {| width := 240; height := 240;
     data := displayPixels (data parsedData);
     name := name parsedData |}.

(** ** Token lists *)

(** A token: [0x] and its digits. *)
Definition token (ds : text) : text := "0"%char :: "x"%char :: ds.

(** The digits of a token: at least one, all hexadecimal. *)
Definition digits (ds : text) : Prop := ds <> [] /\ all_of is_hex ds.

(** No token starts inside a text without the character [0]. *)
Definition zero_free (s : text) : Prop :=
  all_of (fun c => negb (Ascii.eqb c "0")) s.

(** A gap ends the token in front of it: it has no character [0] and does
    not begin with a hexadecimal digit or the letter x. *)
Definition gap (g : text) : Prop :=
  stops (fun c => is_hex c || is_x c) g /\ zero_free g.

(** A token followed by further tokens, each after its separator. *)
Definition token_list (ds0 : text) (more : list (text * text)) : text :=
  token ds0 ++ flat_map (fun item : text * text => item.1 ++ token item.2) more.

(** ** Bare words *)

(** The class of [separatorPattern]. *)
Definition is_sep (c : ascii) : bool :=
  Ascii.eqb "," c || is_ws c || Ascii.eqb "010" c || Ascii.eqb "013" c.

(** The loop of [split] on [separatorPattern] from the state
    [(piece, s)], with the fuel this state needs. *)
Definition split_from (piece s : text) : list text :=
  split_fuel (S (split_measure piece s)) separatorPattern piece s.

(** A word followed by further words, each after its separator. *)
Definition word_list (w0 : text) (more : list (text * text)) : text :=
  w0 ++ flat_map (fun item : text * text => item.1 ++ item.2) more.

(** The values that a word of hexadecimal digits stands for: its value
    when it has three or four digits, nothing otherwise. *)
Definition word_values (w : text) : list Z :=
  if (3 <=? length w)%nat && (length w <=? 4)%nat then [hex_value w] else [].

(** ** Brace blocks *)

(** [content.replace(/\n/g, ' ').replace(/\r/g, ' ')] *)
Definition single_line (content : text) : text :=
  replace_char "013" " " (replace_char "010" " " content).

(** The inside of the parentheses of [fallbackPattern]. *)
Definition fallbackPattern_group : regex :=
  Star not_brace +>
  Plus (lit (str "0x") +> Plus (Chr is_hex) +> Star not_brace).

(** Every character class of the pattern lies within [P]. *)
Fixpoint only_chars (P : ascii -> Prop) (r : regex) : Prop :=
  match r with
  | Eps => True
  | Chr q => forall c, q c = true -> P c
  | Seq r1 r2 => only_chars P r1 /\ only_chars P r2
  | Rep _ _ r1 => only_chars P r1
  | Grp _ r1 => only_chars P r1
  end.

(** * Part II: lemmas and theorems *)

(** ** ColorConverter *)

Lemma Z_below_forallb (P : Z -> Prop) (f : Z -> bool) (n : Z) :
  (forall z, f z = true -> P z) ->
  forallb f (seqZ 0 n) = true ->
  forall z, 0 <= z < n -> P z.
Proof.
  intros Hf Hall z Hz. apply Hf.
  rewrite forallb_forall in Hall. apply Hall.
  apply list_elem_of_In, elem_of_seqZ. lia.
Qed.

Lemma ToInt32_small z : - 2 ^ 31 <= z < 2 ^ 31 -> JS.ToInt32 z = z.
Proof.
  intros Hz. unfold JS.ToInt32.
  rewrite Z.mod_small by lia. lia.
Qed.

Lemma mask_range a m k :
  0 <= k < 31 -> m = Z.ones k -> 0 <= JS.and a m < 2 ^ k.
Proof.
  intros Hk ->. unfold JS.and.
  assert (Hp : 2 ^ k <= 2 ^ 30) by (apply Z.pow_le_mono_r; lia).
  assert (H0 : 0 < 2 ^ k) by (apply Z.pow_pos_nonneg; lia).
  rewrite (ToInt32_small (Z.ones k)) by (rewrite Z.ones_equiv; lia).
  rewrite Z.land_ones by lia.
  apply Z.mod_pos_bound; lia.
Qed.

Lemma field5_range a : 0 <= JS.and a 0x1F < 32.
Proof. apply (mask_range a 0x1F 5); [lia | reflexivity]. Qed.

Lemma field6_range a : 0 <= JS.and a 0x3F < 64.
Proof. apply (mask_range a 0x3F 6); [lia | reflexivity]. Qed.

Lemma expand5_spec v :
  0 <= v < 32 ->
  expand5 v = Z.lor (Z.shiftl v 3) (Z.shiftr v 2) /\ 0 <= expand5 v <= 255.
Proof.
  revert v.
  apply (Z_below_forallb _
    (fun v => (expand5 v =? Z.lor (Z.shiftl v 3) (Z.shiftr v 2))
              && (0 <=? expand5 v) && (expand5 v <=? 255))).
  - intros z Hz. apply andb_prop in Hz as [Hz H3]. apply andb_prop in Hz as [H1 H2].
    apply Z.eqb_eq in H1. apply Z.leb_le in H2, H3. auto.
  - vm_compute. reflexivity.
Qed.

Lemma expand6_spec v :
  0 <= v < 64 ->
  expand6 v = Z.lor (Z.shiftl v 2) (Z.shiftr v 4) /\ 0 <= expand6 v <= 255.
Proof.
  revert v.
  apply (Z_below_forallb _
    (fun v => (expand6 v =? Z.lor (Z.shiftl v 2) (Z.shiftr v 4))
              && (0 <=? expand6 v) && (expand6 v <=? 255))).
  - intros z Hz. apply andb_prop in Hz as [Hz H3]. apply andb_prop in Hz as [H1 H2].
    apply Z.eqb_eq in H1. apply Z.leb_le in H2, H3. auto.
  - vm_compute. reflexivity.
Qed.

Lemma rgb565ToRgb_fields c :
  rgb565ToRgb c =
  (expand5 (JS.and (JS.shr c 11) 0x1F),
   expand6 (JS.and (JS.shr c 5) 0x3F),
   expand5 (JS.and c 0x1F)).
Proof. cbv beta zeta delta [rgb565ToRgb expand5 expand6]. reflexivity. Qed.

(** Every channel is a byte, whatever integer is passed in. *)
Lemma rgb565ToRgb_bytes c r g b :
  rgb565ToRgb c = (r, g, b) ->
  0 <= r <= 255 /\ 0 <= g <= 255 /\ 0 <= b <= 255.
Proof.
  rewrite rgb565ToRgb_fields. intros [= <- <- <-].
  split; [|split].
  - exact (proj2 (expand5_spec _ (field5_range (JS.shr c 11)))).
  - exact (proj2 (expand6_spec _ (field6_range (JS.shr c 5)))).
  - exact (proj2 (expand5_spec _ (field5_range c))).
Qed.

Lemma bits_testbit c hi lo i :
  0 <= lo <= hi -> 0 <= i ->
  Z.testbit (bits c hi lo) i = (i <=? hi - lo) && Z.testbit c (lo + i).
Proof.
  intros Hl Hi. unfold bits.
  rewrite <- Z.shiftr_div_pow2, <- Z.land_ones by lia.
  rewrite Z.land_spec, Z.shiftr_spec, Z.testbit_ones_nonneg by lia.
  rewrite (Z.add_comm i lo).
  destruct (Z.leb_spec i (hi - lo)), (Z.ltb_spec i (hi - lo + 1)); try lia;
    destruct (Z.testbit c (lo + i)); reflexivity.
Qed.

Lemma field_bits c sh m hi :
  0 <= c < 65536 -> 0 <= sh <= hi -> hi < 16 ->
  m = Z.ones (hi - sh + 1) ->
  JS.and (JS.shr c sh) m = bits c hi sh.
Proof.
  intros Hc Hs Hh ->. unfold JS.and, JS.shr, bits.
  assert (Hp : 0 < 2 ^ (hi - sh + 1) <= 2 ^ 16).
  { split; [apply Z.pow_pos_nonneg; lia | apply Z.pow_le_mono_r; lia]. }
  rewrite (ToInt32_small c) by lia.
  rewrite (Z.mod_small sh 32) by lia.
  rewrite Z.shiftr_div_pow2 by lia.
  assert (H2 : 0 < 2 ^ sh) by (apply Z.pow_pos_nonneg; lia).
  assert (Hq : 0 <= c / 2 ^ sh <= c).
  { split; [apply Z.div_pos; lia |].
    apply Z.div_le_upper_bound; nia. }
  rewrite (ToInt32_small (c / 2 ^ sh)) by lia.
  rewrite (ToInt32_small (Z.ones _)) by (rewrite Z.ones_equiv; lia).
  rewrite Z.land_ones by lia. reflexivity.
Qed.

(** C1 (amended): for every 16-bit input the three components returned by
    [rgb565ToRgb] (ColorConverter.toRgb888) lie in [0,255]; because the
    expansion replicates the high bits, the canonical inputs 0xF800, 0x07E0,
    0x001F, 0xFFFF and 0x0000 give (255,0,0), (0,255,0), (0,0,255),
    (255,255,255) and (0,0,0). *)
Theorem toRgb888_range_and_canonical (c : Z) (Hc : 0 <= c < 65536) :
  (forall r g b, rgb565ToRgb c = (r, g, b) ->
     0 <= r <= 255 /\ 0 <= g <= 255 /\ 0 <= b <= 255) /\
  rgb565ToRgb 0xF800 = (255, 0, 0) /\
  rgb565ToRgb 0x07E0 = (0, 255, 0) /\
  rgb565ToRgb 0x001F = (0, 0, 255) /\
  rgb565ToRgb 0xFFFF = (255, 255, 255) /\
  rgb565ToRgb 0x0000 = (0, 0, 0).
Proof.
  split; [intros r g b; apply rgb565ToRgb_bytes |].
  repeat split; vm_compute; reflexivity.
Qed.

Lemma toRgb888_range_and_canonical_witness :
  0 <= 0xF81F < 65536 /\
  0 <= 255 <= 255 /\ 0 <= 0 <= 255 /\ 0 <= 255 <= 255.
Proof.
  split; [lia |].
  apply (proj1 (toRgb888_range_and_canonical 0xF81F ltac:(lia)) 255 0 255).
  vm_compute. reflexivity.
Defined.

(** C1 as written fails: pure red 0xF800 does not map to (248,0,0), nor
    do pure green and pure blue map to (0,252,0) and (0,0,248). *)
Lemma toRgb888_canonical_counterexample :
  ~ (rgb565ToRgb 0xF800 = (248, 0, 0) /\
     rgb565ToRgb 0x07E0 = (0, 252, 0) /\
     rgb565ToRgb 0x001F = (0, 0, 248) /\
     rgb565ToRgb 0xFFFF = (255, 255, 255) /\
     rgb565ToRgb 0x0000 = (0, 0, 0)).
Proof. intros [H _]. vm_compute in H. discriminate H. Qed.

(** C2: for every 16-bit input [c], with r5 = bits 15-11, g6 = bits 10-5
    and b5 = bits 4-0 of [c], [rgb565ToRgb] returns exactly
    ((r5 << 3) | (r5 >> 2), (g6 << 2) | (g6 >> 4), (b5 << 3) | (b5 >> 2)):
    the high bits are replicated into the low gap. *)
Theorem toRgb888_bit_replication (c : Z) (Hc : 0 <= c < 65536) :
  let r5 := bits c 15 11 in
  let g6 := bits c 10 5 in
  let b5 := bits c 4 0 in
  rgb565ToRgb c =
  (Z.lor (Z.shiftl r5 3) (Z.shiftr r5 2),
   Z.lor (Z.shiftl g6 2) (Z.shiftr g6 4),
   Z.lor (Z.shiftl b5 3) (Z.shiftr b5 2)).
Proof.
  intros r5 g6 b5. rewrite rgb565ToRgb_fields.
  assert (Hr : JS.and (JS.shr c 11) 0x1F = r5)
    by (apply field_bits; [lia | lia | lia | reflexivity]).
  assert (Hg : JS.and (JS.shr c 5) 0x3F = g6)
    by (apply field_bits; [lia | lia | lia | reflexivity]).
  assert (Hb : JS.and c 0x1F = b5).
  { transitivity (JS.and (JS.shr c 0) 0x1F).
    - unfold JS.shr, JS.and. rewrite (ToInt32_small c) by lia.
      rewrite Z.shiftr_0_r. rewrite (ToInt32_small c) by lia. reflexivity.
    - apply field_bits; [lia | lia | lia | reflexivity]. }
  rewrite Hr, Hg, Hb.
  assert (R5 : 0 <= r5 < 32) by (rewrite <- Hr; apply field5_range).
  assert (G6 : 0 <= g6 < 64) by (rewrite <- Hg; apply field6_range).
  assert (B5 : 0 <= b5 < 32) by (rewrite <- Hb; apply field5_range).
  rewrite (proj1 (expand5_spec r5 R5)), (proj1 (expand6_spec g6 G6)),
    (proj1 (expand5_spec b5 B5)).
  reflexivity.
Qed.

Lemma toRgb888_bit_replication_witness :
  rgb565ToRgb 0xF81F =
  (Z.lor (Z.shiftl (bits 0xF81F 15 11) 3) (Z.shiftr (bits 0xF81F 15 11) 2),
   Z.lor (Z.shiftl (bits 0xF81F 10 5) 2) (Z.shiftr (bits 0xF81F 10 5) 4),
   Z.lor (Z.shiftl (bits 0xF81F 4 0) 3) (Z.shiftr (bits 0xF81F 4 0) 2)).
Proof. apply (toRgb888_bit_replication 0xF81F). lia. Defined.

(** ** BmpEncoder *)

Example createBMP_2x1 :
  createBMP {| width := 2; height := 1; data := [0xF800; 0x0000]; name := [] |}
  = Some [0x4D; 0x42; 62; 0; 0; 0; 0; 0; 0; 0; 54; 0; 0; 0;
          40; 0; 0; 0; 2; 0; 0; 0; 1; 0; 0; 0; 1; 0; 24; 0; 0; 0; 0; 0;
          8; 0; 0; 0; 19; 11; 0; 0; 19; 11; 0; 0; 0; 0; 0; 0; 0; 0; 0; 0;
          0; 0; 255; 0; 0; 0; 0; 0].
Proof. vm_compute. reflexivity. Qed.

Lemma emit_all_app st a b : emit_all st (a ++ b) = emit_all (emit_all st a) b.
Proof. unfold emit_all. apply foldl_app. Qed.

Lemma foldl_emit_all {A} (f : A -> list Z) (l : list A) st :
  foldl (fun s x => emit_all s (f x)) st l = emit_all st (mjoin (f <$> l)).
Proof.
  revert st. induction l as [|a l IH]; intros st; [reflexivity |].
  cbn [foldl fmap list_fmap mjoin list_join]. csimpl.
  rewrite emit_all_app. apply IH.
Qed.

Lemma foldl_emit_zero {A} (l : list A) st :
  foldl (fun s _ => emit s 0) st l = emit_all st (replicate (length l) 0).
Proof.
  revert st. induction l as [|a l IH]; intros st; [reflexivity |].
  simpl. rewrite IH. reflexivity.
Qed.

Lemma pixel_step_emit img y st x :
  pixel_step img y st x = emit_all st (pixel_bytes img y x).
Proof.
  unfold pixel_step, pixel_bytes.
  destruct (decide _); [| reflexivity].
  destruct (rgb565ToRgb _) as [[r g] b]. reflexivity.
Qed.

Lemma row_step_emit img pad st y :
  row_step img pad st y = emit_all st (row_bytes img pad y).
Proof.
  unfold row_step, row_bytes.
  rewrite foldl_emit_zero, length_seqZ, emit_all_app. f_equal.
  rewrite <- foldl_emit_all.
  generalize (seqZ 0 (width img)). intros l. revert st.
  induction l as [|a l IH]; intros st; [reflexivity |].
  simpl. rewrite pixel_step_emit. apply IH.
Qed.

Lemma rows_emit img pad st :
  foldl (row_step img pad) st (reverse (seqZ 0 (height img)))
  = emit_all st (pixel_rows img pad).
Proof.
  unfold pixel_rows. rewrite <- foldl_emit_all.
  generalize (reverse (seqZ 0 (height img))). intros l. revert st.
  induction l as [|a l IH]; intros st; [reflexivity |].
  simpl. rewrite row_step_emit. apply IH.
Qed.

(** Sequential stores of bytes amount to one block store. *)
Lemma emit_all_inserts bs : forall buf off,
  0 <= off -> Forall is_byte bs ->
  emit_all (buf, off) bs
  = (list_inserts (Z.to_nat off) bs buf, off + Z.of_nat (length bs)).
Proof.
  induction bs as [|v bs IH]; intros buf off Hoff Hb.
  - simpl. f_equal. lia.
  - apply Forall_cons in Hb as [Hv Hb].
    change (emit_all (buf, off) (v :: bs))
      with (emit_all (emit (buf, off) v) bs).
    unfold emit. cbn [fst snd]. unfold Buf.u8_store.
    destruct (decide (0 <= off)); [| lia].
    rewrite IH by (auto; lia).
    rewrite Z.mod_small by exact Hv.
    cbn [list_inserts length]. f_equal; [| lia].
    replace (Z.to_nat (off + 1)) with (S (Z.to_nat off)) by lia.
    symmetry. apply list_insert_inserts_lt. lia.
Qed.

Lemma pixel_bytes_length img y x : length (pixel_bytes img y x) = 3%nat.
Proof.
  unfold pixel_bytes. destruct (decide _); [| reflexivity].
  destruct (rgb565ToRgb _) as [[r g] b]. reflexivity.
Qed.

Lemma pixel_bytes_byte img y x : Forall is_byte (pixel_bytes img y x).
Proof.
  unfold pixel_bytes. destruct (decide _).
  - destruct (rgb565ToRgb _) as [[r g] b] eqn:E.
    apply rgb565ToRgb_bytes in E. unfold is_byte.
    repeat constructor; lia.
  - unfold is_byte. repeat constructor; lia.
Qed.

Lemma row_bytes_length img pad y :
  0 <= width img -> 0 <= pad ->
  Z.of_nat (length (row_bytes img pad y)) = width img * 3 + pad.
Proof.
  intros Hw Hp. unfold row_bytes.
  rewrite length_app, length_replicate, length_join.
  rewrite (sum_list_fmap_same 3).
  - rewrite length_fmap, length_seqZ. lia.
  - apply Forall_fmap, Forall_forall. intros x _. apply pixel_bytes_length.
Qed.

Lemma row_bytes_byte img pad y : Forall is_byte (row_bytes img pad y).
Proof.
  unfold row_bytes. apply Forall_app. split.
  - apply Forall_join, Forall_fmap, Forall_forall. intros x _.
    apply pixel_bytes_byte.
  - apply Forall_replicate. unfold is_byte. lia.
Qed.

Lemma pixel_rows_length img pad :
  0 <= width img -> 0 <= height img -> 0 <= pad ->
  Z.of_nat (length (pixel_rows img pad)) = (width img * 3 + pad) * height img.
Proof.
  intros Hw Hh Hp. unfold pixel_rows. rewrite length_join.
  rewrite (sum_list_fmap_same (Z.to_nat (width img * 3 + pad))).
  - rewrite length_fmap, length_reverse, length_seqZ. nia.
  - apply Forall_fmap, Forall_forall. intros y _. simpl.
    pose proof (row_bytes_length img pad y Hw Hp). lia.
Qed.

Lemma pixel_rows_byte img pad : Forall is_byte (pixel_rows img pad).
Proof.
  unfold pixel_rows. apply Forall_join, Forall_fmap, Forall_forall.
  intros y _. apply row_bytes_byte.
Qed.

(** *** The header writes *)

Lemma bytes_of_length n v le : 0 <= n -> length (Buf.bytes_of n v le) = Z.to_nat n.
Proof.
  intros Hn. unfold Buf.bytes_of.
  destruct le; rewrite ?length_reverse, length_fmap, length_seqZ; reflexivity.
Qed.

Lemma view_set_ok buf off bs :
  0 <= off -> off + Z.of_nat (length bs) <= Z.of_nat (length buf) ->
  Buf.view_set buf off bs = Some (list_inserts (Z.to_nat off) bs buf).
Proof.
  intros H0 H1. unfold Buf.view_set.
  destruct (decide _) as [_ | Hn]; [reflexivity | lia].
Qed.

Lemma view_set_keeps n b0 b1 buf off bs :
  hdr_inv n b0 b1 buf -> 2 <= off -> off + Z.of_nat (length bs) <= n ->
  exists buf', Buf.view_set buf off bs = Some buf' /\ hdr_inv n b0 b1 buf'.
Proof.
  intros (Hl & H0 & H1) Hoff Hfit. unfold Buf.view_set.
  destruct (decide _) as [_ | Hn]; [| lia].
  eexists. split; [reflexivity |]. repeat split.
  - rewrite length_inserts. exact Hl.
  - rewrite list_lookup_inserts_lt by lia. exact H0.
  - rewrite list_lookup_inserts_lt by lia. exact H1.
Qed.

Lemma paddingSize_of_mod w :
  0 <= w ->
  paddingSize_of w = (4 - (w * 3) mod 4) mod 4 /\ 0 <= paddingSize_of w < 4.
Proof.
  intros Hw. unfold paddingSize_of, JS.rem.
  pose proof (Z.mod_pos_bound (w * 3) 4 ltac:(lia)) as Hm.
  rewrite (Z.rem_mod_nonneg (w * 3) 4) by lia.
  rewrite Z.rem_mod_nonneg by lia.
  split; [reflexivity |]. apply Z.mod_pos_bound. lia.
Qed.

Ltac header_store :=
  match goal with
  | Inv : hdr_inv _ _ _ ?b |- context [mbind _ (Buf.view_set ?b ?off ?bs)] =>
      let b' := fresh "buffer" in
      let E := fresh "E" in
      let Inv' := fresh "Inv" in
      destruct (view_set_keeps _ _ _ b off bs Inv) as (b' & E & Inv');
      [ lia | rewrite bytes_of_length by lia; lia
      | rewrite E; cbn [mbind option_bind]; clear E Inv; clear b ]
  end.

(** For a well-formed image the encoder does not throw, and its result is
    the header buffer with the pixel stream stored at offset 54. *)
Lemma createBMP_block img :
  1 <= width img -> 1 <= height img ->
  let pad := paddingSize_of (width img) in
  exists hbuf,
    hdr_inv (54 + (width img * 3 + pad) * height img) 0x4D 0x42 hbuf /\
    createBMP img = Some (list_inserts 54 (pixel_rows img pad) hbuf).
Proof.
  intros Hw Hh pad.
  destruct (paddingSize_of_mod (width img) ltac:(lia)) as [_ Hpad].
  fold pad in Hpad.
  assert (Hsz : 0 <= (width img * 3 + pad) * height img) by nia.
  unfold createBMP. fold pad.
  unfold Buf.new_ArrayBuffer.
  destruct (decide _) as [_ | Hn]; [| lia].
  cbn [mbind option_bind].
  set (n := 54 + (width img * 3 + pad) * height img) in *.
  unfold Buf.setUint16, Buf.setUint32, Buf.setInt32.
  (* the signature store *)
  rewrite view_set_ok
    by (rewrite ?length_replicate, ?bytes_of_length by lia; lia).
  cbn [mbind option_bind].
  assert (Inv : hdr_inv n 0x4D 0x42
            (list_inserts (Z.to_nat 0) (Buf.bytes_of 2 0x424D true)
               (replicate (Z.to_nat n) 0))).
  { repeat split.
    - rewrite length_inserts, length_replicate. lia.
    - rewrite list_lookup_inserts by (rewrite ?length_replicate; simpl; lia).
      reflexivity.
    - rewrite list_lookup_inserts by (rewrite ?length_replicate; simpl; lia).
      reflexivity. }
  revert Inv. generalize (list_inserts (Z.to_nat 0) (Buf.bytes_of 2 0x424D true)
               (replicate (Z.to_nat n) 0)). intros buffer Inv.
  do 14 header_store.
  match goal with Inv : hdr_inv _ _ _ ?b |- _ => exists b; split; [exact Inv |] end.
  rewrite rows_emit, emit_all_inserts by (auto using pixel_rows_byte; lia).
  reflexivity.
Qed.

(** *** Reading the pixel stream back *)

Lemma reverse_seqZ_lookup h (k : nat) :
  Z.of_nat k < h -> reverse (seqZ 0 h) !! k = Some (h - 1 - Z.of_nat k).
Proof.
  intros Hk. rewrite reverse_lookup by (rewrite length_seqZ; lia).
  rewrite length_seqZ. rewrite lookup_seqZ_lt by lia. f_equal. lia.
Qed.

Lemma pixel_rows_lookup img pad y (i : nat) v :
  0 <= width img -> 0 <= pad -> 0 <= y < height img ->
  row_bytes img pad y !! i = Some v ->
  pixel_rows img pad
    !! (Z.to_nat (height img - 1 - y) * Z.to_nat (width img * 3 + pad) + i)%nat
  = Some v.
Proof.
  intros Hw Hp Hy Hi. unfold pixel_rows.
  apply join_lookup_Some_same_length'.
  - apply Forall_fmap, Forall_forall. intros y' _. simpl.
    pose proof (row_bytes_length img pad y' Hw Hp). lia.
  - apply lookup_lt_Some in Hi.
    pose proof (row_bytes_length img pad y Hw Hp). lia.
  - exists (row_bytes img pad y). split; [| exact Hi].
    rewrite list_lookup_fmap, reverse_seqZ_lookup by lia.
    simpl. do 2 f_equal. lia.
Qed.

Lemma row_bytes_lookup_pixel img pad y x (c : nat) v :
  0 <= x < width img -> pixel_bytes img y x !! c = Some v ->
  row_bytes img pad y !! (Z.to_nat x * 3 + c)%nat = Some v.
Proof.
  intros Hx Hc. unfold row_bytes. apply lookup_app_l_Some.
  apply join_lookup_Some_same_length'.
  - apply Forall_fmap, Forall_forall. intros x' _. apply pixel_bytes_length.
  - apply lookup_lt_Some in Hc. rewrite pixel_bytes_length in Hc. exact Hc.
  - exists (pixel_bytes img y x). split; [| exact Hc].
    rewrite list_lookup_fmap, lookup_seqZ_lt by lia.
    simpl. do 2 f_equal. lia.
Qed.

Lemma row_bytes_lookup_pad img pad y p :
  0 <= width img -> 0 <= p < pad ->
  row_bytes img pad y !! Z.to_nat (width img * 3 + p) = Some 0.
Proof.
  intros Hw Hp. unfold row_bytes.
  assert (Hl : length (mjoin (pixel_bytes img y <$> seqZ 0 (width img)))
               = Z.to_nat (width img * 3)).
  { rewrite length_join, (sum_list_fmap_same 3).
    - rewrite length_fmap, length_seqZ. lia.
    - apply Forall_fmap, Forall_forall. intros x _. apply pixel_bytes_length. }
  rewrite lookup_app_r by lia.
  apply lookup_replicate_2. lia.
Qed.

(** The whole picture: success, size, the first two bytes, and every byte
    of every row at its place. *)
Lemma createBMP_lookup img :
  1 <= width img -> 1 <= height img ->
  let pad := (4 - (width img * 3) mod 4) mod 4 in
  let rowSize := width img * 3 + pad in
  exists buf,
    createBMP img = Some buf /\
    Z.of_nat (length buf) = 54 + rowSize * height img /\
    buf !! 0%nat = Some 0x4D /\ buf !! 1%nat = Some 0x42 /\
    forall y i v, 0 <= y < height img -> 0 <= i ->
      row_bytes img pad y !! Z.to_nat i = Some v ->
      buf !! Z.to_nat (54 + (height img - 1 - y) * rowSize + i) = Some v.
Proof.
  intros Hw Hh pad rowSize.
  destruct (paddingSize_of_mod (width img) ltac:(lia)) as [Hpe Hpad].
  destruct (createBMP_block img Hw Hh) as (hbuf & (Hl & H0 & H1) & Hc).
  rewrite Hpe in Hl, Hc, Hpad. fold pad in Hl, Hc, Hpad. fold rowSize in Hl.
  pose proof (pixel_rows_length img pad ltac:(lia) ltac:(lia) ltac:(lia)) as Hrl.
  fold rowSize in Hrl.
  exists (list_inserts 54 (pixel_rows img pad) hbuf).
  split; [exact Hc |]. split; [rewrite length_inserts; exact Hl |].
  split; [rewrite list_lookup_inserts_lt by lia; exact H0 |].
  split; [rewrite list_lookup_inserts_lt by lia; exact H1 |].
  intros y i v Hy Hi Hrow.
  pose proof (pixel_rows_lookup img pad y _ v ltac:(lia) ltac:(lia) Hy Hrow) as Hp.
  fold rowSize in Hp.
  pose proof (lookup_lt_Some _ _ _ Hp) as Hlt.
  pose proof (lookup_lt_Some _ _ _ Hrow) as Hlt'.
  assert (0 <= (height img - 1 - y) * rowSize) by nia.
  assert (Hidx : Z.to_nat (54 + (height img - 1 - y) * rowSize + i)
    = (54 + (Z.to_nat (height img - 1 - y) * Z.to_nat rowSize + Z.to_nat i))%nat).
  { rewrite Z2Nat.inj_add, Z2Nat.inj_add by lia.
    rewrite Z2Nat.inj_mul by lia. reflexivity. }
  rewrite Hidx.
  rewrite list_lookup_inserts by lia.
  rewrite <- Hp. f_equal. lia.
Qed.

Lemma pixel_bytes_color img y x r g b :
  0 <= y * width img + x ->
  pixel_color img (y * width img + x) = (r, g, b) ->
  pixel_bytes img y x = [b; g; r].
Proof.
  intros Hi. unfold pixel_color, pixel_bytes, js_index.
  destruct (decide (y * width img + x < _)) as [Hlt | Hge].
  - destruct (decide _) as [_ | Hn]; [| lia].
    destruct (lookup_lt_is_Some_2 (data img) (Z.to_nat (y * width img + x))
                ltac:(lia)) as [v Hv].
    rewrite Hv. change (default 0 (Some v)) with v.
    intros ->. reflexivity.
  - rewrite lookup_ge_None_2 by lia. intros [= <- <- <-]. reflexivity.
Qed.

(** The encoder's output starts with 0x4D 0x42 for every well-formed
    image: the 16-bit value 0x424D is stored low byte first. *)
Lemma createBMP_signature img :
  1 <= width img -> 1 <= height img ->
  exists buf, createBMP img = Some buf /\
    buf !! 0%nat = Some 0x4D /\ buf !! 1%nat = Some 0x42.
Proof.
  intros Hw Hh.
  destruct (createBMP_lookup img Hw Hh) as (buf & Hc & _ & H0 & H1 & _).
  exists buf. auto.
Qed.

(** C3: the claim asks for byte 0 = 0x42 and byte 1 = 0x4D.  On the 1x1
    image holding one black pixel the encoder returns a buffer whose byte 0
    is 0x4D and whose byte 1 is 0x42: the signature comes out reversed. *)
Theorem encode_signature_reversed :
  exists buf,
    createBMP {| width := 1; height := 1; data := [0]; name := [] |} = Some buf /\
    buf !! 0%nat = Some 0x4D /\ buf !! 1%nat = Some 0x42 /\
    buf !! 0%nat <> Some 0x42 /\ buf !! 1%nat <> Some 0x4D.
Proof.
  eexists. split; [vm_compute; reflexivity |].
  repeat split; simpl; congruence.
Qed.

Lemma row_bytes_channel img padding y x (c : nat) v :
  0 <= x < width img -> pixel_bytes img y x !! c = Some v ->
  row_bytes img padding y !! Z.to_nat (3 * x + Z.of_nat c) = Some v.
Proof.
  intros Hx Hv.
  replace (Z.to_nat (3 * x + Z.of_nat c)) with (Z.to_nat x * 3 + c)%nat by lia.
  apply row_bytes_lookup_pixel; [lia | exact Hv].
Qed.

(** C4: for every well-formed image (width, height >= 1) the encoder
    returns a buffer of 54 + (width*3 + padding) * height bytes, with
    padding = (4 - (width*3) mod 4) mod 4, in which row y starts at offset
    54 + (height-1-y) * (width*3 + padding) (so the bottom row comes first,
    at offset 54), pixel x of the row occupies three bytes holding blue,
    green and red in that order, and the padding bytes after the last pixel
    of the row are zero. *)
Theorem encode_pixel_layout (img : ImageData)
  (Hw : 1 <= width img) (Hh : 1 <= height img) :
  let padding := (4 - (width img * 3) mod 4) mod 4 in
  let rowSize := width img * 3 + padding in
  exists buf,
    createBMP img = Some buf /\
    Z.of_nat (length buf) = 54 + rowSize * height img /\
    forall y, 0 <= y < height img ->
      let rowStart := 54 + (height img - 1 - y) * rowSize in
      (forall x r g b, 0 <= x < width img ->
         pixel_color img (y * width img + x) = (r, g, b) ->
         buf !! Z.to_nat (rowStart + 3 * x) = Some b /\
         buf !! Z.to_nat (rowStart + 3 * x + 1) = Some g /\
         buf !! Z.to_nat (rowStart + 3 * x + 2) = Some r) /\
      (forall p, 0 <= p < padding ->
         buf !! Z.to_nat (rowStart + width img * 3 + p) = Some 0).
Proof.
  intros padding rowSize.
  destruct (createBMP_lookup img Hw Hh) as (buf & Hc & Hl & _ & _ & Hrow).
  fold padding rowSize in Hl, Hrow.
  exists buf. split; [exact Hc |]. split; [exact Hl |].
  intros y Hy rowStart. split.
  - intros x r g b Hx Hcol.
    apply pixel_bytes_color in Hcol; [| nia].
    assert (Hpx : forall c v, [b; g; r] !! c = Some v ->
      row_bytes img padding y !! Z.to_nat (3 * x + Z.of_nat c) = Some v).
    { intros c v Hv. rewrite <- Hcol in Hv.
      apply row_bytes_channel; [lia | exact Hv]. }
    unfold rowStart. repeat split.
    + replace (54 + (height img - 1 - y) * rowSize + 3 * x)
        with (54 + (height img - 1 - y) * rowSize + (3 * x + Z.of_nat 0)) by lia.
      apply Hrow; [lia | lia |]. apply (Hpx 0%nat). reflexivity.
    + replace (54 + (height img - 1 - y) * rowSize + 3 * x + 1)
        with (54 + (height img - 1 - y) * rowSize + (3 * x + Z.of_nat 1)) by lia.
      apply Hrow; [lia | lia |]. apply (Hpx 1%nat). reflexivity.
    + replace (54 + (height img - 1 - y) * rowSize + 3 * x + 2)
        with (54 + (height img - 1 - y) * rowSize + (3 * x + Z.of_nat 2)) by lia.
      apply Hrow; [lia | lia |]. apply (Hpx 2%nat). reflexivity.
  - intros p Hp. unfold rowStart.
    rewrite <- Z.add_assoc. apply Hrow; [lia | lia |].
    apply row_bytes_lookup_pad; lia.
Qed.

Lemma encode_pixel_layout_witness :
  exists buf,
    createBMP {| width := 2; height := 1; data := [0xF800; 0x0000]; name := [] |}
      = Some buf /\
    Z.of_nat (length buf) = 62.
Proof.
  destruct (encode_pixel_layout
              {| width := 2; height := 1; data := [0xF800; 0x0000]; name := [] |}
              ltac:(simpl; lia) ltac:(simpl; lia)) as (buf & Hc & Hl & _).
  exists buf. split; [exact Hc | exact Hl].
Defined.

(** C9: for every image with width, height >= 1 and fewer data values than
    width*height pixels, the encoder does not throw (it returns a buffer),
    and every pixel whose index is not below the data length is written as
    three zero bytes. *)
Theorem encode_missing_pixels_black (img : ImageData)
  (Hw : 1 <= width img) (Hh : 1 <= height img)
  (Hshort : Z.of_nat (length (data img)) < width img * height img) :
  let padding := (4 - (width img * 3) mod 4) mod 4 in
  let rowSize := width img * 3 + padding in
  exists buf,
    createBMP img = Some buf /\
    forall y x, 0 <= y < height img -> 0 <= x < width img ->
      Z.of_nat (length (data img)) <= y * width img + x ->
      let at_pixel := 54 + (height img - 1 - y) * rowSize + 3 * x in
      buf !! Z.to_nat at_pixel = Some 0 /\
      buf !! Z.to_nat (at_pixel + 1) = Some 0 /\
      buf !! Z.to_nat (at_pixel + 2) = Some 0.
Proof.
  intros padding rowSize.
  destruct (createBMP_lookup img Hw Hh) as (buf & Hc & _ & _ & _ & Hrow).
  fold padding rowSize in Hrow.
  exists buf. split; [exact Hc |].
  intros y x Hy Hx Hmiss at_pixel.
  assert (Hblack : pixel_bytes img y x = [0; 0; 0]).
  { unfold pixel_bytes. destruct (decide _) as [Hlt | _]; [lia | reflexivity]. }
  assert (Hpx : forall c : nat, (c < 3)%nat ->
    buf !! Z.to_nat (at_pixel + Z.of_nat c) = Some 0).
  { intros c Hc3. unfold at_pixel. rewrite <- Z.add_assoc.
    apply Hrow; [lia | lia |].
    apply row_bytes_channel; [lia |]. rewrite Hblack.
    destruct c as [|[|[|c]]]; [reflexivity .. | lia]. }
  pose proof (Hpx 0%nat ltac:(lia)) as H0. rewrite Z.add_0_r in H0.
  exact (conj H0 (conj (Hpx 1%nat ltac:(lia)) (Hpx 2%nat ltac:(lia)))).
Qed.

Lemma encode_missing_pixels_black_witness :
  exists buf,
    createBMP {| width := 2; height := 2; data := [0xFFFF; 0xFFFF; 0xFFFF]; name := [] |}
      = Some buf /\
    buf !! 57%nat = Some 0 /\ buf !! 58%nat = Some 0 /\ buf !! 59%nat = Some 0.
Proof.
  destruct (encode_missing_pixels_black
              {| width := 2; height := 2; data := [0xFFFF; 0xFFFF; 0xFFFF]; name := [] |}
              ltac:(simpl; lia) ltac:(simpl; lia) ltac:(simpl; lia))
    as (buf & Hc & Hpix).
  exists buf. split; [exact Hc |].
  apply (Hpix 1 1); simpl; lia.
Defined.

(** ** DimensionResolver *)

Example resolve_64 : resolveDimensions 64 = (8, 8).
Proof. vm_compute. reflexivity. Qed.
Example resolve_20480 : resolveDimensions 20480 = (160, 128).
Proof. vm_compute. reflexivity. Qed.
Example resolve_7 : resolveDimensions 7 = (7, 1).
Proof. vm_compute. reflexivity. Qed.
Example resolve_16384 : resolveDimensions 16384 = (128, 128).
Proof. vm_compute. reflexivity. Qed.
Example resolve_8192 : resolveDimensions 8192 = (64, 128).
Proof. vm_compute. reflexivity. Qed.

Section Unshift.
Variable totalPixels : Z.

Let step (acc : list dimension) (res : Z * Z) : list dimension :=
  if res.1 * res.2 =? totalPixels
  then {| w := Num res.1; h := Num res.2 |} :: acc
  else acc.

Lemma unshift_In (table : list (Z * Z)) : forall acc d,
  In d (fold_left step table acc) <->
  In d acc \/
  exists res, In res table /\ res.1 * res.2 = totalPixels /\
              d = {| w := Num res.1; h := Num res.2 |}.
Proof.
  induction table as [|res table IH]; intros acc d; simpl.
  - split; [auto | intros [H | (res & [] & _)]; exact H].
  - rewrite IH. unfold step.
    destruct (Z.eqb_spec (res.1 * res.2) totalPixels) as [E | E]; simpl.
    + split.
      * intros [[<- | H] | (r & Hr & Hp & ->)]; eauto 8.
      * intros [H | (r & [<- | Hr] & Hp & ->)]; eauto 8.
    + split.
      * intros [H | (r & Hr & Hp & ->)]; eauto 8.
      * intros [H | (r & [<- | Hr] & Hp & ->)]; eauto 8. contradiction.
Qed.

Lemma possibleDimensions_In d :
  In d (possibleDimensions totalPixels) <->
  In d (genericDimensions totalPixels) \/
  exists res, In res commonResolutions /\ res.1 * res.2 = totalPixels /\
              d = {| w := Num res.1; h := Num res.2 |}.
Proof. apply unshift_In. Qed.
End Unshift.

Lemma commonResolutions_positive :
  Forall (fun res : Z * Z => 0 < res.1 /\ 0 < res.2) commonResolutions.
Proof. unfold commonResolutions. repeat constructor; simpl; lia. Qed.

Lemma candidates_nonneg N d :
  0 <= N -> In d (possibleDimensions N) ->
  0 <= Math_floor (w d) /\ 0 <= Math_floor (h d).
Proof.
  intros HN Hd. apply possibleDimensions_In in Hd as [Hg | (res & Hr & _ & ->)].
  - simpl in Hg. destruct Hg as [<- | [<- | [<- | []]]]; simpl;
      pose proof (Z.sqrt_nonneg N); lia.
  - pose proof commonResolutions_positive as Hp.
    rewrite List.Forall_forall in Hp. specialize (Hp res Hr). simpl. lia.
Qed.

(** The single-row candidate always passes the exact-match test, so [find]
    never returns [undefined] and [lastResort] is never used. *)
Lemma find_candidate N :
  exists d, List.find (exact_match N) (possibleDimensions N) = Some d /\
            In d (possibleDimensions N) /\ exact_match N d = true.
Proof.
  destruct (List.find (exact_match N) (possibleDimensions N)) as [d |] eqn:E.
  - exists d. apply List.find_some in E. tauto.
  - exfalso.
    assert (Hrow : In {| w := Num N; h := Num 1 |} (possibleDimensions N)).
    { apply possibleDimensions_In. left. simpl. auto. }
    pose proof (List.find_none _ _ E _ Hrow) as Hf.
    unfold exact_match in Hf. simpl in Hf.
    apply Z.eqb_neq in Hf. lia.
Qed.

Lemma resolveDimensions_candidate N :
  exists d, In d (possibleDimensions N) /\
            Math_floor (w d) * Math_floor (h d) = N /\
            resolveDimensions N = (Math_floor (w d), Math_floor (h d)).
Proof.
  destruct (find_candidate N) as (d & Hf & Hin & Hm).
  exists d. split; [exact Hin |].
  unfold exact_match in Hm. apply Z.eqb_eq in Hm. split; [exact Hm |].
  unfold resolveDimensions. rewrite Hf. cbn [default from_option]. cbv zeta.
  unfold id. rewrite (proj2 (Z.eqb_eq _ _) Hm). reflexivity.
Qed.

(** C6: for every pixel count N >= 1 the resolver returns a width >= 1 and
    a height >= 1 whose product is exactly N; the pair is the (floored)
    first matching candidate, or the forced fallback (N, 1). *)
Theorem resolve_exact_product (N : Z) (HN : 1 <= N) :
  let '(width, height) := resolveDimensions N in
  1 <= width /\ 1 <= height /\ width * height = N /\
  ((exists d, In d (possibleDimensions N) /\ exact_match N d = true /\
              (width, height) = (Math_floor (w d), Math_floor (h d)))
   \/ (width, height) = (N, 1)).
Proof.
  destruct (resolveDimensions_candidate N) as (d & Hin & Hp & ->).
  destruct (candidates_nonneg N d ltac:(lia) Hin) as [Hw Hh].
  repeat split; try nia.
  left. exists d. split; [exact Hin |]. split; [| reflexivity].
  unfold exact_match. apply Z.eqb_eq. exact Hp.
Qed.

Lemma resolve_exact_product_witness :
  1 <= 8 /\ 1 <= 8 /\ 8 * 8 = 64.
Proof.
  pose proof (resolve_exact_product 64 ltac:(lia)) as H.
  change (resolveDimensions 64) with (8, 8) in H.
  destruct H as (H1 & H2 & H3 & _). exact (conj H1 (conj H2 H3)).
Defined.

(** C5 (amended): the resolver prefers the fixed resolution table over the
    generic shapes: whenever some table entry has product N, the result is
    a table entry with product N.  For N = 20480 it returns (160, 128), the
    later of the two matching entries (each match is put in front of the
    earlier ones), and for N = 64, which matches no table entry, it returns
    the square (8, 8). *)
Theorem resolve_prefers_table (N : Z) (res : Z * Z)
  (Hin : In res commonResolutions) (Hprod : res.1 * res.2 = N) :
  (In (resolveDimensions N) commonResolutions /\
   (resolveDimensions N).1 * (resolveDimensions N).2 = N) /\
  resolveDimensions 20480 = (160, 128) /\
  resolveDimensions 64 = (8, 8) /\
  (forall r, In r commonResolutions -> r.1 * r.2 <> 64).
Proof.
  split.
  - subst N. unfold commonResolutions in Hin. simpl in Hin.
    repeat (destruct Hin as [<- | Hin];
            [vm_compute; split; [tauto | reflexivity] |]).
    contradiction.
  - split; [vm_compute; reflexivity |]. split; [vm_compute; reflexivity |].
    intros r Hr. unfold commonResolutions in Hr. simpl in Hr.
    repeat (destruct Hr as [<- | Hr]; [simpl; lia |]). contradiction.
Qed.

Lemma resolve_prefers_table_witness :
  In (resolveDimensions 20480) commonResolutions.
Proof.
  apply (resolve_prefers_table 20480 (128, 160)).
  - unfold commonResolutions. simpl. tauto.
  - reflexivity.
Defined.

(** C5 as written fails: for N = 20480 the result is not (128, 160). *)
Lemma resolve_20480_counterexample :
  ~ (resolveDimensions 20480 = (128, 160) /\ resolveDimensions 64 = (8, 8)).
Proof. intros [H _]. vm_compute in H. discriminate H. Qed.

(** ** Extraction and parsing: examples *)

Example extract_strict :
  extract (str "#include <x.h>
const uint16_t foo[4] = { 0xF800, 0x07E0 }; int y = 0x12;")
  = inr (str "foo", str " 0xF800, 0x07E0 ").
Proof. vm_compute. reflexivity. Qed.

Example extract_braces :
  extract (str "int a[] = { 0x1, 0x22 };") = inr (str "parsed_array", str " 0x1, 0x22 ").
Proof. vm_compute. reflexivity. Qed.

Example extract_loose :
  extract (str "0x1234 stuff 0xABCDE") = inr (str "extracted_hex_values", str "0x1234, 0xABCDE").
Proof. vm_compute. reflexivity. Qed.

Example parse_spec_example :
  parseValues (str "0xF800, 0x07E0, 0x001F, 0xFFFF") = [0xF800; 0x07E0; 0x001F; 0xFFFF].
Proof. vm_compute. reflexivity. Qed.

Example parse_long_token : parseValues (str "0x12345") = [0x1234].
Proof. vm_compute. reflexivity. Qed.

Example parse_glued_tokens : parseValues (str "0x0x12345") = [0].
Proof. vm_compute. reflexivity. Qed.

Example parse_cleaned : parseValues (str "F800; 7e0, zz 12345 1f") = [0xF800; 0x7E0].
Proof. vm_compute. reflexivity. Qed.

Example parseHexFile_no_prefix :
  parseHexFile (str "uint16_t a[]={1234}")
  = inr {| width := 1; height := 1; data := [0x1234]; name := str "a" |}.
Proof. vm_compute. reflexivity. Qed.

Example parseHexFile_no_value :
  parseHexFile (str "uint16_t a[]={zz}") = inl NoValidHexValues.
Proof. vm_compute. reflexivity. Qed.

Example parseHexFile_nothing :
  parseHexFile (str "hello world") = inl NoHexValuesFound.
Proof. vm_compute. reflexivity. Qed.

(** ** The matcher: general facts *)

Section MatcherFacts.
Context {R : Type}.
Implicit Types (k : @cont R) (m : @matcher R) (s : text) (cs : captures).

Lemma repeatK_respects m :
  respects m -> forall fuel min max, respects (repeatK m fuel min max).
Proof.
  intros Hm fuel. induction fuel as [|fuel IH]; intros min max s cs k1 k2 Hk.
  - reflexivity.
  - cbn [repeatK].
    assert (Hd : m s cs
        (fun s' cs' =>
           if Nat.eqb min 0 && Nat.eqb (length s') (length s) then None
           else repeatK m fuel (Nat.pred min) (Nat.pred <$> max) s' cs' k1)
      = m s cs
        (fun s' cs' =>
           if Nat.eqb min 0 && Nat.eqb (length s') (length s) then None
           else repeatK m fuel (Nat.pred min) (Nat.pred <$> max) s' cs' k2)).
    { apply Hm. intros s' cs' Hs'.
      destruct (Nat.eqb min 0 && Nat.eqb (length s') (length s)); [reflexivity |].
      apply IH. intros s'' cs'' Hs''. apply Hk. lia. }
    rewrite Hd, (Hk s cs) by lia. reflexivity.
Qed.

Lemma matchK_respects (r : regex) : respects (@matchK R r).
Proof.
  induction r as [| p | r1 IH1 r2 IH2 | min max r1 IH1 | i r1 IH1];
    intros s cs k1 k2 Hk; cbn [matchK].
  - apply Hk. lia.
  - destruct s as [|c s']; [reflexivity |].
    destruct (p c); [| reflexivity]. apply Hk. simpl. lia.
  - apply IH1. intros s' cs' Hs'. apply IH2.
    intros s'' cs'' Hs''. apply Hk. lia.
  - apply repeatK_respects; assumption.
  - apply IH1. intros s' cs' Hs'. apply Hk. exact Hs'.
Qed.

(** Any fuel above [min + length s] gives the same result: the fuel of
    [matchK] never runs out. *)
Lemma repeatK_fuel m :
  respects m ->
  forall fuel1 fuel2 min max s cs k,
    (min + length s < fuel1)%nat -> (min + length s < fuel2)%nat ->
    repeatK m fuel1 min max s cs k = repeatK m fuel2 min max s cs k.
Proof.
  intros Hm fuel1.
  induction fuel1 as [|fuel1 IH]; intros fuel2 min max s cs k H1 H2; [lia |].
  destruct fuel2 as [|fuel2]; [lia |].
  cbn [repeatK].
  assert (Hd : m s cs
      (fun s' cs' =>
         if Nat.eqb min 0 && Nat.eqb (length s') (length s) then None
         else repeatK m fuel1 (Nat.pred min) (Nat.pred <$> max) s' cs' k)
    = m s cs
      (fun s' cs' =>
         if Nat.eqb min 0 && Nat.eqb (length s') (length s) then None
         else repeatK m fuel2 (Nat.pred min) (Nat.pred <$> max) s' cs' k)).
  { apply Hm. intros s' cs' Hs'.
    destruct (Nat.eqb_spec min 0) as [-> | Hmin]; cbn [andb].
    - destruct (Nat.eqb_spec (length s') (length s)); [reflexivity |].
      apply IH; simpl; lia.
    - apply IH; lia. }
  rewrite Hd. reflexivity.
Qed.

Theorem matchK_fuel (r : regex) min max s cs k fuel :
  (min + length s < fuel)%nat ->
  matchK (Rep min max r) s cs k = repeatK (matchK r) fuel min max s cs k.
Proof.
  intros Hf. cbn [matchK].
  apply repeatK_fuel; [apply matchK_respects | lia | exact Hf].
Qed.

Lemma repeatK_S m fuel min max s cs k :
  repeatK m (S fuel) min max s cs k =
  match max with
  | Some O => k s cs
  | _ =>
      let d : cont := fun s' cs' =>
        if Nat.eqb min 0 && Nat.eqb (length s') (length s) then None
        else repeatK m fuel (Nat.pred min) (Nat.pred <$> max) s' cs' k in
      if Nat.eqb min 0 then
        match m s cs d with
        | Some z => Some z
        | None => k s cs
        end
      else m s cs d
  end.
Proof. reflexivity. Qed.

Lemma repeatK_step m fuel min max s cs k :
  respects m -> (min + length s <= fuel)%nat ->
  repeatK m (S fuel) min max s cs k =
  match max with
  | Some O => k s cs
  | _ =>
      let d : cont := fun s' cs' =>
        if Nat.eqb min 0 && Nat.eqb (length s') (length s) then None
        else repeatK m (S (Nat.pred min + length s')) (Nat.pred min)
               (Nat.pred <$> max) s' cs' k in
      if Nat.eqb min 0 then
        match m s cs d with
        | Some z => Some z
        | None => k s cs
        end
      else m s cs d
  end.
Proof.
  intros Hm Hf. rewrite repeatK_S.
  destruct max as [[|mx] |]; [reflexivity | |]; cbv zeta.
  - match goal with
    | |- (if _ then match m s cs ?d1 with _ => _ end else _)
         = (if _ then match m s cs ?d2 with _ => _ end else _) =>
        assert (Hd : m s cs d1 = m s cs d2)
    end.
    { apply Hm. intros s' cs' Hs'.
      destruct (Nat.eqb_spec min 0) as [-> | Hmin]; cbn [andb].
      - destruct (Nat.eqb_spec (length s') (length s)); [reflexivity |].
        apply repeatK_fuel; [exact Hm | simpl; lia | simpl; lia].
      - apply repeatK_fuel; [exact Hm | lia | lia]. }
    rewrite Hd. reflexivity.
  - match goal with
    | |- (if _ then match m s cs ?d1 with _ => _ end else _)
         = (if _ then match m s cs ?d2 with _ => _ end else _) =>
        assert (Hd : m s cs d1 = m s cs d2)
    end.
    { apply Hm. intros s' cs' Hs'.
      destruct (Nat.eqb_spec min 0) as [-> | Hmin]; cbn [andb].
      - destruct (Nat.eqb_spec (length s') (length s)); [reflexivity |].
        apply repeatK_fuel; [exact Hm | simpl; lia | simpl; lia].
      - apply repeatK_fuel; [exact Hm | lia | lia]. }
    rewrite Hd. reflexivity.
Qed.

(** The quantifier, one iteration at a time. *)
Lemma matchK_Rep (r : regex) min max s cs k :
  matchK (Rep min max r) s cs k =
  match max with
  | Some O => k s cs
  | _ =>
      let d : cont := fun s' cs' =>
        if Nat.eqb min 0 && Nat.eqb (length s') (length s) then None
        else matchK (Rep (Nat.pred min) (Nat.pred <$> max) r) s' cs' k in
      if Nat.eqb min 0 then
        match matchK r s cs d with
        | Some z => Some z
        | None => k s cs
        end
      else matchK r s cs d
  end.
Proof.
  cbn [matchK].
  rewrite repeatK_step by (try apply matchK_respects; lia).
  reflexivity.
Qed.

End MatcherFacts.

(** ** Soundness of the matcher: what was consumed is in the language *)

Section Soundness.
Context {R : Type}.
Implicit Types (k : @cont R) (m : @matcher R) (s : text) (cs : captures).

Lemma repeatK_sound (L : text -> Prop) m :
  sound_for L m ->
  forall fuel min max s cs k z,
    within max min ->
    repeatK m fuel min max s cs k = Some z ->
    exists ws s' cs',
      s = mjoin ws ++ s' /\ Forall L ws /\
      (min <= length ws)%nat /\ within max (length ws) /\
      k s' cs' = Some z.
Proof.
  intros Hm fuel.
  induction fuel as [|fuel IH]; intros min max s cs k z Hwf H; [discriminate |].
  rewrite repeatK_S in H.
  assert (Hstop : k s cs = Some z -> min = 0%nat ->
    exists ws s' cs',
      s = mjoin ws ++ s' /\ Forall L ws /\
      (min <= length ws)%nat /\ within max (length ws) /\ k s' cs' = Some z).
  { intros Hk ->. exists [], s, cs. repeat split; auto. }
  assert (Hiter : max <> Some 0%nat ->
    m s cs
      (fun s' cs' =>
         if Nat.eqb min 0 && Nat.eqb (length s') (length s) then None
         else repeatK m fuel (Nat.pred min) (Nat.pred <$> max) s' cs' k)
    = Some z ->
    exists ws s' cs',
      s = mjoin ws ++ s' /\ Forall L ws /\
      (min <= length ws)%nat /\ within max (length ws) /\ k s' cs' = Some z).
  { intros Hmax0 Hmz.
    apply Hm in Hmz as (u & s1 & cs1 & -> & Hu & Hd).
    destruct (Nat.eqb min 0 && Nat.eqb (length s1) (length (u ++ s1)));
      [discriminate |].
    apply IH in Hd as (ws & s2 & cs2 & -> & Hws & Hmin & Hmax & Hk).
    - exists (u :: ws), s2, cs2.
      split; [simpl; rewrite <- app_assoc; reflexivity |].
      split; [constructor; assumption |].
      split; [simpl; lia |].
      split; [| exact Hk].
      destruct max as [[|mx] |]; simpl in *; [congruence | lia | exact I].
    - destruct max as [[|mx] |]; simpl in *; [congruence | lia | exact I]. }
  destruct max as [[|mx] |].
  - apply Hstop; [exact H |]. simpl in Hwf. lia.
  - cbv zeta in H.
    destruct (Nat.eqb_spec min 0) as [-> | Hmin].
    + destruct (m s cs _) eqn:E.
      * injection H as ->. apply Hiter; [discriminate | first [exact E | reflexivity]].
      * apply Hstop; auto.
    + apply Hiter; [discriminate | exact H].
  - cbv zeta in H.
    destruct (Nat.eqb_spec min 0) as [-> | Hmin].
    + destruct (m s cs _) eqn:E.
      * injection H as ->. apply Hiter; [discriminate | first [exact E | reflexivity]].
      * apply Hstop; auto.
    + apply Hiter; [discriminate | exact H].
Qed.

Lemma matchK_sound (r : regex) :
  well_formed r = true -> sound_for (lang r) (@matchK R r).
Proof.
  induction r as [| p | r1 IH1 r2 IH2 | min max r1 IH1 | i r1 IH1];
    intros Hwf s cs k z H; cbn [matchK] in H; cbn [well_formed] in Hwf.
  - exists [], s, cs. split; [reflexivity | split; [reflexivity | exact H]].
  - destruct s as [|c s']; [discriminate |].
    destruct (p c) eqn:Hp; [| discriminate].
    exists [c], s', cs. simpl. eauto.
  - apply andb_prop in Hwf as [Hwf1 Hwf2].
    apply (IH1 Hwf1) in H as (u & s1 & cs1 & -> & Hu & H).
    apply (IH2 Hwf2) in H as (v & s2 & cs2 & -> & Hv & H).
    exists (u ++ v), s2, cs2. split; [apply app_assoc |].
    split; [| exact H]. simpl. eauto.
  - assert (Hwf1 : well_formed r1 = true /\ within max min).
    { destruct max as [mx |]; simpl.
      - apply andb_prop in Hwf as [Hle Hwf]. apply Nat.leb_le in Hle. auto.
      - auto. }
    destruct Hwf1 as [Hwf1 Hmm].
    apply (repeatK_sound (lang r1) _ (IH1 Hwf1)) in H
      as (ws & s' & cs' & -> & Hws & Hmin & Hmax & H); [| exact Hmm].
    exists (mjoin ws), s', cs'. split; [reflexivity |]. split; [| exact H].
    simpl. exists ws. auto.
  - apply (IH1 Hwf) in H as (u & s1 & cs1 & -> & Hu & H).
    exists u, s1, ((i, take (length (u ++ s1) - length s1) (u ++ s1)) :: cs1).
    auto.
Qed.

End Soundness.

(** ** [match_here], [exec] and [match_all] *)

Lemma match_here_sound r s m rest cs :
  well_formed r = true ->
  match_here r s = Some (m, rest, cs) -> s = m ++ rest /\ lang r m.
Proof.
  intros Hwf H. unfold match_here in H.
  apply (matchK_sound r Hwf) in H as (u & s' & cs' & -> & Hu & H).
  cbv zeta in H. rewrite length_app in H.
  replace (length u + length s' - length s')%nat with (length u) in H by lia.
  rewrite take_app_length, drop_app_length in H.
  injection H as <- <- <-. auto.
Qed.

Lemma exec_unfold r s :
  exec r s =
  match match_here r s with
  | Some m => Some m
  | None => match s with [] => None | _ :: s' => exec r s' end
  end.
Proof. destruct s; reflexivity. Qed.

(** A position is skipped when the pattern does not match there. *)
Lemma exec_skip r pre s :
  (forall p1 p2, pre = p1 ++ p2 -> p2 <> [] -> match_here r (p2 ++ s) = None) ->
  exec r (pre ++ s) = exec r s.
Proof.
  induction pre as [|c pre IH]; intros Hskip; [reflexivity |].
  rewrite exec_unfold.
  rewrite (Hskip [] (c :: pre)) by (reflexivity || discriminate).
  simpl. apply IH. intros p1 p2 -> Hp2.
  apply (Hskip (c :: p1) p2); [reflexivity | exact Hp2].
Qed.

Lemma exec_here r s m :
  match_here r s = Some m -> exec r s = Some m.
Proof. intros H. rewrite exec_unfold, H. reflexivity. Qed.

(** [exec] finds the leftmost position where the pattern matches. *)
Lemma exec_Some r s z :
  exec r s = Some z ->
  exists pre suf,
    s = pre ++ suf /\ match_here r suf = Some z /\
    forall p1 p2, pre = p1 ++ p2 -> p2 <> [] -> match_here r (p2 ++ suf) = None.
Proof.
  induction s as [|c s IH]; rewrite exec_unfold.
  - destruct (match_here r []) eqn:E; [| discriminate].
    intros [= ->]. exists [], []. split; [reflexivity |]. split; [exact E |].
    intros [|] p2 Hp Hp2; [| discriminate]. simpl in Hp. congruence.
  - destruct (match_here r (c :: s)) eqn:E.
    + intros [= ->]. exists [], (c :: s). split; [reflexivity |].
      split; [exact E |].
      intros [|] p2 Hp Hp2; [| discriminate]. simpl in Hp. congruence.
    + intros H. apply IH in H as (pre & suf & -> & Hm & Hskip).
      exists (c :: pre), suf. split; [reflexivity |]. split; [exact Hm |].
      intros [|c' p1] p2 Hp Hp2; simpl in Hp.
      * subst p2. exact E.
      * injection Hp as -> ->. apply (Hskip p1 p2); [reflexivity | exact Hp2].
Qed.

Lemma exec_None r s :
  exec r s = None <-> forall pre suf, s = pre ++ suf -> match_here r suf = None.
Proof.
  split.
  - induction s as [|c s IH]; rewrite exec_unfold; intros H pre suf Hs.
    + destruct (match_here r []) eqn:E; [discriminate |].
      destruct pre, suf; try discriminate. exact E.
    + destruct (match_here r (c :: s)) eqn:E; [discriminate |].
      destruct pre as [|c' pre]; simpl in Hs.
      * subst suf. exact E.
      * injection Hs as -> ->. apply (IH H pre suf). reflexivity.
  - intros H. induction s as [|c s IH]; rewrite exec_unfold.
    + rewrite (H [] []) by reflexivity. reflexivity.
    + rewrite (H [] (c :: s)) by reflexivity. apply IH.
      intros pre suf ->. apply (H (c :: pre) suf). reflexivity.
Qed.

(** The pieces of an [exec] result, for a well-formed pattern. *)
Lemma exec_shape r s m rest cs :
  well_formed r = true ->
  exec r s = Some (m, rest, cs) ->
  exists pre, s = pre ++ m ++ rest /\ lang r m.
Proof.
  intros Hwf H. apply exec_Some in H as (pre & suf & -> & Hm & _).
  apply match_here_sound in Hm as [-> Hl]; [| exact Hwf].
  exists pre. auto.
Qed.

(** The fuel of [match_all] never runs out. *)
Lemma match_all_fuel_enough r :
  well_formed r = true ->
  forall fuel1 fuel2 s,
    (length s < fuel1)%nat -> (length s < fuel2)%nat ->
    match_all_fuel fuel1 r s = match_all_fuel fuel2 r s.
Proof.
  intros Hwf fuel1.
  induction fuel1 as [|fuel1 IH]; intros fuel2 s H1 H2; [lia |].
  destruct fuel2 as [|fuel2]; [lia |].
  cbn [match_all_fuel].
  destruct (exec r s) as [[[m rest] cs] |] eqn:E; [| reflexivity].
  apply (exec_shape r s m rest cs Hwf) in E as (pre & -> & _).
  rewrite !length_app in H1, H2.
  f_equal. destruct m as [|c m]; [destruct rest as [|c rest] |];
    [reflexivity | apply IH; simpl in *; lia | apply IH; simpl in *; lia].
Qed.

Lemma match_all_unfold r s :
  well_formed r = true ->
  match_all r s =
  match exec r s with
  | None => []
  | Some (m, rest, _) =>
      m :: match m, rest with
           | [], [] => []
           | [], _ :: rest' => match_all r rest'
           | _ :: _, _ => match_all r rest
           end
  end.
Proof.
  intros Hwf. unfold match_all at 1. cbn [match_all_fuel].
  destruct (exec r s) as [[[m rest] cs] |] eqn:E; [| reflexivity].
  apply (exec_shape r s m rest cs Hwf) in E as (pre & -> & _).
  f_equal. unfold match_all.
  destruct m as [|c m]; [destruct rest as [|c rest] |];
    [reflexivity | |];
    apply match_all_fuel_enough; try exact Hwf;
    rewrite ?length_app; simpl; lia.
Qed.

(** The fuel of [split] never runs out. *)
Lemma split_fuel_enough r :
  well_formed r = true ->
  forall fuel1 fuel2 piece s,
    (split_measure piece s < fuel1)%nat -> (split_measure piece s < fuel2)%nat ->
    split_fuel fuel1 r piece s = split_fuel fuel2 r piece s.
Proof.
  intros Hwf fuel1.
  induction fuel1 as [|fuel1 IH]; intros fuel2 piece s H1 H2; [lia |].
  destruct fuel2 as [|fuel2]; [lia |].
  cbn [split_fuel]. destruct s as [|c s']; [reflexivity |].
  assert (Hsnoc : split_measure (piece ++ [c]) s' = (2 * length s' + 1)%nat)
    by (unfold split_measure; destruct piece; reflexivity).
  unfold split_measure in H1, H2. cbn [length] in H1, H2.
  destruct (match_here r (c :: s')) as [[[m rest] cs] |] eqn:E.
  - apply match_here_sound in E as [Hs _]; [| exact Hwf].
    assert (Hlen : length (c :: s') = (length m + length rest)%nat)
      by (rewrite Hs, length_app; reflexivity).
    cbn [length] in Hlen.
    destruct m as [|c0 m], piece as [|c1 piece].
    + apply IH; rewrite Hsnoc; lia.
    + f_equal. apply IH; unfold split_measure; simpl in *; lia.
    + f_equal. apply IH; unfold split_measure; simpl in *; lia.
    + f_equal. apply IH; unfold split_measure; simpl in *; lia.
  - apply IH; rewrite Hsnoc; lia.
Qed.

(** ** The matcher on characters, literals and runs *)

Section Steps.
Context {R : Type}.
Implicit Types (k : @cont R) (s : text) (cs : captures).

Lemma matchK_Seq r1 r2 s cs k :
  matchK (r1 +> r2) s cs k = matchK r1 s cs (fun s' cs' => matchK r2 s' cs' k).
Proof. reflexivity. Qed.

Lemma matchK_Grp i r s cs k :
  matchK (Grp i r) s cs k =
  matchK r s cs (fun s' cs' => k s' ((i, take (length s - length s') s) :: cs')).
Proof. reflexivity. Qed.

Lemma matchK_Chr p c s cs k :
  matchK (Chr p) (c :: s) cs k = if p c then k s cs else None.
Proof. reflexivity. Qed.

Lemma matchK_Chr_nil p cs k : matchK (Chr p) [] cs k = None.
Proof. reflexivity. Qed.

Lemma matchK_Chr_stops p s cs k : stops p s -> matchK (Chr p) s cs k = None.
Proof.
  destruct s as [|c s]; [reflexivity |]. simpl. intros ->. reflexivity.
Qed.

Lemma matchK_lit l s cs k : matchK (lit l) (l ++ s) cs k = k s cs.
Proof.
  induction l as [|c l IH]; [reflexivity |].
  cbn [lit app]. rewrite matchK_Seq. unfold chr. rewrite matchK_Chr.
  rewrite Ascii.eqb_refl. exact IH.
Qed.


(** A greedy run takes every character it can when the continuation then
    succeeds. *)
Lemma rep_class_max p a : forall min b cs k z,
  Forall (fun c => p c = true) a -> stops p b -> (min <= length a)%nat ->
  k b cs = Some z ->
  matchK (Rep min None (Chr p)) (a ++ b) cs k = Some z.
Proof.
  induction a as [|c a IH]; intros min b cs k z Ha Hb Hmin Hk.
  - assert (min = 0%nat) as -> by (simpl in Hmin; lia).
    rewrite matchK_Rep. cbv zeta. cbn [Nat.eqb app].
    rewrite matchK_Chr_stops by exact Hb. exact Hk.
  - apply Forall_cons in Ha as [Hc Ha].
    rewrite matchK_Rep. cbv zeta. cbn [app]. rewrite matchK_Chr, Hc.
    replace (Nat.eqb (length (a ++ b)) (length (c :: a ++ b))) with false
      by (symmetry; apply Nat.eqb_neq; simpl; lia).
    rewrite andb_false_r.
    change (Nat.pred <$> None) with (@None nat).
    rewrite (IH (Nat.pred min) b cs k z) by (auto; simpl in Hmin; lia).
    destruct (Nat.eqb min 0); reflexivity.
Qed.

(** A run that needs a character and finds none fails. *)
Lemma rep_class_none p min max s cs k :
  stops p s -> (1 <= min)%nat -> max <> Some 0%nat ->
  matchK (Rep min max (Chr p)) s cs k = None.
Proof.
  intros Hs Hmin Hmax. rewrite matchK_Rep.
  destruct max as [[|mx] |]; [congruence | |]; cbv zeta;
    (destruct (Nat.eqb_spec min 0); [lia |]);
    apply matchK_Chr_stops; exact Hs.
Qed.

(** With a continuation that never fails, a greedy run of a class takes
    [run_length] characters. *)
Lemma rep_class_total p s : forall min max cs k,
  (forall s' cs', k s' cs' <> None) ->
  within max min ->
  matchK (Rep min max (Chr p)) s cs k =
  if (min <=? run_length p max s)%nat
  then k (drop (run_length p max s) s) cs
  else None.
Proof.
  induction s as [|c s IH]; intros min max cs k Hk Hmm; rewrite matchK_Rep.
  - cbn [run_length drop].
    destruct max as [[|mx] |]; simpl in Hmm.
    + assert (min = 0%nat) as -> by lia. reflexivity.
    + cbv zeta. rewrite matchK_Chr_nil. destruct min; reflexivity.
    + cbv zeta. rewrite matchK_Chr_nil. destruct min; reflexivity.
  - cbn [run_length]. rewrite matchK_Chr.
    destruct max as [[|mx] |]; simpl in Hmm.
    + assert (min = 0%nat) as -> by lia. destruct (p c); reflexivity.
    + cbv zeta. destruct (p c) eqn:Hp.
      * replace (Nat.eqb (length s) (length (c :: s))) with false
          by (symmetry; apply Nat.eqb_neq; simpl; lia).
        rewrite andb_false_r. rewrite IH by (auto; simpl; lia).
        change (Nat.pred <$> Some (S mx)) with (Some mx).
        cbn [drop].
        destruct min as [|min]; cbn [Nat.eqb Nat.pred Nat.leb].
        -- destruct (k (drop (run_length p (Some mx) s) s) cs) eqn:E;
             [reflexivity | exfalso; exact (Hk _ _ E)].
        -- reflexivity.
      * destruct min; reflexivity.
    + cbv zeta. destruct (p c) eqn:Hp.
      * replace (Nat.eqb (length s) (length (c :: s))) with false
          by (symmetry; apply Nat.eqb_neq; simpl; lia).
        rewrite andb_false_r. rewrite IH by (auto; simpl; lia).
        change (Nat.pred <$> None) with (@None nat).
        cbn [drop].
        destruct min as [|min]; cbn [Nat.eqb Nat.pred Nat.leb].
        -- destruct (k (drop (run_length p None s) s) cs) eqn:E;
             [reflexivity | exfalso; exact (Hk _ _ E)].
        -- reflexivity.
      * destruct min; reflexivity.
Qed.

End Steps.

(** ** Facts about single characters, by enumeration *)

Lemma ascii_forall (f : ascii -> bool) :
  forallb f all_ascii = true -> forall c, f c = true.
Proof.
  intros H c. rewrite forallb_forall in H. apply H.
  unfold all_ascii. rewrite <- (ascii_nat_embedding c).
  apply in_map, in_seq. pose proof (nat_ascii_bounded c). lia.
Qed.

Lemma class_i_hex c : is_hex c || is_hex (canon c) = is_hex c.
Proof.
  revert c.
  enough (H : forall c, Bool.eqb (is_hex c || is_hex (canon c)) (is_hex c) = true)
    by (intros c; apply Bool.eqb_prop, H).
  apply ascii_forall. vm_compute. reflexivity.
Qed.

Lemma chr_i_zero c : Ascii.eqb (canon c) (canon "0") = Ascii.eqb c "0".
Proof.
  revert c.
  enough (H : forall c,
    Bool.eqb (Ascii.eqb (canon c) (canon "0")) (Ascii.eqb c "0") = true)
    by (intros c; apply Bool.eqb_prop, H).
  apply ascii_forall. vm_compute. reflexivity.
Qed.

Lemma chr_i_x c : Ascii.eqb (canon c) (canon "x") = is_x c.
Proof.
  revert c.
  enough (H : forall c,
    Bool.eqb (Ascii.eqb (canon c) (canon "x")) (is_x c) = true)
    by (intros c; apply Bool.eqb_prop, H).
  apply ascii_forall. vm_compute. reflexivity.
Qed.

(** [p c = true] excludes [q c = true]. *)
Lemma exclusive_by_enumeration (p q : ascii -> bool) :
  forallb (fun c => negb (p c && q c)) all_ascii = true ->
  forall c, p c = true -> q c = false.
Proof.
  intros H c Hp. pose proof (ascii_forall _ H c) as Hc. simpl in Hc.
  rewrite Hp in Hc. destruct (q c); [discriminate | reflexivity].
Qed.

Lemma hex_not_ws c : is_hex c = true -> is_ws c = false.
Proof. apply exclusive_by_enumeration. vm_compute. reflexivity. Qed.

Lemma hex_not_x c : is_hex c = true -> is_x c = false.
Proof. apply exclusive_by_enumeration. vm_compute. reflexivity. Qed.





Lemma hex_digit_range c : is_hex c = true -> 0 <= hex_digit c <= 15.
Proof.
  revert c.
  enough (H : forall c,
    implb (is_hex c) ((0 <=? hex_digit c) && (hex_digit c <=? 15)) = true).
  { intros c Hc. specialize (H c). rewrite Hc in H. simpl in H.
    apply andb_prop in H as [H1 H2]. apply Z.leb_le in H1, H2. lia. }
  apply ascii_forall. vm_compute. reflexivity.
Qed.

(** ** Runs of characters *)

Lemma run_length_ext p q max s :
  (forall c, p c = q c) -> run_length p max s = run_length q max s.
Proof.
  intros Hpq. revert max. induction s as [|c s IH]; intros max; [reflexivity |].
  cbn [run_length]. rewrite Hpq, !IH. reflexivity.
Qed.

Lemma run_length_le p max s : (run_length p max s <= length s)%nat.
Proof.
  revert max. induction s as [|c s IH]; intros max; cbn [run_length length]; [lia |].
  destruct (p c); [| lia].
  destruct max as [[|mx] |];
    [lia | specialize (IH (Some mx)) | specialize (IH None)]; simpl in *; lia.
Qed.

Lemma run_length_within p max s : within max (run_length p max s).
Proof.
  revert max. induction s as [|c s IH]; intros max; cbn [run_length].
  - destruct max; simpl; [lia | exact I].
  - destruct (p c); [| destruct max; simpl; [lia | exact I]].
    destruct max as [[|mx] |]; simpl; [lia | | exact I].
    specialize (IH (Some mx)). simpl in IH. lia.
Qed.

Lemma run_length_take p max s :
  Forall (fun c => p c = true) (take (run_length p max s) s).
Proof.
  revert max. induction s as [|c s IH]; intros max; cbn [run_length]; [constructor |].
  destruct (p c) eqn:Hp; [| constructor].
  destruct max as [[|mx] |]; [constructor | |]; cbn [take]; constructor; auto.
Qed.

Lemma take_while_all {A} (p : A -> bool) (l : list A) :
  Forall (fun c => p c = true) l -> take_while p l = l.
Proof.
  induction 1 as [|c l Hc _ IH]; [reflexivity |].
  simpl. rewrite Hc, IH. reflexivity.
Qed.

(** ** Hexadecimal values *)

Lemma hex_value_snoc ds c : hex_value (ds ++ [c]) = 16 * hex_value ds + hex_digit c.
Proof. unfold hex_value. rewrite fold_left_app. reflexivity. Qed.

Lemma hex_value_bound ds :
  Forall (fun c => is_hex c = true) ds ->
  0 <= hex_value ds < 16 ^ Z.of_nat (length ds).
Proof.
  induction ds as [|c ds IH] using rev_ind; intros H.
  - simpl. unfold hex_value. simpl. lia.
  - apply Forall_app in H as [Hds Hc]. apply Forall_cons in Hc as [Hc _].
    specialize (IH Hds). apply hex_digit_range in Hc.
    rewrite hex_value_snoc, length_app. simpl length.
    replace (Z.of_nat (length ds + 1)) with (Z.succ (Z.of_nat (length ds))) by lia.
    rewrite Z.pow_succ_r by lia. lia.
Qed.

Lemma hex_value_16bit ds :
  Forall (fun c => is_hex c = true) ds -> (length ds <= 4)%nat ->
  0 <= hex_value ds <= 0xFFFF.
Proof.
  intros H Hl. pose proof (hex_value_bound ds H) as Hb.
  assert (16 ^ Z.of_nat (length ds) <= 16 ^ 4)
    by (apply Z.pow_le_mono_r; lia).
  change (16 ^ 4) with 65536 in *. lia.
Qed.

(** ** The two token patterns, read directly off the text *)

Lemma consumed_prefix {A} (pre s : list A) n :
  (n <= length s)%nat ->
  (length (pre ++ s) - length (drop n s) = length pre + n)%nat.
Proof. intros Hn. rewrite length_app, length_drop. lia. Qed.

Lemma match_here_hexPattern s :
  match_here hexPattern s =
  match s with
  | c0 :: c1 :: rest =>
      if Ascii.eqb c0 "0" && is_x c1 then
        let n := run_length is_hex (Some 4%nat) rest in
        if (1 <=? n)%nat
        then Some (c0 :: c1 :: take n rest, drop n rest, [])
        else None
      else None
  | _ => None
  end.
Proof.
  unfold match_here, hexPattern. rewrite matchK_Seq.
  destruct s as [|c0 [|c1 rest]]; [reflexivity | |].
  { unfold chr_i at 1. rewrite matchK_Chr. destruct (Ascii.eqb _ _); reflexivity. }
  unfold chr_i at 1. rewrite matchK_Chr, chr_i_zero.
  destruct (Ascii.eqb c0 "0"); [| reflexivity].
  rewrite matchK_Seq.
  unfold chr_i. rewrite matchK_Chr, chr_i_x.
  destruct (is_x c1); [| reflexivity]. cbn [andb].
  unfold class_i.
  rewrite rep_class_total by (simpl; try lia; intros; discriminate).
  rewrite (run_length_ext _ is_hex) by apply class_i_hex.
  cbv zeta.
  destruct (1 <=? run_length is_hex (Some 4%nat) rest)%nat; [| reflexivity].
  pose proof (run_length_le is_hex (Some 4%nat) rest) as Hle.
  change (c0 :: c1 :: rest) with ([c0; c1] ++ rest) at 1 3.
  rewrite (consumed_prefix [c0; c1] rest _ Hle).
  reflexivity.
Qed.

Lemma match_here_allHexPattern s :
  match_here allHexPattern s =
  match s with
  | c0 :: c1 :: rest =>
      if Ascii.eqb "0" c0 && Ascii.eqb "x" c1 then
        let n := run_length is_hex None rest in
        if (1 <=? n)%nat
        then Some (c0 :: c1 :: take n rest, drop n rest, [])
        else None
      else None
  | _ => None
  end.
Proof.
  unfold match_here, allHexPattern, Plus. cbn [str list_ascii_of_string lit].
  rewrite !matchK_Seq.
  destruct s as [|c0 [|c1 rest]]; [reflexivity | |].
  { unfold chr at 1. rewrite matchK_Chr. destruct (Ascii.eqb _ _); reflexivity. }
  unfold chr at 1. rewrite matchK_Chr.
  destruct (Ascii.eqb "0" c0); [| reflexivity].
  rewrite matchK_Seq.
  unfold chr. rewrite matchK_Chr.
  destruct (Ascii.eqb "x" c1); [| reflexivity]. cbn [andb].
  change (matchK Eps) with (fun (s : text) (cs : captures) (k : @cont match_result) => k s cs).
  cbv beta.
  rewrite rep_class_total by (simpl; try lia; intros; discriminate).
  cbv zeta.
  destruct (1 <=? run_length is_hex None rest)%nat; [| reflexivity].
  pose proof (run_length_le is_hex None rest) as Hle.
  change (c0 :: c1 :: rest) with ([c0; c1] ++ rest) at 1 3.
  rewrite (consumed_prefix [c0; c1] rest _ Hle).
  reflexivity.
Qed.

Lemma hexPattern_wf : well_formed hexPattern = true.
Proof. reflexivity. Qed.

Lemma allHexPattern_wf : well_formed allHexPattern = true.
Proof. reflexivity. Qed.

(** Every element of a global match comes from a match at some position. *)
Lemma match_all_In r (Hwf : well_formed r = true) m :
  forall n s, (length s <= n)%nat -> In m (match_all r s) ->
  exists s' rest cs, match_here r s' = Some (m, rest, cs).
Proof.
  induction n as [|n IH]; intros s Hn; rewrite match_all_unfold by exact Hwf;
    (destruct (exec r s) as [[[m' rest] cs] |] eqn:E; [| intros []]);
    pose proof (exec_shape _ _ _ _ _ Hwf E) as (pre & -> & _);
    pose proof (exec_Some _ _ _ E) as (p & suf & _ & Hm & _);
    rewrite !length_app in Hn.
  - destruct pre, m', rest; try (simpl in Hn; lia).
    intros [<- | []]. eauto.
  - intros [<- | Hin]; [eauto |].
    destruct m' as [|c m']; [destruct rest as [|c rest]; [destruct Hin |] |];
      apply IH in Hin; auto; simpl in *; lia.
Qed.

Lemma hexPattern_match_shape s m rest cs :
  match_here hexPattern s = Some (m, rest, cs) ->
  exists x ds,
    m = "0"%char :: x :: ds /\ is_x x = true /\
    (1 <= length ds <= 4)%nat /\ Forall (fun c => is_hex c = true) ds /\
    s = m ++ rest /\ cs = [].
Proof.
  rewrite match_here_hexPattern.
  destruct s as [|c0 [|c1 s]]; try discriminate.
  destruct (Ascii.eqb_spec c0 "0") as [-> | _]; [| discriminate].
  destruct (is_x c1) eqn:Hx; [| discriminate]. cbn [andb]. cbv zeta.
  destruct (Nat.leb_spec 1 (run_length is_hex (Some 4%nat) s)) as [H1 |];
    [| discriminate].
  intros [= <- <- <-].
  pose proof (run_length_le is_hex (Some 4%nat) s) as Hle.
  pose proof (run_length_within is_hex (Some 4%nat) s) as Hmax. simpl in Hmax.
  exists c1, (take (run_length is_hex (Some 4%nat) s) s).
  split; [reflexivity |]. split; [exact Hx |].
  split; [rewrite length_take; lia |].
  split; [apply run_length_take |].
  split; [| reflexivity].
  cbn [app]. rewrite take_drop. reflexivity.
Qed.

Lemma parseInt16_token x ds :
  is_x x = true -> ds <> [] -> Forall (fun c => is_hex c = true) ds ->
  parseInt16 ("0"%char :: x :: ds) = Some (hex_value ds).
Proof.
  intros Hx Hne Hds. unfold parseInt16.
  change (drop_while is_ws ("0"%char :: x :: ds)) with ("0"%char :: x :: ds).
  cbv iota beta. fold (is_x x). rewrite Hx.
  rewrite take_while_all by exact Hds.
  destruct ds as [|d ds]; [congruence |].
  f_equal. lia.
Qed.

(** The range test of [push_if_valid] never rejects a match of
    [hexPattern]. *)
Lemma hexPattern_match_valid b m :
  In m (match_all hexPattern b) ->
  exists v, parseInt16 m = Some v /\ 0 <= v <= 0xFFFF /\ push_if_valid (parseInt16 m) = [v].
Proof.
  intros Hin.
  apply (match_all_In _ hexPattern_wf m _ b (le_n _)) in Hin as (s' & rest & cs & Hm).
  apply hexPattern_match_shape in Hm as (x & ds & -> & Hx & Hlen & Hds & _).
  exists (hex_value ds).
  assert (Hp : parseInt16 ("0"%char :: x :: ds) = Some (hex_value ds)).
  { apply parseInt16_token; auto. destruct ds; simpl in Hlen; [lia | discriminate]. }
  pose proof (hex_value_16bit ds Hds ltac:(lia)) as Hv.
  split; [exact Hp |]. split; [exact Hv |].
  rewrite Hp. unfold push_if_valid.
  destruct (Z.leb_spec 0 (hex_value ds)); [| lia].
  destruct (Z.leb_spec (hex_value ds) 0xFFFF); [| lia]. reflexivity.
Qed.

Lemma push_if_valid_range hexVal :
  Forall (fun v => 0 <= v <= 0xFFFF) (push_if_valid hexVal).
Proof.
  destruct hexVal as [v |]; simpl; [| constructor].
  destruct (Z.leb_spec 0 v); [| constructor].
  destruct (Z.leb_spec v 65535); repeat constructor; lia.
Qed.

Lemma flat_map_Forall {A B} (P : B -> Prop) (f : A -> list B) l :
  (forall a, Forall P (f a)) -> Forall P (flat_map f l).
Proof.
  intros Hf. induction l as [|a l IH]; simpl; [constructor |].
  apply Forall_app. auto.
Qed.

Lemma parseValues_range b : Forall (fun v => 0 <= v <= 0xFFFF) (parseValues b).
Proof.
  unfold parseValues.
  assert (Hd : Forall (fun v => 0 <= v <= 0xFFFF) (directValues b)).
  { apply flat_map_Forall. intros m. apply push_if_valid_range. }
  destruct (directValues b) eqn:E; [| exact Hd].
  apply flat_map_Forall. intros val. cbv zeta.
  destruct (_ && _); [apply push_if_valid_range | constructor].
Qed.

(** ** Scanning up to a token *)

Lemma glued_suffix p k : glued (p ++ k) = false -> glued k = false.
Proof.
  induction p as [|c p IH]; [auto |].
  cbn [app glued]. intros H. apply orb_false_iff in H as [_ H]. exact (IH H).
Qed.

Lemma glued_open_prefix k : glued k = false -> open_prefix k = false.
Proof.
  destruct k; cbn [glued]; intros H; apply orb_false_iff in H as [H _]; exact H.
Qed.

Lemma hexPattern_match_chars s m rest cs :
  match_here hexPattern s = Some (m, rest, cs) ->
  m <> [] /\ s = m ++ rest /\
  Forall (fun c => is_hex c = true \/ is_x c = true) m.
Proof.
  intros H. apply hexPattern_match_shape in H
    as (x & ds & -> & Hx & _ & Hds & Hs & _).
  split; [discriminate |]. split; [exact Hs |].
  constructor; [left; reflexivity |]. constructor; [right; exact Hx |].
  eapply Forall_impl; [exact Hds |]. simpl. auto.
Qed.

Lemma split_shorter {A} (m rest k B : list A) :
  m ++ rest = k ++ B -> (length m < length k)%nat ->
  exists k', k' <> [] /\ k = m ++ k' /\ rest = k' ++ B.
Proof.
  intros Heq Hlen.
  apply app_eq_inv in Heq as [(k' & -> & ->) | (k' & -> & ->)].
  - rewrite length_app in Hlen. lia.
  - exists k'. split; [| auto]. intros ->. rewrite app_nil_r in Hlen. lia.
Qed.

(** The first match in front of a token that is not glued: either the
    token itself, or a match that ends inside [pre]. *)
Lemma first_match_before_token B tok restB pre :
  match_here hexPattern B = Some (tok, restB, []) ->
  glued pre = false ->
  exec hexPattern (pre ++ B) = Some (tok, restB, []) \/
  exists p m k' cs,
    pre = p ++ m ++ k' /\ m <> [] /\
    exec hexPattern (pre ++ B) = Some (m, k' ++ B, cs).
Proof.
  intros HB Hfree.
  destruct (exec hexPattern (pre ++ B)) as [[[m rest] cs] |] eqn:E;
    [| rewrite exec_None in E; rewrite (E pre B eq_refl) in HB; discriminate].
  apply exec_Some in E as (p & suf & Heq & Hm & Hearlier).
  apply app_eq_inv in Heq as [(k & -> & ->) | (k & -> & ->)].
  - destruct k as [|c k].
    + left. simpl in Hm. rewrite HB in Hm. symmetry. exact Hm.
    + right.
      pose proof (glued_open_prefix _ (glued_suffix p _ Hfree)) as Hopen.
      apply hexPattern_match_shape in Hm
        as (x & ds & -> & Hx & Hlen & Hds & Hsplit & _).
      apply hexPattern_match_shape in HB
        as (xB & dsB & -> & HxB & _ & _ & HsplitB & _).
      symmetry in Hsplit.
      apply app_eq_inv in Hsplit as [(k' & Hmk & HBk) | (k' & Hk & ->)].
      * (* the match reaches the end of [pre] or runs on behind it *)
        destruct k' as [|c' k'].
        { rewrite app_nil_r in Hmk. cbn [app] in HBk.
          exists p, ("0"%char :: x :: ds), [], cs.
          rewrite <- Hmk, app_nil_r. cbn [app].
          split; [reflexivity |]. split; [discriminate |].
          rewrite HBk. reflexivity. }
        exfalso.
        destruct k as [|c1 hs].
        { (* only the 0 lies in [pre]: the token's 0 would be the x *)
          injection Hmk as _ Hxk _. subst c'.
          rewrite HBk in HsplitB. injection HsplitB as Hx0 _.
          subst x. discriminate Hx. }
        injection Hmk as Hc Hc1 Hds'. subst c c1.
        cbn [open_prefix] in Hopen.
        rewrite Ascii.eqb_refl, Hx in Hopen. cbn [andb] in Hopen.
        rewrite Hds' in Hds, Hlen. apply Forall_app in Hds as [Hhs _].
        rewrite length_app in Hlen. cbn [length] in Hlen.
        replace (length hs <=? 3)%nat with true in Hopen
          by (symmetry; apply Nat.leb_le; lia).
        replace (forallb is_hex hs) with true in Hopen; [discriminate |].
        symmetry. apply forallb_forall. intros a Ha.
        rewrite List.Forall_forall in Hhs. exact (Hhs a Ha).
      * exists p, ("0"%char :: x :: ds), k', cs.
        rewrite Hk. split; [reflexivity |]. split; [discriminate | reflexivity].
  - destruct k as [|c k].
    + left. simpl in HB. rewrite HB in Hm. symmetry. exact Hm.
    + exfalso.
      rewrite (Hearlier pre (c :: k) eq_refl ltac:(discriminate)) in HB.
      discriminate.
Qed.

(** When the text in front of a token is not glued to it, the scan of
    [hexPattern] comes to stand on the token, and its match [tok] is among
    the matches. *)
Lemma scan_reaches_token B tok restB :
  match_here hexPattern B = Some (tok, restB, []) ->
  forall n pre, (length pre <= n)%nat -> glued pre = false ->
    In tok (match_all hexPattern (pre ++ B)).
Proof.
  intros HB. induction n as [|n IH]; intros pre Hn Hfree;
    rewrite match_all_unfold by exact hexPattern_wf;
    destruct (first_match_before_token B tok restB pre HB Hfree)
      as [E | (p & m & k' & cs & Hpre & Hm & E)];
    rewrite E; try (left; reflexivity).
  - exfalso. subst pre. rewrite !length_app in Hn.
    destruct m; [congruence | simpl in Hn; lia].
  - right. destruct m as [|c0 m]; [congruence |].
    apply IH.
    + subst pre. rewrite !length_app in Hn. simpl in Hn. lia.
    + apply (glued_suffix (p ++ c0 :: m)).
      rewrite <- app_assoc. rewrite <- Hpre. exact Hfree.
Qed.

(** C10 (amended): a token of [0x] followed by five or more hexadecimal
    digits that is not glued to an earlier prefix (the text in front of it
    does not end with [0x] or [0X] and at most three hexadecimal digits)
    is not discarded by the parser: the first pattern matches [0x] and the
    first four digits, and their value is part of the output.  Every match
    of the first pattern parses to a value in [0, 0xFFFF], so the range
    test never rejects one, and every value returned by the parser is in
    [0, 0xFFFF]. *)
Theorem long_token_truncated (pre post : text) (x d1 d2 d3 d4 d5 : ascii)
  (Hfree : glued pre = false)
  (Hx : is_x x = true)
  (Hdigits : Forall (fun c => is_hex c = true) [d1; d2; d3; d4; d5]) :
  let block := pre ++ "0"%char :: x :: d1 :: d2 :: d3 :: d4 :: d5 :: post in
  In ("0"%char :: x :: [d1; d2; d3; d4]) (match_all hexPattern block) /\
  In (hex_value [d1; d2; d3; d4]) (parseValues block) /\
  (forall b m, In m (match_all hexPattern b) ->
     exists v, parseInt16 m = Some v /\ 0 <= v <= 0xFFFF) /\
  (forall b, Forall (fun v => 0 <= v <= 0xFFFF) (parseValues b)).
Proof.
  intros block.
  apply Forall_cons in Hdigits as [H1 Hdigits].
  apply Forall_cons in Hdigits as [H2 Hdigits].
  apply Forall_cons in Hdigits as [H3 Hdigits].
  apply Forall_cons in Hdigits as [H4 Hdigits].
  apply Forall_cons in Hdigits as [H5 _].
  assert (HB : match_here hexPattern
                 ("0"%char :: x :: d1 :: d2 :: d3 :: d4 :: d5 :: post)
               = Some ("0"%char :: x :: [d1; d2; d3; d4], d5 :: post, [])).
  { rewrite match_here_hexPattern. rewrite Hx.
    cbn [Ascii.eqb Bool.eqb andb run_length fmap option_fmap option_map Nat.pred].
    rewrite H1, H2, H3, H4, H5. reflexivity. }
  assert (Htok : In ("0"%char :: x :: [d1; d2; d3; d4]) (match_all hexPattern block)).
  { unfold block. eapply scan_reaches_token; [exact HB | apply le_n | exact Hfree]. }
  split; [exact Htok |]. split; [| split].
  - assert (Hd : In (hex_value [d1; d2; d3; d4]) (directValues block)).
    { unfold directValues. apply in_flat_map.
      exists ("0"%char :: x :: [d1; d2; d3; d4]). split; [exact Htok |].
      rewrite parseInt16_token by (auto; discriminate).
      pose proof (hex_value_16bit [d1; d2; d3; d4]
                    ltac:(repeat constructor; assumption) ltac:(simpl; lia)) as Hv.
      unfold push_if_valid.
      destruct (Z.leb_spec 0 (hex_value [d1; d2; d3; d4])); [| lia].
      destruct (Z.leb_spec (hex_value [d1; d2; d3; d4]) 0xFFFF); [| lia].
      left. reflexivity. }
    unfold parseValues. destruct (directValues block); [destruct Hd | exact Hd].
  - intros b m Hin.
    destruct (hexPattern_match_valid b m Hin) as (v & Hp & Hv & _). eauto.
  - apply parseValues_range.
Qed.

Lemma long_token_truncated_witness :
  In 0x1234 (parseValues (str "0xFFFFa0x12345, 0x1")).
Proof.
  apply (long_token_truncated (str "0xFFFFa") (str ", 0x1") "x" "1" "2" "3" "4" "5").
  - reflexivity.
  - reflexivity.
  - repeat constructor.
Defined.

(** C10 as written fails: in [0x0x12345] the earlier prefix takes the [0]
    of the token as its digit; the parser returns [[0]], and neither the
    match [0x1234] nor its value 0x1234 appears. *)
Lemma long_token_glued_counterexample :
  ~ (forall pre post : text,
       In (str "0x1234")
          (match_all hexPattern (pre ++ str "0x12345" ++ post)) /\
       In 0x1234 (parseValues (pre ++ str "0x12345" ++ post))).
Proof.
  intros H. destruct (H (str "0x") []) as [_ Hv].
  vm_compute in Hv. destruct Hv as [Hv | []]. discriminate Hv.
Qed.

(** ** Tokens in a text *)

Lemma has_hex_token_inside a b c :
  has_hex_token b -> has_hex_token (a ++ b ++ c).
Proof.
  intros (pre & h & post & -> & Hh).
  exists (a ++ pre), h, (post ++ c). split; [| exact Hh].
  rewrite <- !app_assoc. reflexivity.
Qed.

Lemma run_length_positive p max s :
  (1 <= run_length p max s)%nat ->
  exists h s', s = h :: s' /\ p h = true.
Proof.
  destruct s as [|h s']; cbn [run_length]; [lia |].
  destruct (p h) eqn:Hp; [eauto | lia].
Qed.

Lemma match_here_allHex_token s :
  match_here allHexPattern s <> None <->
  exists h s', s = "0"%char :: "x"%char :: h :: s' /\ is_hex h = true.
Proof.
  rewrite match_here_allHexPattern. split.
  - destruct s as [|c0 [|c1 rest]]; try congruence.
    destruct (Ascii.eqb_spec "0" c0) as [<- |]; [| cbn [andb]; congruence].
    destruct (Ascii.eqb_spec "x" c1) as [<- |]; [| cbn [andb]; congruence].
    cbn [andb]. cbv zeta.
    destruct (Nat.leb_spec 1 (run_length is_hex None rest)) as [H1 |];
      [| congruence].
    intros _. apply run_length_positive in H1 as (h & s' & -> & Hh). eauto.
  - intros (h & s' & -> & Hh).
    cbn [Ascii.eqb Bool.eqb andb run_length]. rewrite Hh. cbn. discriminate.
Qed.

(** The last extraction tier finds nothing exactly on the texts without a
    token. *)
Lemma no_matches_no_token t :
  match_all allHexPattern t = [] <-> ~ has_hex_token t.
Proof.
  rewrite match_all_unfold by exact allHexPattern_wf.
  split.
  - destruct (exec allHexPattern t) as [[[m rest] cs] |] eqn:E; [discriminate |].
    intros _ (pre & h & post & -> & Hh).
    rewrite exec_None in E. specialize (E pre _ eq_refl).
    revert E. apply match_here_allHex_token. eauto.
  - intros Hno.
    destruct (exec allHexPattern t) as [[[m rest] cs] |] eqn:E; [| reflexivity].
    exfalso. apply Hno.
    apply exec_Some in E as (pre & suf & -> & Hm & _).
    assert (Hne : match_here allHexPattern suf <> None) by congruence.
    apply match_here_allHex_token in Hne as (h & s' & -> & Hh).
    exists pre, h, s'. auto.
Qed.

Lemma lang_lit l w : lang (lit l) w -> w = l.
Proof.
  revert w. induction l as [|c l IH]; intros w; cbn [lit lang].
  - auto.
  - intros (u & v & -> & (c' & -> & Hc) & Hv).
    apply Ascii.eqb_eq in Hc. subst c'. rewrite (IH v Hv). reflexivity.
Qed.

Lemma lang_plus_class p w :
  lang (Plus (Chr p)) w -> exists h w', w = h :: w' /\ p h = true.
Proof.
  cbn [Plus lang]. intros (ws & -> & Hws & Hlen & _).
  destruct ws as [|w ws]; [simpl in Hlen; lia |].
  apply Forall_cons in Hws as [(h & -> & Hh) _].
  exists h, (mjoin ws). auto.
Qed.

(** What the brace-block pattern matches contains a token. *)
Lemma fallbackPattern_token m : lang fallbackPattern m -> has_hex_token m.
Proof.
  unfold fallbackPattern. cbn [lang].
  intros (u1 & v1 & -> & _ & u2 & v2 & -> & Hgrp & _).
  apply (has_hex_token_inside u1 u2 v2).
  destruct Hgrp as (a & b & -> & _ & Hplus).
  rewrite <- (app_nil_r b). apply has_hex_token_inside.
  destruct Hplus as (ws & -> & Hws & Hlen & _).
  destruct ws as [|w ws]; [simpl in Hlen; lia |].
  apply Forall_cons in Hws as [Hw _].
  change (mjoin (w :: ws)) with (w ++ mjoin ws).
  apply (has_hex_token_inside [] w (mjoin ws)).
  cbn [lang] in Hw.
  destruct Hw as (a1 & b1 & -> & Hlit & a2 & b2 & -> & Hhex & _).
  apply lang_lit in Hlit. subst a1.
  apply lang_plus_class in Hhex as (h & w' & -> & Hh).
  exists [], h, (w' ++ b2). split; [reflexivity | exact Hh].
Qed.

Lemma has_hex_token_replace c t :
  has_hex_token (replace_char c " " t) -> has_hex_token t.
Proof.
  intros (pre & h & post & Heq & Hh). unfold replace_char in Heq.
  apply map_eq_app in Heq as (t1 & t2 & -> & _ & Heq).
  apply map_eq_cons in Heq as (a & t3 & -> & Ha & Heq).
  apply map_eq_cons in Heq as (b & t4 & -> & Hb & Heq).
  apply map_eq_cons in Heq as (e & t5 & -> & He & _).
  destruct (Ascii.eqb c a); [discriminate |].
  destruct (Ascii.eqb c b); [discriminate |].
  destruct (Ascii.eqb c e); [subst h; discriminate |].
  subst a b e. exists t1, h, t5. auto.
Qed.

Lemma fallbackPattern_wf : well_formed fallbackPattern = true.
Proof. reflexivity. Qed.

Lemma fallback_match_token s z :
  exec fallbackPattern s = Some z -> has_hex_token s.
Proof.
  destruct z as [[m rest] cs]. intros E.
  apply exec_shape in E as (pre & -> & Hl); [| exact fallbackPattern_wf].
  apply has_hex_token_inside. apply fallbackPattern_token. exact Hl.
Qed.

(** ** The pipeline's failures *)

Lemma extract_NoHexValuesFound t :
  extract t = inl NoHexValuesFound <->
  exec arrayPattern t = None /\ ~ has_hex_token t.
Proof.
  unfold extract.
  destruct (exec arrayPattern t) as [[[m1 r1] cs1] |] eqn:E1.
  { split; [discriminate | intros [? _]; discriminate]. }
  destruct (exec fallbackPattern _) as [[[m2 r2] cs2] |] eqn:E2.
  { split; [discriminate |]. intros [_ Hno]. exfalso. apply Hno.
    apply fallback_match_token in E2.
    apply has_hex_token_replace in E2. apply has_hex_token_replace in E2.
    exact E2. }
  destruct (match_all allHexPattern t) as [|m ms] eqn:E3.
  - split; [| reflexivity]. intros _. split; [reflexivity |].
    apply no_matches_no_token. exact E3.
  - split; [discriminate |]. intros [_ Hno].
    apply no_matches_no_token in Hno. congruence.
Qed.

Lemma extract_error t e : extract t = inl e -> e = NoHexValuesFound.
Proof.
  unfold extract.
  destruct (exec arrayPattern t) as [[[m1 r1] cs1] |]; [discriminate |].
  destruct (exec fallbackPattern _) as [[[m2 r2] cs2] |]; [discriminate |].
  destruct (match_all allHexPattern t); [congruence | discriminate].
Qed.

Lemma parseValues_nil block :
  parseValues block = [] <->
  directValues block = [] /\ cleanedValues block = [].
Proof.
  unfold parseValues. destruct (directValues block) eqn:E.
  - split; [auto | intros [_ H]; exact H].
  - split; [discriminate | intros [H _]; discriminate].
Qed.

(** What [parseHexFile] returns, by cases on the two stages. *)
Lemma parseHexFile_cases t :
  match extract t with
  | inl e => parseHexFile t = inl e
  | inr (arrayName, block) =>
      match parseValues block with
      | [] => parseHexFile t = inl NoValidHexValues
      | hexValues =>
          exists img, parseHexFile t = inr img /\
                      name img = arrayName /\ data img = hexValues
      end
  end.
Proof.
  unfold parseHexFile.
  destruct (extract t) as [e | [arrayName block]]; [reflexivity |].
  destruct (parseValues block) as [|v vs]; [reflexivity |].
  destruct (resolveDimensions _) as [wd ht]. eexists. split; [reflexivity |].
  split; reflexivity.
Qed.

(** C7 (amended): the pipeline fails with NoHexValuesFound exactly when
    the strict declaration pattern does not match and the text contains no
    0x-prefixed hexadecimal token; it fails with NoValidHexValues exactly
    when some tier extracted a block and neither parsing strategy yields a
    value from that block, in particular whenever the text contains tokens
    and the extracted block yields nothing; an ImageData is returned only
    together with the complete, non-empty value list, so a failure leaves
    no partial ImageData. *)
Theorem pipeline_failures (t : text) :
  (parseHexFile t = inl NoHexValuesFound <->
   exec arrayPattern t = None /\ ~ has_hex_token t) /\
  (parseHexFile t = inl NoValidHexValues <->
   exists arrayName block,
     extract t = inr (arrayName, block) /\
     directValues block = [] /\ cleanedValues block = []) /\
  (has_hex_token t ->
   (forall arrayName block, extract t = inr (arrayName, block) ->
      directValues block = [] /\ cleanedValues block = []) ->
   parseHexFile t = inl NoValidHexValues) /\
  (forall img, parseHexFile t = inr img ->
     exists block, extract t = inr (name img, block) /\
                   data img = parseValues block /\ data img <> []).
Proof.
  pose proof (parseHexFile_cases t) as Hc.
  pose proof (extract_NoHexValuesFound t) as Hx.
  destruct (extract t) as [e | [arrayName block]] eqn:E.
  - pose proof (extract_error t e E) as ->.
    rewrite Hc. split; [| split; [| split]].
    + split; [intros _; apply Hx; reflexivity | reflexivity].
    + split; [discriminate | intros (a & b & Hab & _); discriminate].
    + intros Htok _. exfalso.
      destruct (proj1 Hx eq_refl) as [_ Hno]. exact (Hno Htok).
    + intros img Himg. discriminate.
  - assert (Hnot : ~ (exec arrayPattern t = None /\ ~ has_hex_token t))
      by (intros H; apply Hx in H; discriminate).
    pose proof (parseValues_nil block) as Hnil.
    destruct (parseValues block) as [|v vs] eqn:Ev.
    + rewrite Hc. split; [| split; [| split]].
      * split; [discriminate | intros H; contradiction].
      * split; [| reflexivity]. intros _. exists arrayName, block.
        split; [reflexivity |]. apply Hnil. reflexivity.
      * reflexivity.
      * intros img Himg. discriminate.
    + destruct Hc as (img & Himg & Hname & Hdata). rewrite Himg.
      split; [| split; [| split]].
      * split; [discriminate | intros H; contradiction].
      * split; [discriminate |].
        intros (a & b & [= <- <-] & Hb). apply Hnil in Hb. discriminate.
      * intros _ Hall. specialize (Hall arrayName block eq_refl).
        apply Hnil in Hall. discriminate.
      * intros img' [= <-]. exists block. rewrite Hname, Hdata.
        split; [reflexivity |]. split; [symmetry; exact Ev | discriminate].
Qed.

(** C7 as written fails: a text without any 0x-prefixed token that holds a
    strict declaration is converted, no NoHexValuesFound is raised. *)
Lemma pipeline_failures_counterexample :
  ~ (forall t, parseHexFile t = inl NoHexValuesFound <-> ~ has_hex_token t).
Proof.
  intros H. specialize (H (str "uint16_t a[]={1234}")).
  assert (Hno : ~ has_hex_token (str "uint16_t a[]={1234}")).
  { apply no_matches_no_token. vm_compute. reflexivity. }
  apply H in Hno. vm_compute in Hno. discriminate Hno.
Qed.

(** ** Matching a declaration, one part of the pattern after the other *)

Section DeclarationSteps.
Context {R : Type}.
Implicit Types (k : @cont R) (s : text) (cs : captures).

Lemma step_lit l r s cs k :
  matchK (lit l +> r) (l ++ s) cs k = matchK r s cs k.
Proof. rewrite matchK_Seq, matchK_lit. reflexivity. Qed.

Lemma step_chr c r s cs k :
  matchK (chr c +> r) (c :: s) cs k = matchK r s cs k.
Proof.
  rewrite matchK_Seq. unfold chr. rewrite matchK_Chr, Ascii.eqb_refl.
  reflexivity.
Qed.






End DeclarationSteps.











(** * Part III: further properties of the component *)

(** ** DimensionResolver: the complete decision *)

Lemma unshift_fold (N : Z) (table : list (Z * Z)) : forall acc,
  fold_left
    (fun acc (res : Z * Z) =>
       if res.1 * res.2 =? N
       then {| w := Num res.1; h := Num res.2 |} :: acc
       else acc) table acc
  = map (fun res : Z * Z => {| w := Num res.1; h := Num res.2 |})
        (List.filter (fun res : Z * Z => res.1 * res.2 =? N) (rev table))
    ++ acc.
Proof.
  induction table as [|res table IH]; intros acc; [reflexivity |].
  cbn [fold_left rev]. rewrite IH, List.filter_app, map_app, <- app_assoc.
  cbn [List.filter]. destruct (res.1 * res.2 =? N); reflexivity.
Qed.

Lemma find_filter_head {A} (p : A -> bool) (l : list A) :
  List.find p l = head (List.filter p l).
Proof.
  induction l as [|a l IH]; [reflexivity |].
  simpl. destruct (p a); [reflexivity | exact IH].
Qed.

Lemma filter_all_true {A} (p : A -> bool) (l : list A) x :
  In x (List.filter p l) -> p x = true.
Proof. intros H. apply List.filter_In in H. tauto. Qed.

(** X1: the resolver's whole decision: the last matching table entry if there
    is one; otherwise the square for a perfect square; otherwise the
    single row (N, 1).  The single column and the last-resort candidate
    are never the result for N > 1. *)
Theorem resolveDimensions_decision (N : Z) (HN : 0 <= N) :
  resolveDimensions N =
  match tableChoice N with
  | Some res => res
  | None =>
      if Z.sqrt N * Z.sqrt N =? N then (Z.sqrt N, Z.sqrt N) else (N, 1)
  end.
Proof.
  unfold tableChoice. rewrite find_filter_head.
  unfold resolveDimensions, possibleDimensions. rewrite unshift_fold.
  destruct (List.filter _ (rev commonResolutions)) as [|res rs] eqn:E.
  - cbn [map app head genericDimensions List.find]. unfold exact_match.
    cbn [w h Math_floor].
    destruct (Z.sqrt N * Z.sqrt N =? N) eqn:Hsq.
    + cbn [default from_option id w h Math_floor]. cbv zeta. rewrite Hsq. reflexivity.
    + replace (N * 1 =? N) with true by (symmetry; apply Z.eqb_eq; lia).
      cbn [default from_option id w h Math_floor]. cbv zeta.
      replace (N * 1 =? N) with true by (symmetry; apply Z.eqb_eq; lia).
      reflexivity.
  - assert (Hres : (res.1 * res.2 =? N) = true).
    { apply (filter_all_true (fun r : Z * Z => r.1 * r.2 =? N)
               (rev commonResolutions) res).
      rewrite E. left. reflexivity. }
    cbn [map app head List.find]. unfold exact_match.
    cbn [w h Math_floor]. rewrite Hres.
    cbn [default from_option id w h Math_floor]. cbv zeta. rewrite Hres.
    destruct res; reflexivity.
Qed.

Lemma resolveDimensions_decision_witness :
  resolveDimensions 8192 = (64, 128) /\ resolveDimensions 49 = (7, 7) /\
  resolveDimensions 50 = (50, 1).
Proof.
  split; [| split].
  - apply (resolveDimensions_decision 8192). lia.
  - apply (resolveDimensions_decision 49). lia.
  - apply (resolveDimensions_decision 50). lia.
Defined.

(** ** [parseHexFile]: the image it returns *)

(** X2: every image returned by [parseHexFile] has positive dimensions whose
    product is the number of values, at least one value, and only 16-bit
    values. *)
Theorem parseHexFile_image_invariant (t : text) (img : ImageData)
  (Himg : parseHexFile t = inr img) :
  1 <= width img /\ 1 <= height img /\
  width img * height img = Z.of_nat (length (data img)) /\
  data img <> [] /\
  Forall (fun v => 0 <= v <= 0xFFFF) (data img).
Proof.
  unfold parseHexFile in Himg.
  destruct (extract t) as [e | [arrayName block]]; [discriminate |].
  pose proof (parseValues_range block) as Hrange.
  destruct (parseValues block) as [|v vs] eqn:Ev; [discriminate |].
  set (N := Z.of_nat (length (v :: vs))) in *.
  destruct (resolveDimensions_candidate N) as (d & Hin & Hp & Hres).
  destruct (candidates_nonneg N d ltac:(lia) Hin) as [Hw Hh].
  rewrite Hres in Himg. injection Himg as <-. cbn [width height data].
  assert (1 <= N) by (unfold N; simpl; lia).
  repeat split; try nia; [discriminate | exact Hrange].
Qed.

Lemma parseHexFile_image_invariant_witness :
  exists img, parseHexFile (str "0x1, 0x2, 0x3, 0x4") = inr img /\
              width img * height img = 4.
Proof.
  eexists. split; [vm_compute; reflexivity |].
  eapply (parseHexFile_image_invariant (str "0x1, 0x2, 0x3, 0x4")).
  vm_compute. reflexivity.
Defined.

(** The pixel bytes of a well-formed image, where the encoder puts them. *)
Lemma createBMP_pixels (img : ImageData) :
  1 <= width img -> 1 <= height img ->
  let padding := (4 - (width img * 3) mod 4) mod 4 in
  let rowSize := width img * 3 + padding in
  exists buf,
    createBMP img = Some buf /\
    Z.of_nat (length buf) = 54 + rowSize * height img /\
    forall y x r g b, 0 <= y < height img -> 0 <= x < width img ->
      pixel_color img (y * width img + x) = (r, g, b) ->
      let at_pixel := 54 + (height img - 1 - y) * rowSize + 3 * x in
      buf !! Z.to_nat at_pixel = Some b /\
      buf !! Z.to_nat (at_pixel + 1) = Some g /\
      buf !! Z.to_nat (at_pixel + 2) = Some r.
Proof.
  intros Hw Hh padding rowSize.
  destruct (createBMP_lookup img Hw Hh) as (buf & Hc & Hl & _ & _ & Hrow).
  fold padding rowSize in Hl, Hrow.
  exists buf. split; [exact Hc |]. split; [exact Hl |].
  intros y x r g b Hy Hx Hcol at_pixel.
  apply pixel_bytes_color in Hcol; [| nia].
  assert (Hpx : forall (c : nat) v, [b; g; r] !! c = Some v ->
    buf !! Z.to_nat (at_pixel + Z.of_nat c) = Some v).
  { intros c v Hv. unfold at_pixel. rewrite <- Z.add_assoc.
    apply Hrow; [lia | lia |].
    apply row_bytes_channel; [lia |]. rewrite Hcol. exact Hv. }
  pose proof (Hpx 0%nat b eq_refl) as H0. rewrite Z.add_0_r in H0.
  exact (conj H0 (conj (Hpx 1%nat g eq_refl) (Hpx 2%nat r eq_refl))).
Qed.

(** X3: parsing and encoding compose: the encoder does not throw on an image
    returned by [parseHexFile], and every pixel of the bitmap is the
    expansion of a parsed value; the black substitute is never used. *)
Theorem parsed_image_encodes (t : text) (img : ImageData)
  (Himg : parseHexFile t = inr img) :
  let rowSize := width img * 3 + (4 - (width img * 3) mod 4) mod 4 in
  exists buf,
    createBMP img = Some buf /\
    Z.of_nat (length buf) = 54 + rowSize * height img /\
    forall y x, 0 <= y < height img -> 0 <= x < width img ->
      exists v r g b,
        data img !! Z.to_nat (y * width img + x) = Some v /\
        rgb565ToRgb v = (r, g, b) /\
        let at_pixel := 54 + (height img - 1 - y) * rowSize + 3 * x in
        buf !! Z.to_nat at_pixel = Some b /\
        buf !! Z.to_nat (at_pixel + 1) = Some g /\
        buf !! Z.to_nat (at_pixel + 2) = Some r.
Proof.
  intros rowSize.
  assert (Hinv : 1 <= width img /\ 1 <= height img /\
                 width img * height img = Z.of_nat (length (data img))).
  { unfold parseHexFile in Himg.
    destruct (extract t) as [e | [arrayName block]]; [discriminate |].
    destruct (parseValues block) as [|v vs] eqn:Ev; [discriminate |].
    set (N := Z.of_nat (length (v :: vs))) in *.
    destruct (resolveDimensions_candidate N) as (d & Hin & Hp & Hres).
    destruct (candidates_nonneg N d ltac:(lia) Hin) as [Hw Hh].
    rewrite Hres in Himg. injection Himg as <-. cbn [width height data].
    assert (1 <= N) by (unfold N; simpl; lia). repeat split; nia. }
  destruct Hinv as (Hw & Hh & Hprod).
  destruct (createBMP_pixels img Hw Hh) as (buf & Hc & Hl & Hpix).
  exists buf. split; [exact Hc |]. split; [exact Hl |].
  intros y x Hy Hx.
  destruct (lookup_lt_is_Some_2 (data img) (Z.to_nat (y * width img + x))
              ltac:(nia)) as [v Hv].
  destruct (rgb565ToRgb v) as [[r g] b] eqn:Hrgb.
  exists v, r, g, b. split; [exact Hv |]. split; [exact Hrgb |].
  apply Hpix; [exact Hy | exact Hx |].
  unfold pixel_color. rewrite Hv. exact Hrgb.
Qed.

(** ** BmpEncoder: when it throws, and the header it writes *)

Lemma view_set_Some buf off bs buf' :
  Buf.view_set buf off bs = Some buf' ->
  length buf' = length buf /\
  off + Z.of_nat (length bs) <= Z.of_nat (length buf).
Proof.
  unfold Buf.view_set. destruct (decide _) as [[H0 H1] |]; [| discriminate].
  intros [= <-]. rewrite length_inserts. auto.
Qed.

(** A store right behind what is already written. *)
Lemma view_set_next pre n k off bs :
  off = Z.of_nat (length pre) -> n = length bs ->
  Buf.view_set (pre ++ replicate (n + k) 0) off bs
  = Some ((pre ++ bs) ++ replicate k 0).
Proof.
  intros -> ->.
  rewrite view_set_ok by (rewrite ?length_app, ?length_replicate; lia).
  f_equal. rewrite Nat2Z.id.
  replace (length pre) with (length pre + 0)%nat at 1 by lia.
  rewrite list_inserts_app_r.
  rewrite replicate_add, list_inserts_0_r by (rewrite length_replicate; reflexivity).
  rewrite app_assoc. reflexivity.
Qed.

Ltac header_next :=
  rewrite view_set_next
    by (rewrite ?length_app, ?bytes_of_length by lia; simpl length; lia);
  cbn [mbind option_bind].

(** The encoder's result, byte for byte, whenever the buffer can hold the
    header. *)
Lemma createBMP_bytes (img : ImageData) :
  let pad := paddingSize_of (width img) in
  let imageSize := (width img * 3 + pad) * height img in
  0 <= imageSize ->
  createBMP img =
  Some (mjoin (header_fields (width img) (height img) imageSize (54 + imageSize))
        ++ list_inserts 0 (pixel_rows img pad) (replicate (Z.to_nat imageSize) 0)).
Proof.
  intros pad imageSize Hsz.
  unfold createBMP. fold pad. fold imageSize.
  unfold Buf.new_ArrayBuffer.
  destruct (decide _) as [_ | Hn]; [| lia].
  cbn [mbind option_bind].
  unfold Buf.setUint16, Buf.setUint32, Buf.setInt32.
  replace (replicate (Z.to_nat (54 + imageSize)) 0)
    with ([] ++ replicate
            (2 + (4 + (4 + (4 + (4 + (4 + (4 + (2 + (2 + (4 + (4 + (4 + (4 +
              (4 + (4 + Z.to_nat imageSize)))))))))))))))%nat 0)
    by (cbn [app]; f_equal; lia).
  do 15 header_next.
  rewrite rows_emit, emit_all_inserts by (auto using pixel_rows_byte; lia).
  cbn [fst]. f_equal.
  match goal with
  | |- list_inserts _ _ (?hdr ++ _) = _ =>
      replace (Z.to_nat 54) with (length hdr + 0)%nat
        by (rewrite ?length_app, ?bytes_of_length by lia; simpl length; lia)
  end.
  rewrite list_inserts_app_r. f_equal.
Qed.

Ltac header_may_fail :=
  match goal with
  | |- context [mbind _ (Buf.view_set ?b ?off ?bs)] =>
      let b' := fresh "buffer" in
      let E := fresh "E" in
      destruct (Buf.view_set b off bs) as [b' |] eqn:E;
      [ apply view_set_Some in E; cbn [mbind option_bind] | reflexivity ]
  end.

(** X4: the encoder throws (a RangeError, from the allocation or from a header
    store) exactly when the image size it computes is negative; otherwise
    it returns 54 + imageSize bytes.  An image with a zero width or height
    gives the bare 54-byte header. *)
Theorem createBMP_throws_iff (img : ImageData) :
  let imageSize :=
    (width img * 3 + paddingSize_of (width img)) * height img in
  (createBMP img = None <-> imageSize < 0) /\
  (forall buf, createBMP img = Some buf ->
     Z.of_nat (length buf) = 54 + imageSize) /\
  (width img = 0 \/ height img = 0 ->
   exists buf, createBMP img = Some buf /\ length buf = 54%nat).
Proof.
  intros imageSize.
  assert (Hok : 0 <= imageSize ->
    exists buf, createBMP img = Some buf /\
                Z.of_nat (length buf) = 54 + imageSize).
  { intros Hsz. eexists. split; [apply createBMP_bytes; exact Hsz |].
    rewrite length_app, length_inserts, length_replicate.
    unfold header_fields. cbn [mjoin list_join].
    rewrite !length_app, !bytes_of_length by lia. simpl length.
    fold imageSize. lia. }
  assert (Hfail : imageSize < 0 -> createBMP img = None).
  { intros Hneg. unfold createBMP. fold imageSize.
    unfold Buf.new_ArrayBuffer.
    destruct (decide (0 <= 54 + imageSize)) as [Hfs | _]; [| reflexivity].
    cbn [mbind option_bind].
    unfold Buf.setUint16, Buf.setUint32, Buf.setInt32.
    do 15 header_may_fail.
    exfalso.
    repeat match goal with
           | H : length _ = length _ /\ _ |- _ => destruct H
           end.
    rewrite bytes_of_length in * by lia.
    rewrite length_replicate in *. lia. }
  split; [split |].
  - intros Hnone. destruct (Z.lt_ge_cases imageSize 0) as [| Hge]; [assumption |].
    destruct (Hok Hge) as (buf & Hc & _). congruence.
  - exact Hfail.
  - split.
    + intros buf Hc. destruct (Z.lt_ge_cases imageSize 0) as [Hlt | Hge].
      * rewrite (Hfail Hlt) in Hc. discriminate.
      * destruct (Hok Hge) as (buf' & Hc' & Hl). congruence.
    + intros Hzero.
      assert (Hz : imageSize = 0).
      { unfold imageSize. destruct Hzero as [Hw | Hh].
        - rewrite Hw. reflexivity.
        - rewrite Hh. lia. }
      destruct (Hok ltac:(lia)) as (buf & Hc & Hl).
      exists buf. split; [exact Hc | lia].
Qed.

(** *** Little-endian fields *)

Lemma bytes_of_succ (n : nat) v :
  Buf.bytes_of (Z.of_nat (S n)) v true
  = v mod 256 :: Buf.bytes_of (Z.of_nat n) (v / 256) true.
Proof.
  unfold Buf.bytes_of. rewrite seqZ_cons by lia.
  cbn [fmap list_fmap]. f_equal.
  - rewrite Z.pow_0_r, Z.div_1_r. reflexivity.
  - replace (Z.pred (Z.of_nat (S n))) with (Z.of_nat n) by lia.
    change (Z.succ 0) with (1 + 0). rewrite <- fmap_add_seqZ, <- list_fmap_compose.
    apply list_fmap_ext. intros i k Hk. apply lookup_seqZ in Hk as [-> _].
    cbn [compose]. rewrite Z.pow_add_r by lia.
    rewrite Z.pow_1_r, Z.div_div by (try apply Z.pow_pos_nonneg; lia).
    reflexivity.
Qed.

(** Decoding an encoded field gives the value back, modulo the width of
    the field. *)
Lemma le_value_bytes_of (n : nat) : forall v,
  le_value (Buf.bytes_of (Z.of_nat n) v true) = v mod 256 ^ Z.of_nat n.
Proof.
  induction n as [|n IH]; intros v.
  - simpl. rewrite Z.mod_1_r. reflexivity.
  - rewrite bytes_of_succ. cbn [le_value]. rewrite IH.
    rewrite Nat2Z.inj_succ, Z.pow_succ_r by lia.
    rewrite Z.rem_mul_r by (try apply Z.pow_nonzero; lia). reflexivity.
Qed.

Lemma read_le_field (fields : list (list Z)) rest (k : nat) f off n :
  fields !! k = Some f ->
  off = length (mjoin (take k fields)) -> n = length f ->
  read_le (mjoin fields ++ rest) off n = le_value f.
Proof.
  intros Hk -> ->. unfold read_le.
  rewrite <- (take_drop_middle fields k f Hk) at 2.
  rewrite join_app. cbn [mjoin list_join].
  rewrite <- !app_assoc, drop_app_length, take_app_length. reflexivity.
Qed.

Ltac read_field k n v :=
  match goal with
  | |- read_le (mjoin ?fs ++ ?rest) _ _ = _ =>
      rewrite (read_le_field fs rest k (Buf.bytes_of n v true));
      [ | reflexivity | reflexivity | reflexivity ]
  end.

(** X5: the header can be read back: the little-endian integers at the
    offsets of the format hold the file size, the pixel data offset 54,
    the info header size 40, the width, the height, one plane, 24 bits per
    pixel, no compression, the image size, 2835 pixels per metre twice and
    two zero colour counts, for every image whose file size fits in 31
    bits. *)
Theorem header_reads_back (img : ImageData)
  (Hw : 1 <= width img) (Hh : 1 <= height img) :
  let imageSize :=
    (width img * 3 + (4 - (width img * 3) mod 4) mod 4) * height img in
  54 + imageSize < 2 ^ 31 ->
  exists buf,
    createBMP img = Some buf /\
    read_le buf 2 4 = 54 + imageSize /\
    read_le buf 6 4 = 0 /\
    read_le buf 10 4 = 54 /\
    read_le buf 14 4 = 40 /\
    read_le buf 18 4 = width img /\
    read_le buf 22 4 = height img /\
    read_le buf 26 2 = 1 /\
    read_le buf 28 2 = 24 /\
    read_le buf 30 4 = 0 /\
    read_le buf 34 4 = imageSize /\
    read_le buf 38 4 = 2835 /\
    read_le buf 42 4 = 2835 /\
    read_le buf 46 4 = 0 /\
    read_le buf 50 4 = 0.
Proof.
  intros imageSize Hfit.
  destruct (paddingSize_of_mod (width img) ltac:(lia)) as [Hpe Hpad].
  assert (Hsz : 0 <= imageSize) by (unfold imageSize; nia).
  assert (Hwfit : width img < 2 ^ 31 /\ height img < 2 ^ 31)
    by (unfold imageSize in *; split; nia).
  pose proof (createBMP_bytes img) as Hc. cbv zeta in Hc.
  rewrite Hpe in Hc. fold imageSize in Hc. specialize (Hc Hsz).
  eexists. split; [exact Hc |].
  assert (H32 : forall v, 0 <= v < 2 ^ 31 ->
            le_value (Buf.bytes_of 4 v true) = v).
  { intros v Hv.
    change (Buf.bytes_of 4 v true) with (Buf.bytes_of (Z.of_nat 4) v true).
    rewrite le_value_bytes_of.
    apply Z.mod_small. change (256 ^ Z.of_nat 4) with (2 ^ 32). lia. }
  assert (H16 : forall v, 0 <= v < 2 ^ 16 ->
            le_value (Buf.bytes_of 2 v true) = v).
  { intros v Hv.
    change (Buf.bytes_of 2 v true) with (Buf.bytes_of (Z.of_nat 2) v true).
    rewrite le_value_bytes_of.
    apply Z.mod_small. change (256 ^ Z.of_nat 2) with (2 ^ 16). exact Hv. }
  repeat match goal with |- _ /\ _ => split end.
  - read_field 1%nat 4 (54 + imageSize). apply H32. lia.
  - read_field 2%nat 4 0. apply H32. lia.
  - read_field 3%nat 4 54. apply H32. lia.
  - read_field 4%nat 4 40. apply H32. lia.
  - read_field 5%nat 4 (width img). apply H32. lia.
  - read_field 6%nat 4 (height img). apply H32. lia.
  - read_field 7%nat 2 1. apply H16. lia.
  - read_field 8%nat 2 24. apply H16. lia.
  - read_field 9%nat 4 0. apply H32. lia.
  - read_field 10%nat 4 imageSize. apply H32. lia.
  - read_field 11%nat 4 2835. apply H32. lia.
  - read_field 12%nat 4 2835. apply H32. lia.
  - read_field 13%nat 4 0. apply H32. lia.
  - read_field 14%nat 4 0. apply H32. lia.
Qed.

Lemma header_reads_back_witness :
  exists buf,
    createBMP {| width := 3; height := 2; data := [0xF800]; name := [] |} = Some buf /\
    read_le buf 2 4 = 78 /\ read_le buf 18 4 = 3 /\ read_le buf 22 4 = 2.
Proof.
  destruct (header_reads_back
              {| width := 3; height := 2; data := [0xF800]; name := [] |}
              ltac:(simpl; lia) ltac:(simpl; lia) ltac:(vm_compute; reflexivity))
    as (buf & Hc & Hsize & _ & _ & _ & Hwidth & Hheight & _).
  exists buf. exact (conj Hc (conj Hsize (conj Hwidth Hheight))).
Defined.

(** ** ColorConverter on arbitrary integers *)

Lemma ToInt32_mod z : JS.ToInt32 z mod 2 ^ 32 = z mod 2 ^ 32.
Proof.
  unfold JS.ToInt32.
  pose proof (Z.div_mod (z + 2 ^ 31) (2 ^ 32) ltac:(lia)) as H.
  replace ((z + 2 ^ 31) mod 2 ^ 32 - 2 ^ 31)
    with (z + (- ((z + 2 ^ 31) / 2 ^ 32)) * 2 ^ 32) by lia.
  apply Z.mod_add. lia.
Qed.

Lemma ToInt32_testbit z i : 0 <= i < 32 -> Z.testbit (JS.ToInt32 z) i = Z.testbit z i.
Proof.
  intros Hi.
  rewrite <- (Z.mod_pow2_bits_low (JS.ToInt32 z) 32 i) by lia.
  rewrite ToInt32_mod. apply Z.mod_pow2_bits_low. lia.
Qed.

Lemma bits_low_only c c' hi lo :
  0 <= lo <= hi ->
  (forall i, lo <= i <= hi -> Z.testbit c i = Z.testbit c' i) ->
  bits c hi lo = bits c' hi lo.
Proof.
  intros Hl Hbits. apply Z.bits_inj'. intros i Hi.
  rewrite !bits_testbit by lia.
  destruct (Z.leb_spec i (hi - lo)); [| reflexivity].
  cbn [andb]. apply Hbits. lia.
Qed.

(** The field extraction of [rgb565ToRgb], for every integer. *)
Lemma field_bits_any c sh k :
  0 <= sh -> 1 <= k <= 30 -> sh + k <= 32 ->
  JS.and (JS.shr c sh) (Z.ones k) = bits c (sh + k - 1) sh.
Proof.
  intros Hsh Hk Hfit. unfold JS.and, JS.shr.
  assert (Hp : 0 < 2 ^ k <= 2 ^ 30)
    by (split; [apply Z.pow_pos_nonneg; lia | apply Z.pow_le_mono_r; lia]).
  rewrite (Z.mod_small sh 32) by lia.
  rewrite (ToInt32_small (Z.ones k)) by (rewrite Z.ones_equiv; lia).
  apply Z.bits_inj'. intros i Hi.
  rewrite Z.land_spec, Z.testbit_ones_nonneg, bits_testbit by lia.
  replace (sh + k - 1 - sh) with (k - 1) by lia.
  destruct (Z.ltb_spec i k) as [Hik | Hik].
  - destruct (Z.leb_spec i (k - 1)); [| lia].
    rewrite andb_true_r. cbn [andb].
    rewrite ToInt32_testbit, Z.shiftr_spec, ToInt32_testbit by lia.
    f_equal. lia.
  - destruct (Z.leb_spec i (k - 1)); [lia |].
    rewrite andb_false_r. reflexivity.
Qed.

Lemma rgb565ToRgb_bits c :
  rgb565ToRgb c =
  (expand5 (bits c 15 11), expand6 (bits c 10 5), expand5 (bits c 4 0)).
Proof.
  rewrite rgb565ToRgb_fields.
  change 0x1F with (Z.ones 5). change 0x3F with (Z.ones 6).
  rewrite (field_bits_any c 11 5), (field_bits_any c 5 6) by lia.
  replace (JS.and c (Z.ones 5)) with (JS.and (JS.shr c 0) (Z.ones 5)).
  - rewrite field_bits_any by lia. reflexivity.
  - unfold JS.and, JS.shr. f_equal.
    rewrite Z.shiftr_0_r.
    apply ToInt32_small.
    unfold JS.ToInt32. pose proof (Z.mod_pos_bound (c + 2 ^ 31) (2 ^ 32)). lia.
Qed.

(** X6: [rgb565ToRgb] never fails and looks at the low 16 bits only: any
    integer gives the triple of its residue modulo 2^16, and the three
    components are bytes. *)
Theorem rgb565ToRgb_any_integer (c : Z) :
  rgb565ToRgb c = rgb565ToRgb (c mod 65536) /\
  (forall r g b, rgb565ToRgb c = (r, g, b) ->
     0 <= r <= 255 /\ 0 <= g <= 255 /\ 0 <= b <= 255).
Proof.
  split; [| intros r g b; apply rgb565ToRgb_bytes].
  rewrite (rgb565ToRgb_bits c), (rgb565ToRgb_bits (c mod 65536)).
  assert (Hlow : forall i, 0 <= i <= 15 ->
            Z.testbit c i = Z.testbit (c mod 65536) i).
  { intros i Hi. change 65536 with (2 ^ 16).
    symmetry. apply Z.mod_pow2_bits_low. lia. }
  rewrite (bits_low_only c (c mod 65536) 15 11) by (try lia; intros; apply Hlow; lia).
  rewrite (bits_low_only c (c mod 65536) 10 5) by (try lia; intros; apply Hlow; lia).
  rewrite (bits_low_only c (c mod 65536) 4 0) by (try lia; intros; apply Hlow; lia).
  reflexivity.
Qed.

(** Dropping the replicated low bits gives the field back. *)
Lemma expand5_top v : 0 <= v < 32 -> expand5 v / 8 = v.
Proof.
  revert v. apply (Z_below_forallb _ (fun v => expand5 v / 8 =? v)).
  - intros z Hz. apply Z.eqb_eq. exact Hz.
  - vm_compute. reflexivity.
Qed.

Lemma expand6_top v : 0 <= v < 64 -> expand6 v / 4 = v.
Proof.
  revert v. apply (Z_below_forallb _ (fun v => expand6 v / 4 =? v)).
  - intros z Hz. apply Z.eqb_eq. exact Hz.
  - vm_compute. reflexivity.
Qed.

Lemma bits_range c hi lo : 0 <= lo <= hi -> 0 <= bits c hi lo < 2 ^ (hi - lo + 1).
Proof.
  intros H. unfold bits. apply Z.mod_pos_bound. apply Z.pow_pos_nonneg; lia.
Qed.

Lemma rgb565_recompose c :
  0 <= c < 65536 ->
  bits c 15 11 * 2048 + bits c 10 5 * 32 + bits c 4 0 = c.
Proof.
  intros Hc. unfold bits.
  change (2 ^ 11) with 2048. change (2 ^ 5) with 32. change (2 ^ 0) with 1.
  change (2 ^ (15 - 11 + 1)) with 32. change (2 ^ (10 - 5 + 1)) with 64.
  change (2 ^ (4 - 0 + 1)) with 32.
  rewrite Z.div_1_r. Z.to_euclidean_division_equations. lia.
Qed.

Lemma rgb565_top_bits d r g b :
  0 <= d < 65536 -> rgb565ToRgb d = (r, g, b) ->
  (r / 8) * 2048 + (g / 4) * 32 + b / 8 = d.
Proof.
  intros Hd. rewrite rgb565ToRgb_bits. intros [= <- <- <-].
  rewrite !expand5_top, expand6_top by (apply (bits_range d); lia).
  apply rgb565_recompose. exact Hd.
Qed.

(** X7: the expansion loses nothing: the top five, six and five bits of the
    three components are the fields of the 16-bit colour, so the colour can
    be read back from the triple, and different colours give different
    triples. *)
Theorem rgb565ToRgb_lossless (c : Z) (Hc : 0 <= c < 65536) :
  (forall r g b, rgb565ToRgb c = (r, g, b) ->
     (r / 8) * 2048 + (g / 4) * 32 + b / 8 = c) /\
  (forall c', 0 <= c' < 65536 -> rgb565ToRgb c' = rgb565ToRgb c -> c' = c).
Proof.
  split; [intros r g b; apply rgb565_top_bits; exact Hc |].
  intros c' Hc' Heq.
  destruct (rgb565ToRgb c) as [[r g] b] eqn:E.
  rewrite <- (rgb565_top_bits c r g b Hc E). symmetry.
  apply (rgb565_top_bits c' r g b Hc' Heq).
Qed.

Lemma rgb565ToRgb_lossless_witness :
  (255 / 8) * 2048 + (0 / 4) * 32 + 255 / 8 = 0xF81F.
Proof.
  apply (proj1 (rgb565ToRgb_lossless 0xF81F ltac:(lia)) 255 0 255).
  vm_compute. reflexivity.
Defined.

(** ** The bitmap holds the data *)

(** X8: encoding loses nothing either: for an image of 16-bit values, the
    value of every pixel that the data covers can be read back from the
    three bytes the encoder wrote for it. *)
Theorem bmp_holds_the_data (img : ImageData)
  (Hw : 1 <= width img) (Hh : 1 <= height img)
  (H16 : Forall (fun v => 0 <= v < 65536) (data img)) :
  let rowSize := width img * 3 + (4 - (width img * 3) mod 4) mod 4 in
  exists buf,
    createBMP img = Some buf /\
    forall y x v, 0 <= y < height img -> 0 <= x < width img ->
      data img !! Z.to_nat (y * width img + x) = Some v ->
      exists blue green red,
        let at_pixel := 54 + (height img - 1 - y) * rowSize + 3 * x in
        buf !! Z.to_nat at_pixel = Some blue /\
        buf !! Z.to_nat (at_pixel + 1) = Some green /\
        buf !! Z.to_nat (at_pixel + 2) = Some red /\
        (red / 8) * 2048 + (green / 4) * 32 + blue / 8 = v.
Proof.
  intros rowSize.
  destruct (createBMP_pixels img Hw Hh) as (buf & Hc & _ & Hpix).
  exists buf. split; [exact Hc |].
  intros y x v Hy Hx Hv.
  destruct (rgb565ToRgb v) as [[r g] b] eqn:Hrgb.
  exists b, g, r.
  assert (Hcol : pixel_color img (y * width img + x) = (r, g, b))
    by (unfold pixel_color; rewrite Hv; exact Hrgb).
  destruct (Hpix y x r g b Hy Hx Hcol) as (H0 & H1 & H2).
  split; [exact H0 |]. split; [exact H1 |]. split; [exact H2 |].
  apply rgb565_top_bits; [| exact Hrgb].
  rewrite List.Forall_forall in H16. apply H16.
  apply list_elem_of_In. eapply list_elem_of_lookup_2. exact Hv.
Qed.

Lemma bmp_holds_the_data_witness :
  exists buf,
    createBMP {| width := 2; height := 1; data := [0xF800; 0x1234]; name := [] |}
    = Some buf.
Proof.
  destruct (bmp_holds_the_data
              {| width := 2; height := 1; data := [0xF800; 0x1234]; name := [] |}
              ltac:(simpl; lia) ltac:(simpl; lia)
              ltac:(simpl; repeat constructor; lia)) as (buf & Hc & _).
  exists buf. exact Hc.
Defined.

Lemma parsed_image_encodes_witness :
  exists buf img,
    parseHexFile (str "0x1, 0x2, 0x3, 0x4") = inr img /\
    createBMP img = Some buf.
Proof.
  assert (Himg : parseHexFile (str "0x1, 0x2, 0x3, 0x4")
                 = inr {| width := 2; height := 2; data := [1; 2; 3; 4];
                          name := str "extracted_hex_values" |})
    by (vm_compute; reflexivity).
  destruct (parsed_image_encodes _ _ Himg) as (buf & Hc & _).
  exists buf. eexists. split; [exact Himg | exact Hc].
Defined.

(** ** The preview raster *)

Example createPreview_2x1 :
  createPreview {| width := 2; height := 1; data := [0xF800; 0x001F]; name := [] |}
  = Some [255; 0; 0; 255; 0; 0; 255; 255].
Proof. vm_compute. reflexivity. Qed.

Example createPreview_zero_width :
  createPreview {| width := 0; height := 1; data := []; name := [] |} = None.
Proof. reflexivity. Qed.

Lemma preview_pixel_length v : length (preview_pixel v) = 4%nat.
Proof. unfold preview_pixel. destruct (rgb565ToRgb v) as [[r g] b]. reflexivity. Qed.

Lemma foldl_seqZ_S {A} (f : A -> Z -> A) a (n : nat) :
  foldl f a (seqZ 0 (Z.of_nat (S n))) = f (foldl f a (seqZ 0 (Z.of_nat n))) (Z.of_nat n).
Proof. rewrite seqZ_S, foldl_app. reflexivity. Qed.

(** One loop step stores the four bytes of its value as a block. *)
Lemma preview_step_inserts data raster (i : nat) v :
  data !! i = Some v ->
  preview_step data raster (Z.of_nat i)
  = list_inserts (4 * i) (preview_pixel v) raster.
Proof.
  intros Hv. unfold preview_step, preview_pixel, js_index.
  destruct (decide _) as [_ | Hn]; [| lia].
  rewrite Nat2Z.id, Hv. cbn [default from_option]. change (id v) with v.
  destruct (rgb565ToRgb v) as [[r g] b] eqn:E.
  apply rgb565ToRgb_bytes in E as (Hr & Hg & Hb).
  unfold Canvas.store.
  repeat (destruct (decide _) as [_ | Hn]; [| lia]).
  replace (Z.max 0 (Z.min 255 r)) with r by lia.
  replace (Z.max 0 (Z.min 255 g)) with g by lia.
  replace (Z.max 0 (Z.min 255 b)) with b by lia.
  change (Z.max 0 (Z.min 255 255)) with 255.
  replace (Z.to_nat (Z.of_nat i * 4)) with (4 * i)%nat by lia.
  replace (Z.to_nat (Z.of_nat i * 4 + 1)) with (S (4 * i)) by lia.
  replace (Z.to_nat (Z.of_nat i * 4 + 2)) with (S (S (4 * i))) by lia.
  replace (Z.to_nat (Z.of_nat i * 4 + 3)) with (S (S (S (4 * i)))) by lia.
  cbn [list_inserts].
  rewrite (list_insert_insert_ne _ (S (S (S (4 * i)))) (S (S (4 * i)))) by lia.
  rewrite (list_insert_insert_ne _ (S (S (S (4 * i)))) (S (4 * i))) by lia.
  rewrite (list_insert_insert_ne _ (S (S (S (4 * i)))) (4 * i)) by lia.
  rewrite (list_insert_insert_ne _ (S (S (4 * i))) (S (4 * i))) by lia.
  rewrite (list_insert_insert_ne _ (S (S (4 * i))) (4 * i)) by lia.
  rewrite (list_insert_insert_ne _ (S (4 * i)) (4 * i)) by lia.
  reflexivity.
Qed.

(** The loop stores the bytes of all values as one block at the start of
    the raster. *)
Lemma preview_loop data raster : forall n : nat,
  (n <= length data)%nat ->
  foldl (preview_step data) raster (seqZ 0 (Z.of_nat n))
  = list_inserts 0 (mjoin (preview_pixel <$> take n data)) raster.
Proof.
  induction n as [|n IH]; intros Hn; [reflexivity |].
  rewrite foldl_seqZ_S, IH by lia.
  destruct (lookup_lt_is_Some_2 data n ltac:(lia)) as [v Hv].
  rewrite (preview_step_inserts data _ n v Hv).
  rewrite (take_S_r data n v Hv), fmap_app, join_app.
  cbn [fmap list_fmap mjoin list_join]. rewrite app_nil_r.
  rewrite list_inserts_app_l. f_equal.
  rewrite length_join, (sum_list_fmap_same 4).
  - rewrite length_fmap, length_take. lia.
  - apply Forall_fmap, Forall_forall. intros x _. apply preview_pixel_length.
Qed.

Lemma preview_raster (img : ImageData) :
  width img <> 0 -> height img <> 0 ->
  createPreview img =
  Some (list_inserts 0 (mjoin (preview_pixel <$> data img))
          (replicate (Z.to_nat (4 * Z.abs (width img) * Z.abs (height img))) 0)).
Proof.
  intros Hw Hh. unfold createPreview, Canvas.createImageData.
  destruct (decide _) as [[? | ?] | _]; [contradiction | contradiction |].
  cbn [mbind option_bind]. rewrite preview_loop by lia.
  rewrite firstn_all. reflexivity.
Qed.

Lemma preview_lookup data raster (i c : nat) v x :
  data !! i = Some v -> preview_pixel v !! c = Some x ->
  (4 * i + c < length raster)%nat ->
  list_inserts 0 (mjoin (preview_pixel <$> data)) raster !! (4 * i + c)%nat
  = Some x.
Proof.
  intros Hv Hx Hlen.
  assert (Hc : (c < 4)%nat)
    by (apply lookup_lt_Some in Hx; rewrite preview_pixel_length in Hx; exact Hx).
  assert (Hj : mjoin (preview_pixel <$> data) !! (i * 4 + c)%nat = Some x).
  { apply join_lookup_Some_same_length'.
    - apply Forall_fmap, Forall_forall. intros y _. apply preview_pixel_length.
    - exact Hc.
    - exists (preview_pixel v). split; [| exact Hx].
      rewrite list_lookup_fmap, Hv. reflexivity. }
  pose proof (lookup_lt_Some _ _ _ Hj) as Hjl.
  rewrite list_lookup_inserts by lia.
  rewrite <- Hj. f_equal. lia.
Qed.

(** X9: the raster of an image with positive dimensions has four bytes per
    pixel; pixel number i holds red, green, blue of [data[i]] and alpha 255
    when the data and the raster both reach i, and stays transparent black
    when the data is too short; values beyond the raster are dropped
    without an error. *)
Theorem createPreview_raster (img : ImageData)
  (Hw : 1 <= width img) (Hh : 1 <= height img) :
  exists raster,
    createPreview img = Some raster /\
    Z.of_nat (length raster) = 4 * width img * height img /\
    (forall (i : nat) v r g b,
       Z.of_nat i < width img * height img ->
       data img !! i = Some v -> rgb565ToRgb v = (r, g, b) ->
       raster !! (4 * i)%nat = Some r /\ raster !! (4 * i + 1)%nat = Some g /\
       raster !! (4 * i + 2)%nat = Some b /\ raster !! (4 * i + 3)%nat = Some 255) /\
    (forall (i c : nat),
       Z.of_nat i < width img * height img -> (length (data img) <= i)%nat ->
       (c < 4)%nat -> raster !! (4 * i + c)%nat = Some 0).
Proof.
  eexists. split; [apply preview_raster; lia |].
  rewrite !Z.abs_eq by lia.
  assert (Hlen : Z.of_nat (Z.to_nat (4 * width img * height img))
                 = 4 * width img * height img) by nia.
  split; [rewrite length_inserts, length_replicate; exact Hlen |]. split.
  - intros i v r g b Hi Hv Hrgb.
    assert (Hpx : forall (c : nat) x, [r; g; b; 255] !! c = Some x ->
      list_inserts 0 (mjoin (preview_pixel <$> data img))
        (replicate (Z.to_nat (4 * width img * height img)) 0) !! (4 * i + c)%nat
      = Some x).
    { intros c x Hx.
      assert (Hc : (c < 4)%nat) by (apply lookup_lt_Some in Hx; exact Hx).
      apply (preview_lookup _ _ i c v x Hv).
      - unfold preview_pixel. rewrite Hrgb. exact Hx.
      - rewrite length_replicate. nia. }
    pose proof (Hpx 0%nat r eq_refl) as H0. rewrite Nat.add_0_r in H0.
    exact (conj H0 (conj (Hpx 1%nat g eq_refl)
                     (conj (Hpx 2%nat b eq_refl) (Hpx 3%nat 255 eq_refl)))).
  - intros i c Hi Hshort Hc.
    rewrite list_lookup_inserts_ge.
    + apply lookup_replicate_2. nia.
    + rewrite length_join, (sum_list_fmap_same 4).
      * rewrite length_fmap. lia.
      * apply Forall_fmap, Forall_forall. intros y _. apply preview_pixel_length.
Qed.

Lemma createPreview_raster_witness :
  exists raster,
    createPreview {| width := 2; height := 1; data := [0xF800]; name := [] |}
    = Some raster /\ length raster = 8%nat.
Proof.
  destruct (createPreview_raster
              {| width := 2; height := 1; data := [0xF800]; name := [] |}
              ltac:(simpl; lia) ltac:(simpl; lia)) as (raster & Hc & Hl & _).
  exists raster. split; [exact Hc |]. simpl in Hl. lia.
Defined.

(** *** Preview and bitmap show the same picture *)

Lemma preview_colors (img : ImageData) (i : nat) r g b :
  1 <= width img -> 1 <= height img ->
  Z.of_nat i < width img * height img ->
  pixel_color img (Z.of_nat i) = (r, g, b) ->
  exists raster,
    createPreview img = Some raster /\
    raster !! (4 * i)%nat = Some r /\ raster !! (4 * i + 1)%nat = Some g /\
    raster !! (4 * i + 2)%nat = Some b.
Proof.
  intros Hw Hh Hi Hcol. eexists. split; [apply preview_raster; lia |].
  rewrite !Z.abs_eq by lia.
  unfold pixel_color in Hcol. rewrite Nat2Z.id in Hcol.
  destruct (data img !! i) as [v |] eqn:Hv.
  - assert (Hpx : forall (c : nat) x, [r; g; b; 255] !! c = Some x ->
      list_inserts 0 (mjoin (preview_pixel <$> data img))
        (replicate (Z.to_nat (4 * width img * height img)) 0) !! (4 * i + c)%nat
      = Some x).
    { intros c x Hx.
      assert (Hc : (c < 4)%nat) by (apply lookup_lt_Some in Hx; exact Hx).
      apply (preview_lookup _ _ i c v x Hv).
      - unfold preview_pixel. rewrite Hcol. exact Hx.
      - rewrite length_replicate. nia. }
    pose proof (Hpx 0%nat r eq_refl) as H0. rewrite Nat.add_0_r in H0.
    exact (conj H0 (conj (Hpx 1%nat g eq_refl) (Hpx 2%nat b eq_refl))).
  - injection Hcol as <- <- <-.
    apply lookup_ge_None_1 in Hv.
    assert (Hz : forall c : nat, (c < 4)%nat ->
      list_inserts 0 (mjoin (preview_pixel <$> data img))
        (replicate (Z.to_nat (4 * width img * height img)) 0) !! (4 * i + c)%nat
      = Some 0).
    { intros c Hc. rewrite list_lookup_inserts_ge.
      - apply lookup_replicate_2. nia.
      - rewrite length_join, (sum_list_fmap_same 4).
        + rewrite length_fmap. lia.
        + apply Forall_fmap, Forall_forall. intros y _. apply preview_pixel_length. }
    pose proof (Hz 0%nat ltac:(lia)) as H0. rewrite Nat.add_0_r in H0.
    exact (conj H0 (conj (Hz 1%nat ltac:(lia)) (Hz 2%nat ltac:(lia)))).
Qed.

(** X10: the preview and the bitmap made from one image show the same picture:
    the pixel in column x of row y (from the top) has the same red, green
    and blue in the raster, at [4 * (y * width + x)], as in the bitmap,
    where it lies in row [height - 1 - y] of the file in the order blue,
    green, red. *)
Theorem preview_matches_bitmap (img : ImageData)
  (Hw : 1 <= width img) (Hh : 1 <= height img) :
  let rowSize := width img * 3 + (4 - (width img * 3) mod 4) mod 4 in
  exists raster buf,
    createPreview img = Some raster /\ createBMP img = Some buf /\
    forall y x, 0 <= y < height img -> 0 <= x < width img ->
      let p := Z.to_nat (4 * (y * width img + x)) in
      let q := Z.to_nat (54 + (height img - 1 - y) * rowSize + 3 * x) in
      is_Some (raster !! p) /\
      raster !! p = buf !! (q + 2)%nat /\
      raster !! (p + 1)%nat = buf !! (q + 1)%nat /\
      raster !! (p + 2)%nat = buf !! q.
Proof.
  intros rowSize.
  destruct (createBMP_pixels img Hw Hh) as (buf & Hc & _ & Hpix).
  eexists _, buf. split; [apply preview_raster; lia |]. split; [exact Hc |].
  intros y x Hy Hx p q.
  destruct (pixel_color img (y * width img + x)) as [[r g] b] eqn:Hcol.
  destruct (Hpix y x r g b Hy Hx Hcol) as (Hb & Hg & Hr).
  destruct (preview_colors img (Z.to_nat (y * width img + x)) r g b Hw Hh)
    as (raster & Hp' & Rr & Rg & Rb).
  { nia. }
  { rewrite Z2Nat.id by nia. exact Hcol. }
  rewrite preview_raster in Hp' by lia. injection Hp' as <-.
  fold rowSize in Hb, Hg, Hr.
  assert (Hi : 0 <= y * width img + x) by nia.
  assert (Hq : 0 <= 54 + (height img - 1 - y) * rowSize + 3 * x).
  { pose proof (Z.mod_pos_bound (4 - (width img * 3) mod 4) 4 ltac:(lia)).
    unfold rowSize. nia. }
  replace p with (4 * Z.to_nat (y * width img + x))%nat by (unfold p; lia).
  replace (q + 2)%nat
    with (Z.to_nat (54 + (height img - 1 - y) * rowSize + 3 * x + 2))
    by (unfold q; lia).
  replace (q + 1)%nat
    with (Z.to_nat (54 + (height img - 1 - y) * rowSize + 3 * x + 1))
    by (unfold q; lia).
  unfold q. rewrite Rr, Rg, Rb, Hb, Hg, Hr. auto.
Qed.

Lemma preview_matches_bitmap_witness :
  exists raster buf,
    createPreview {| width := 2; height := 2; data := [0xF800; 0x07E0; 0x001F];
                     name := [] |} = Some raster /\
    createBMP {| width := 2; height := 2; data := [0xF800; 0x07E0; 0x001F];
                 name := [] |} = Some buf /\
    raster !! 4%nat = buf !! 67%nat.
Proof.
  destruct (preview_matches_bitmap
              {| width := 2; height := 2; data := [0xF800; 0x07E0; 0x001F];
                 name := [] |} ltac:(simpl; lia) ltac:(simpl; lia))
    as (raster & buf & Hp & Hc & Hpix).
  exists raster, buf. split; [exact Hp |]. split; [exact Hc |].
  destruct (Hpix 0 1 ltac:(simpl; lia) ltac:(simpl; lia)) as (_ & H & _).
  exact H.
Defined.

(** ** The example's display data *)

Lemma copy_loop (parsed : list Z) (base : list Z) : forall n : nat,
  (n <= length parsed)%nat ->
  foldl (fun dp i => <[Z.to_nat i := default 0 (js_index parsed i)]> dp) base
        (seqZ 0 (Z.of_nat n))
  = list_inserts 0 (take n parsed) base.
Proof.
  induction n as [|n IH]; intros Hn; [reflexivity |].
  rewrite foldl_seqZ_S, IH by lia.
  destruct (lookup_lt_is_Some_2 parsed n ltac:(lia)) as [v Hv].
  unfold js_index. destruct (decide _) as [_ | Hneg]; [| lia].
  rewrite Nat2Z.id, Hv. cbn [default from_option]. change (id v) with v.
  rewrite (take_S_r parsed n v Hv), list_inserts_app_l.
  cbn [list_inserts]. rewrite length_take, Nat.add_0_r.
  replace (n `min` length parsed)%nat with n by lia. reflexivity.
Qed.

Lemma inserts_lookup_default (l : list Z) (m i : nat) :
  (length l <= m)%nat -> (i < m)%nat ->
  list_inserts 0 l (replicate m 0) !! i = Some (default 0 (l !! i)).
Proof.
  intros Hl Hi. destruct (l !! i) as [v |] eqn:Hv.
  - pose proof (lookup_lt_Some _ _ _ Hv).
    rewrite list_lookup_inserts by (rewrite ?length_replicate; lia).
    rewrite Nat.sub_0_r, Hv. reflexivity.
  - apply lookup_ge_None_1 in Hv.
    rewrite list_lookup_inserts_ge by lia.
    apply lookup_replicate_2. exact Hi.
Qed.

(** X11: what the page shows for the example is always a 240 by 240 image of
    exactly 57600 values, whatever was parsed: value number i is the
    parsed one where there is one, and 0 beyond the parsed data; parsed
    values from number 57600 on are not shown.  The name is kept. *)
Theorem displayData_shape (parsedData : ImageData) :
  let shown := displayData parsedData in
  width shown = 240 /\ height shown = 240 /\
  name shown = name parsedData /\
  Z.of_nat (length (data shown)) = width shown * height shown /\
  forall i : nat, Z.of_nat i < 57600 ->
    data shown !! i = Some (default 0 (data parsedData !! i)).
Proof.
  cbv zeta. unfold displayData. cbn [width height name data].
  assert (Hm : exists m : nat, Z.of_nat m = 57600 /\ Z.to_nat 57600 = m)
    by (exists (Z.to_nat 57600); split; [apply Z2Nat.id; lia | reflexivity]).
  destruct Hm as (m & Hm & Em).
  assert (Hd : displayPixels (data parsedData)
          = list_inserts 0
              (take (Z.to_nat (Z.min (Z.of_nat (length (data parsedData))) 57600))
                 (data parsedData))
              (replicate m 0)).
  { unfold displayPixels. rewrite Em.
    rewrite <- (Z2Nat.id (Z.min _ 57600)) at 1 by lia.
    apply copy_loop. lia. }
  rewrite Hd. clear Hd Em. repeat split.
  - rewrite length_inserts, length_replicate. exact Hm.
  - intros i Hi.
    rewrite inserts_lookup_default by (rewrite ?length_take; lia).
    f_equal. f_equal.
    destruct (decide (i < length (data parsedData))%nat) as [Hlt | Hge].
    + apply lookup_take_lt. lia.
    + rewrite lookup_take_ge by lia. symmetry. apply lookup_ge_None_2. lia.
Qed.

(** ** HexValueParser on token lists *)

Lemma exec_nil_hexPattern : exec hexPattern [] = None.
Proof. reflexivity. Qed.

Lemma skip_zero_free pre s :
  zero_free pre -> exec hexPattern (pre ++ s) = exec hexPattern s.
Proof.
  intros Hz. apply exec_skip. intros p1 p2 -> Hne.
  apply Forall_app in Hz as [_ Hz].
  destruct p2 as [|c p2]; [contradiction |].
  apply Forall_cons in Hz as [Hc _].
  rewrite match_here_hexPattern. cbn [app].
  destruct (p2 ++ s) as [|c1 rest]; [reflexivity |].
  apply negb_true_iff in Hc. rewrite Hc. reflexivity.
Qed.

Lemma skip_digits ds s :
  all_of is_hex ds -> stops is_x s ->
  exec hexPattern (ds ++ s) = exec hexPattern s.
Proof.
  intros Hd Hs. apply exec_skip. intros p1 p2 -> Hne.
  apply Forall_app in Hd as [_ Hd].
  destruct p2 as [|c p2]; [contradiction |].
  apply Forall_cons in Hd as [_ Hd].
  rewrite match_here_hexPattern. cbn [app].
  destruct p2 as [|c1 p2]; cbn [app].
  - destruct s as [|c1 rest]; [reflexivity |].
    simpl in Hs. rewrite Hs, andb_false_r. reflexivity.
  - apply Forall_cons in Hd as [Hc1 _].
    rewrite (hex_not_x c1 Hc1), andb_false_r. reflexivity.
Qed.

Lemma run_length_app p a b : forall n,
  all_of p a -> stops p b ->
  run_length p (Some n) (a ++ b) = Nat.min n (length a).
Proof.
  induction a as [|c a IH]; intros n Ha Hb.
  - cbn [app length]. rewrite Nat.min_0_r.
    destruct b as [|c b]; [reflexivity |].
    simpl in Hb. cbn [run_length]. rewrite Hb. reflexivity.
  - apply Forall_cons in Ha as [Hc Ha].
    cbn [app run_length length]. rewrite Hc.
    destruct n as [|n]; [reflexivity |].
    cbn [fmap option_fmap option_map Nat.pred]. rewrite IH by assumption.
    reflexivity.
Qed.

(** A token in front of a text that does not go on with a digit is
    matched up to its fourth digit. *)
Lemma token_here ds rest :
  digits ds -> stops is_hex rest ->
  match_here hexPattern (token ds ++ rest)
  = Some (token (take 4 ds), drop 4 ds ++ rest, []).
Proof.
  intros [Hne Hd] Hs. rewrite match_here_hexPattern.
  unfold token. cbn [app]. change (Ascii.eqb "0" "0" && is_x "x") with true.
  cbv iota zeta. rewrite run_length_app by assumption.
  destruct ds as [|d ds]; [contradiction |].
  destruct (Nat.leb_spec 1 (Nat.min 4 (length (d :: ds)))) as [_ | Hlt];
    [| simpl in Hlt; lia].
  destruct (Nat.min_spec 4 (length (d :: ds))) as [[Hlt ->] | [Hge ->]].
  - rewrite take_app_le, drop_app_le by lia. reflexivity.
  - rewrite take_app_length, drop_app_length.
    rewrite take_ge, drop_ge by lia. reflexivity.
Qed.

Lemma gap_stops_hex g : gap g -> stops is_hex g.
Proof.
  intros [Hs _]. destruct g as [|c g]; [exact I |].
  simpl in *. apply orb_false_iff in Hs as [Hh _]. exact Hh.
Qed.

Lemma gap_stops_x g : gap g -> stops is_x g.
Proof.
  intros [Hs _]. destruct g as [|c g]; [exact I |].
  simpl in *. apply orb_false_iff in Hs as [_ Hx]. exact Hx.
Qed.

Lemma gap_app g s : g <> [] -> gap g -> stops (fun c => is_hex c || is_x c) (g ++ s).
Proof. intros Hne [Hs _]. destruct g; [contradiction | exact Hs]. Qed.

(** The text after a token of a list does not go on with a digit or x. *)
Lemma items_stop (more : list (text * text)) trail :
  Forall (fun item : text * text => item.1 <> [] /\ gap item.1 /\ digits item.2) more ->
  gap trail ->
  stops (fun c => is_hex c || is_x c)
        (flat_map (fun item : text * text => item.1 ++ token item.2) more ++ trail).
Proof.
  intros Hmore Htrail. destruct more as [|[sep ds] more]; [exact (proj1 Htrail) |].
  apply Forall_cons in Hmore as [(Hne & Hgap & _) _].
  cbn [flat_map fst snd]. rewrite <- !app_assoc. apply gap_app; assumption.
Qed.

Lemma stops_or_l p q s : stops (fun c => p c || q c) s -> stops p s.
Proof.
  destruct s as [|c s]; [auto |]. simpl. intros H.
  apply orb_false_iff in H as [H _]. exact H.
Qed.

Lemma stops_or_r p q s : stops (fun c => p c || q c) s -> stops q s.
Proof.
  destruct s as [|c s]; [auto |]. simpl. intros H.
  apply orb_false_iff in H as [_ H]. exact H.
Qed.

Lemma all_hex_drop n ds : all_of is_hex ds -> all_of is_hex (drop n ds).
Proof. apply Forall_drop. Qed.

(** The matches after the digits left over from a token. *)
Lemma scan_items trail (Htrail : gap trail) : forall (more : list (text * text)) left,
  all_of is_hex left ->
  Forall (fun item : text * text => item.1 <> [] /\ gap item.1 /\ digits item.2) more ->
  match_all hexPattern
    (left ++ flat_map (fun item : text * text => item.1 ++ token item.2) more ++ trail)
  = map (fun item : text * text => token (take 4 item.2)) more.
Proof.
  induction more as [|[sep ds] more IH]; intros left Hleft Hmore;
    rewrite match_all_unfold by exact hexPattern_wf.
  - cbn [flat_map app map].
    rewrite skip_digits by (auto using gap_stops_x).
    rewrite <- (app_nil_r trail), skip_zero_free by exact (proj2 Htrail).
    reflexivity.
  - pose proof Hmore as Hall.
    apply Forall_cons in Hmore as [(Hne & Hgap & Hds) Hmore].
    cbn [flat_map fst snd map]. rewrite <- !app_assoc.
    rewrite skip_digits;
      [| exact Hleft | apply (stops_or_r is_hex), gap_app; assumption].
    rewrite skip_zero_free by exact (proj2 Hgap).
    rewrite (exec_here _ _ _ (token_here ds _ Hds
               (stops_or_l _ is_x _ (items_stop more trail Hmore Htrail)))).
    unfold token at 1. f_equal.
    apply IH; [apply all_hex_drop, Hds | exact Hmore].
Qed.

Lemma match_all_token_list lead ds0 more trail :
  zero_free lead -> digits ds0 ->
  Forall (fun item : text * text => item.1 <> [] /\ gap item.1 /\ digits item.2) more ->
  gap trail ->
  match_all hexPattern (lead ++ token_list ds0 more ++ trail)
  = map (fun ds => token (take 4 ds)) (ds0 :: map snd more).
Proof.
  intros Hlead Hds Hmore Htrail.
  rewrite match_all_unfold by exact hexPattern_wf.
  unfold token_list. rewrite <- !app_assoc.
  rewrite skip_zero_free by exact Hlead.
  rewrite (exec_here _ _ _ (token_here ds0 _ Hds
             (stops_or_l _ is_x _ (items_stop more trail Hmore Htrail)))).
  unfold token at 1. cbn [map]. f_equal.
  rewrite map_map. apply scan_items; [exact Htrail | apply all_hex_drop, Hds | exact Hmore].
Qed.

Lemma token_values (dss : list text) :
  Forall digits dss ->
  flat_map (fun m => push_if_valid (parseInt16 m))
           (map (fun ds => token (take 4 ds)) dss)
  = map (fun ds => hex_value (take 4 ds)) dss.
Proof.
  induction 1 as [|ds dss [Hne Hd] _ IH]; [reflexivity |].
  cbn [map flat_map]. rewrite IH.
  assert (Hd4 : Forall (fun c => is_hex c = true) (take 4 ds))
    by (apply Forall_take, Hd).
  unfold token. rewrite parseInt16_token; [| reflexivity | | exact Hd4].
  - pose proof (hex_value_16bit (take 4 ds) Hd4
                  ltac:(rewrite length_take; lia)) as Hv.
    unfold push_if_valid.
    destruct (Z.leb_spec 0 (hex_value (take 4 ds))); [| lia].
    destruct (Z.leb_spec (hex_value (take 4 ds)) 0xFFFF); [| lia].
    reflexivity.
  - destruct ds; [contradiction | discriminate].
Qed.

(** X12: a list of tokens parses to the values of its tokens, in order: for a
    text made of a lead without the character 0, tokens of [0x] and
    hexadecimal digits, a non-empty gap between two tokens and a gap at the
    end, the parser returns one value per token, the value of its first
    four digits; the second strategy is not consulted. *)
Theorem parseValues_token_list (lead trail ds0 : text) (more : list (text * text))
  (Hlead : zero_free lead) (Hds0 : digits ds0)
  (Hmore : Forall (fun item : text * text =>
                     item.1 <> [] /\ gap item.1 /\ digits item.2) more)
  (Htrail : gap trail) :
  let block := lead ++ token_list ds0 more ++ trail in
  directValues block = map (fun ds => hex_value (take 4 ds)) (ds0 :: map snd more) /\
  parseValues block = directValues block /\
  length (parseValues block) = S (length more).
Proof.
  cbv zeta.
  assert (Hd : directValues (lead ++ token_list ds0 more ++ trail)
             = map (fun ds => hex_value (take 4 ds)) (ds0 :: map snd more)).
  { unfold directValues. rewrite match_all_token_list by assumption.
    apply token_values. constructor; [exact Hds0 |].
    apply Forall_fmap. eapply Forall_impl; [exact Hmore |].
    intros item (_ & _ & H). exact H. }
  assert (Hp : parseValues (lead ++ token_list ds0 more ++ trail)
             = directValues (lead ++ token_list ds0 more ++ trail)).
  { unfold parseValues. rewrite Hd. reflexivity. }
  split; [exact Hd |]. split; [exact Hp |].
  rewrite Hp, Hd. cbn [map length]. rewrite !length_map. reflexivity.
Qed.

Lemma parseValues_token_list_witness :
  parseValues (str "{ 0xF800, 0x07e0,  0x1F };") = [0xF800; 0x07E0; 0x1F].
Proof.
  destruct (parseValues_token_list (str "{ ") (str " };") (str "F800")
              [(str ", ", str "07e0"); (str ",  ", str "1F")]) as (Hd & Hp & _).
  - unfold zero_free, all_of. repeat constructor.
  - split; [discriminate | repeat constructor].
  - repeat constructor; discriminate.
  - split; [reflexivity | repeat constructor].
  - exact (eq_trans Hp Hd).
Defined.

(** ** Text without a brace: the last extraction tier *)

Lemma lang_seq_r c r1 r2 :
  (forall v, lang r2 v -> In c v) -> forall w, lang (r1 +> r2) w -> In c w.
Proof.
  intros H w (u & v & -> & _ & Hv). apply in_or_app. right. exact (H v Hv).
Qed.

Lemma lang_chr_seq c r w : lang (chr c +> r) w -> In c w.
Proof.
  intros (u & v & -> & (c' & -> & Hc) & _).
  apply Ascii.eqb_eq in Hc. subst c'. left. reflexivity.
Qed.

Lemma arrayPattern_brace m : lang arrayPattern m -> In "{"%char m.
Proof.
  revert m. unfold arrayPattern. do 13 apply lang_seq_r.
  intros v. apply lang_chr_seq.
Qed.

Lemma fallbackPattern_brace m : lang fallbackPattern m -> In "{"%char m.
Proof. apply lang_chr_seq. Qed.

Lemma exec_needs c r s :
  well_formed r = true -> (forall m, lang r m -> In c m) ->
  ~ In c s -> exec r s = None.
Proof.
  intros Hwf Hc Hno.
  destruct (exec r s) as [[[m rest] cs] |] eqn:E; [| reflexivity].
  destruct (exec_shape r s m rest cs Hwf E) as (pre & -> & Hm).
  exfalso. apply Hno. apply in_or_app. right. apply in_or_app. left.
  exact (Hc m Hm).
Qed.

Lemma replace_char_keeps c a s :
  a <> " "%char -> In a (replace_char c " " s) -> In a s.
Proof.
  intros Ha Hin. unfold replace_char in Hin.
  apply in_map_iff in Hin as (b & Hb & Hin).
  destruct (Ascii.eqb c b); [congruence | subst b; exact Hin].
Qed.

(** The matches of the token pattern are tokens. *)
Lemma allHex_match_token s m :
  In m (match_all allHexPattern s) -> exists ds, m = token ds /\ digits ds.
Proof.
  intros Hin.
  destruct (match_all_In allHexPattern allHexPattern_wf m (length s) s
              (Nat.le_refl _) Hin) as (s' & rest & cs & Hm).
  rewrite match_here_allHexPattern in Hm.
  destruct s' as [|c0 [|c1 rest0]]; try discriminate.
  destruct (Ascii.eqb "0" c0) eqn:E0; [| discriminate].
  destruct (Ascii.eqb "x" c1) eqn:E1; [| discriminate].
  apply Ascii.eqb_eq in E0, E1. subst c0 c1. cbn [andb] in Hm. cbv zeta in Hm.
  destruct (Nat.leb_spec 1 (run_length is_hex None rest0)) as [Hn | _];
    [| discriminate].
  injection Hm as <- _ _.
  exists (take (run_length is_hex None rest0) rest0). split; [reflexivity |].
  split; [| apply run_length_take].
  destruct (run_length_positive _ _ _ Hn) as (h & s'' & -> & _).
  destruct (run_length is_hex None (h :: s'')); [lia | discriminate].
Qed.

Lemma allHex_matches s :
  exists dss, match_all allHexPattern s = map token dss /\ Forall digits dss.
Proof.
  assert (H : Forall (fun m => exists ds, m = token ds /\ digits ds)
                (match_all allHexPattern s))
    by (apply List.Forall_forall; intros m Hm; apply (allHex_match_token s m), Hm).
  induction H as [|m ms (ds & -> & Hds) _ (dss & -> & Hdss)].
  - exists []. split; [reflexivity | constructor].
  - exists (ds :: dss). split; [reflexivity | constructor; assumption].
Qed.

Lemma join_tokens (dss : list text) : forall ds0,
  join (str ", ") (map token (ds0 :: dss))
  = token_list ds0 (map (fun ds => (str ", ", ds)) dss).
Proof.
  unfold token_list.
  induction dss as [|ds dss IH]; intros ds0.
  - cbn [map join flat_map]. rewrite app_nil_r. reflexivity.
  - change (join (str ", ") (map token (ds0 :: ds :: dss)))
      with (token ds0 ++ str ", " ++ join (str ", ") (map token (ds :: dss))).
    rewrite IH. cbn [map flat_map fst snd]. rewrite <- !app_assoc. reflexivity.
Qed.

Lemma comma_items (dss : list text) :
  Forall digits dss ->
  Forall (fun item : text * text => item.1 <> [] /\ gap item.1 /\ digits item.2)
         (map (fun ds => (str ", ", ds)) dss).
Proof.
  intros H. apply Forall_fmap. eapply Forall_impl; [exact H |].
  intros ds Hds. cbn [fst snd]. split; [discriminate |]. split; [| exact Hds].
  split; [reflexivity | repeat constructor].
Qed.

(** X13: a text without an opening brace is converted by the last extraction
    tier alone: when it has no token the conversion fails with
    NoHexValuesFound; otherwise it succeeds under the name
    [extracted_hex_values] with exactly one value per token, in the order
    of the tokens, each the value of the first four digits of its token,
    and with the dimensions resolved for the number of tokens. *)
Theorem braceless_text_conversion (content : text)
  (Hno : ~ In "{"%char content) :
  match match_all allHexPattern content with
  | [] => parseHexFile content = inl NoHexValuesFound
  | toks =>
      exists img,
        parseHexFile content = inr img /\
        name img = str "extracted_hex_values" /\
        data img = map (fun m => hex_value (take 4 (drop 2 m))) toks /\
        (width img, height img) = resolveDimensions (Z.of_nat (length toks))
  end.
Proof.
  assert (H1 : exec arrayPattern content = None)
    by exact (exec_needs "{"%char arrayPattern content eq_refl arrayPattern_brace Hno).
  assert (H2 : exec fallbackPattern
                 (replace_char "013" " " (replace_char "010" " " content)) = None).
  { apply (exec_needs "{"%char); [exact fallbackPattern_wf | exact fallbackPattern_brace |].
    intros Hin. apply Hno.
    do 2 (apply replace_char_keeps in Hin; [| discriminate]). exact Hin. }
  unfold parseHexFile, extract. rewrite H1, H2.
  destruct (allHex_matches content) as (dss & -> & Hdss).
  destruct dss as [|ds0 dss]; [reflexivity |].
  apply Forall_cons in Hdss as [Hds0 Hdss].
  assert (Hv : parseValues (join (str ", ") (map token (ds0 :: dss)))
             = map (fun ds => hex_value (take 4 ds)) (ds0 :: dss)).
  { unfold parseValues, directValues. rewrite join_tokens.
    rewrite <- (app_nil_r (token_list _ _)).
    rewrite <- (app_nil_l (token_list _ _ ++ [])).
    rewrite match_all_token_list;
      [| constructor | exact Hds0 | apply comma_items, Hdss
       | split; [exact I | constructor] ].
    rewrite map_map. cbn [fst snd]. rewrite map_id.
    rewrite token_values by (constructor; assumption). reflexivity. }
  cbn [map] in Hv |- *. cbv iota beta. rewrite Hv.
  destruct (resolveDimensions _) as [wd ht] eqn:Hres.
  eexists. split; [reflexivity |]. cbn [name data width height].
  split; [reflexivity |]. split.
  - cbn [map]. rewrite map_map. reflexivity.
  - rewrite <- Hres. cbn [length]. rewrite !length_map. reflexivity.
Qed.

Lemma braceless_text_conversion_witness :
  exists img,
    parseHexFile (str "0x12345 0xff") = inr img /\
    data img = [0x1234; 0xFF].
Proof.
  assert (Hno : ~ In "{"%char (str "0x12345 0xff"))
    by (simpl; intuition discriminate).
  assert (E : match_all allHexPattern (str "0x12345 0xff")
              = [str "0x12345"; str "0xff"]) by (vm_compute; reflexivity).
  pose proof (braceless_text_conversion _ Hno) as H.
  rewrite E in H. destruct H as (img & Hp & _ & Hd & _).
  exists img. split; [exact Hp | exact Hd].
Defined.

(** ** HexValueParser on bare words: the second strategy *)

Lemma separatorPattern_class : separatorPattern = Plus (Chr is_sep).
Proof. reflexivity. Qed.

Lemma separatorPattern_wf : well_formed separatorPattern = true.
Proof. reflexivity. Qed.

Lemma hex_not_sep c : is_hex c = true -> is_sep c = false.
Proof. apply exclusive_by_enumeration. vm_compute. reflexivity. Qed.

Lemma sep_not_x c : is_sep c = true -> is_x c = false.
Proof. apply exclusive_by_enumeration. vm_compute. reflexivity. Qed.

Lemma sep_here_none s :
  stops is_sep s -> match_here separatorPattern s = None.
Proof.
  intros Hs. rewrite separatorPattern_class. unfold match_here, Plus.
  apply rep_class_none; [exact Hs | lia | discriminate].
Qed.

Lemma sep_here_some sep rest :
  sep <> [] -> all_of is_sep sep -> stops is_sep rest ->
  match_here separatorPattern (sep ++ rest) = Some (sep, rest, []).
Proof.
  intros Hne Hsep Hrest. rewrite separatorPattern_class. unfold match_here, Plus.
  apply rep_class_max; [exact Hsep | exact Hrest | destruct sep; [contradiction | simpl; lia] |].
  cbv zeta. rewrite length_app.
  replace (length sep + length rest - length rest)%nat with (length sep) by lia.
  rewrite take_app_length, drop_app_length. reflexivity.
Qed.

Lemma split_from_nil piece : split_from piece [] = [piece].
Proof. reflexivity. Qed.

Lemma split_is_split_from s : split separatorPattern s = split_from [] s.
Proof.
  destruct s as [|c s]; [reflexivity |].
  unfold split, split_from, split_measure.
  replace (2 * length (c :: s) + 1)%nat with (S (2 * length (c :: s) + 0)) by lia.
  reflexivity.
Qed.

Lemma split_from_nonsep piece c s :
  is_sep c = false -> split_from piece (c :: s) = split_from (piece ++ [c]) s.
Proof.
  intros Hc. unfold split_from at 1. cbn [split_fuel].
  rewrite sep_here_none by exact Hc.
  apply split_fuel_enough; [exact separatorPattern_wf | |];
    unfold split_measure; cbn [length]; destruct piece; simpl; lia.
Qed.

Lemma split_from_sep piece sep rest :
  sep <> [] -> all_of is_sep sep -> stops is_sep rest ->
  split_from piece (sep ++ rest) = piece :: split_from [] rest.
Proof.
  intros Hne Hsep Hrest. unfold split_from at 1.
  pose proof (sep_here_some sep rest Hne Hsep Hrest) as Hm.
  destruct sep as [|c sep]; [contradiction |].
  cbn [app] in Hm |- *. cbn [split_fuel]. rewrite Hm.
  f_equal. apply split_fuel_enough; [exact separatorPattern_wf | |];
    unfold split_measure; cbn [length]; rewrite ?length_app; lia.
Qed.

Lemma split_from_word w : forall piece s,
  all_of is_hex w -> split_from piece (w ++ s) = split_from (piece ++ w) s.
Proof.
  induction w as [|c w IH]; intros piece s Hw.
  - rewrite app_nil_r. reflexivity.
  - apply Forall_cons in Hw as [Hc Hw]. cbn [app].
    rewrite split_from_nonsep by (apply hex_not_sep, Hc).
    rewrite IH by exact Hw. rewrite <- app_assoc. reflexivity.
Qed.

Lemma word_stops w s : digits w -> stops is_sep (w ++ s).
Proof.
  intros [Hne Hw]. destruct w as [|c w]; [contradiction |].
  apply Forall_cons in Hw as [Hc _]. exact (hex_not_sep c Hc).
Qed.

(** The pieces of a list of words. *)
Lemma split_words trail (Htrail : all_of is_sep trail) :
  forall (more : list (text * text)) w,
  digits w ->
  Forall (fun item : text * text =>
            item.1 <> [] /\ all_of is_sep item.1 /\ digits item.2) more ->
  split_from [] (word_list w more ++ trail)
  = w :: map snd more ++ match trail with [] => [] | _ :: _ => [[]] end.
Proof.
  unfold word_list.
  induction more as [|[sep w'] more IH]; intros w Hw Hmore.
  - cbn [flat_map map app]. rewrite app_nil_r.
    rewrite split_from_word by exact (proj2 Hw). cbn [app].
    destruct trail as [|c trail]; [reflexivity |].
    rewrite <- (app_nil_r (c :: trail)).
    rewrite split_from_sep by (try discriminate; try exact Htrail; exact I).
    reflexivity.
  - apply Forall_cons in Hmore as [(Hne & Hsep & Hw') Hmore].
    cbn [flat_map map fst snd]. rewrite <- !app_assoc.
    rewrite split_from_word by exact (proj2 Hw). cbn [app].
    rewrite split_from_sep; [| exact Hne | exact Hsep | apply word_stops, Hw'].
    f_equal. rewrite app_assoc. apply IH; assumption.
Qed.

Lemma drop_while_stops {A} (p : A -> bool) l :
  match l with [] => True | c :: _ => p c = false end -> drop_while p l = l.
Proof. destruct l as [|c l]; [reflexivity |]. simpl. intros ->. reflexivity. Qed.

Lemma trim_word w : all_of is_hex w -> trim w = w.
Proof.
  intros Hw. unfold trim.
  rewrite (drop_while_stops is_ws w).
  - rewrite drop_while_stops; [apply rev_involutive |].
    assert (Hr : all_of is_hex (rev w)) by (apply List.Forall_rev, Hw).
    destruct (rev w) as [|c r]; [exact I |].
    apply Forall_cons in Hr as [Hc _]. exact (hex_not_ws c Hc).
  - destruct w as [|c w]; [exact I |].
    apply Forall_cons in Hw as [Hc _]. exact (hex_not_ws c Hc).
Qed.

Lemma filter_hex_word w : all_of is_hex w -> List.filter is_hex w = w.
Proof.
  induction 1 as [|c w Hc _ IH]; [reflexivity |].
  cbn [List.filter]. rewrite Hc, IH. reflexivity.
Qed.

(** The candidate values of a list of words are its words. *)
Lemma potential_words (ws : list text) : forall pre post,
  Forall digits ws -> Forall (fun p => p = []) pre -> Forall (fun p => p = []) post ->
  List.filter (fun val : text => (0 <? length val)%nat) (map trim (pre ++ ws ++ post))
  = ws.
Proof.
  intros pre post Hws Hpre. revert post.
  induction Hpre as [|p pre -> _ IHpre]; intros post Hpost.
  - cbn [app]. induction Hws as [|w ws [Hne Hw] _ IHws].
    + cbn [app]. induction Hpost as [|p post -> _ IHpost]; [reflexivity |].
      exact IHpost.
    + cbn [app map List.filter]. rewrite trim_word by exact Hw.
      destruct w; [contradiction |]. cbn [length Nat.ltb Nat.leb].
      f_equal. exact IHws.
  - cbn [app map List.filter]. apply IHpre, Hpost.
Qed.

Lemma cleaned_word w :
  digits w ->
  (let cleanVal := List.filter is_hex w in
   if (3 <=? length cleanVal)%nat && (length cleanVal <=? 4)%nat
   then push_if_valid (parseInt16 (str "0x" ++ cleanVal))
   else [])
  = word_values w.
Proof.
  intros [Hne Hw]. cbv zeta. rewrite filter_hex_word by exact Hw.
  unfold word_values.
  destruct (Nat.leb_spec 3 (length w)) as [H3 | _]; [| reflexivity].
  destruct (Nat.leb_spec (length w) 4) as [H4 | _]; [| reflexivity].
  cbn [andb]. change (str "0x" ++ w) with ("0"%char :: "x"%char :: w).
  rewrite parseInt16_token; [| reflexivity | exact Hne | exact Hw].
  pose proof (hex_value_16bit w Hw H4) as Hv. unfold push_if_valid.
  destruct (Z.leb_spec 0 (hex_value w)); [| lia].
  destruct (Z.leb_spec (hex_value w) 0xFFFF); [| lia].
  reflexivity.
Qed.

(** The first pattern matches nowhere in a text without the letter x. *)
Lemma no_x_no_match s :
  all_of (fun c => negb (is_x c)) s -> match_all hexPattern s = [].
Proof.
  intros Hs. rewrite match_all_unfold by exact hexPattern_wf.
  replace (exec hexPattern s) with (@None match_result); [reflexivity |].
  symmetry. apply exec_None. intros pre suf ->.
  apply Forall_app in Hs as [_ Hs]. rewrite match_here_hexPattern.
  destruct suf as [|c0 [|c1 rest]]; try reflexivity.
  apply Forall_cons in Hs as [_ Hs]. apply Forall_cons in Hs as [Hc1 _].
  apply negb_true_iff in Hc1. rewrite Hc1, andb_false_r. reflexivity.
Qed.

Lemma seps_no_x s : all_of is_sep s -> all_of (fun c => negb (is_x c)) s.
Proof.
  intros H. eapply Forall_impl; [exact H |].
  intros c Hc. cbv beta in *. rewrite (sep_not_x c Hc). reflexivity.
Qed.

Lemma digits_no_x s : all_of is_hex s -> all_of (fun c => negb (is_x c)) s.
Proof.
  intros H. eapply Forall_impl; [exact H |].
  intros c Hc. cbv beta in *. rewrite (hex_not_x c Hc). reflexivity.
Qed.

Lemma word_list_no_x w (more : list (text * text)) :
  digits w ->
  Forall (fun item : text * text =>
            item.1 <> [] /\ all_of is_sep item.1 /\ digits item.2) more ->
  all_of (fun c => negb (is_x c)) (word_list w more).
Proof.
  intros Hw Hmore. unfold word_list. apply Forall_app. split.
  - apply digits_no_x, Hw.
  - induction Hmore as [|[sep w'] more (_ & Hsep & Hw') _ IH]; [constructor |].
    cbn [flat_map fst snd]. rewrite <- app_assoc.
    apply Forall_app. split; [apply seps_no_x, Hsep |].
    apply Forall_app. split; [apply digits_no_x, Hw' | exact IH].
Qed.

(** X14: bare words are read by the second strategy: in a block of words of
    hexadecimal digits without [0x], separated by commas and white space,
    the first strategy finds nothing, and the parser returns the values of
    the words of three or four digits, in order; shorter and longer words
    are dropped. *)
Theorem parseValues_bare_words (lead trail w0 : text) (more : list (text * text))
  (Hlead : all_of is_sep lead) (Hw0 : digits w0)
  (Hmore : Forall (fun item : text * text =>
                     item.1 <> [] /\ all_of is_sep item.1 /\ digits item.2) more)
  (Htrail : all_of is_sep trail) :
  let block := lead ++ word_list w0 more ++ trail in
  directValues block = [] /\
  parseValues block = flat_map word_values (w0 :: map snd more).
Proof.
  cbv zeta.
  assert (Hd : directValues (lead ++ word_list w0 more ++ trail) = []).
  { unfold directValues. rewrite no_x_no_match; [reflexivity |].
    apply Forall_app. split; [apply seps_no_x, Hlead |].
    apply Forall_app. split; [apply word_list_no_x; assumption | apply seps_no_x, Htrail]. }
  split; [exact Hd |].
  unfold parseValues. rewrite Hd. unfold cleanedValues.
  assert (Hws : Forall digits (w0 :: map snd more)).
  { constructor; [exact Hw0 |]. apply Forall_fmap.
    eapply Forall_impl; [exact Hmore |]. intros item (_ & _ & H). exact H. }
  assert (Hsplit : exists pre post,
            split separatorPattern (lead ++ word_list w0 more ++ trail)
            = pre ++ (w0 :: map snd more) ++ post /\
            Forall (fun p => p = []) pre /\ Forall (fun p => p = []) post).
  { rewrite split_is_split_from.
    destruct lead as [|c lead].
    - exists [], (match trail with [] => [] | _ :: _ => [[]] end).
      cbn [app]. rewrite split_words by assumption.
      split; [reflexivity |]. split; [constructor |].
      destruct trail; repeat constructor.
    - exists [[]], (match trail with [] => [] | _ :: _ => [[]] end).
      rewrite split_from_sep;
        [| discriminate | exact Hlead
         | unfold word_list; rewrite <- app_assoc; apply word_stops, Hw0].
      rewrite split_words by assumption.
      split; [reflexivity |]. split; [repeat constructor |].
      destruct trail; repeat constructor. }
  destruct Hsplit as (pre & post & -> & Hpre & Hpost).
  rewrite potential_words by assumption.
  clear - Hws. induction Hws as [|w ws Hw _ IH]; [reflexivity |].
  cbn [flat_map]. rewrite IH. f_equal. apply cleaned_word, Hw.
Qed.

Lemma parseValues_bare_words_witness :
  parseValues (str " F800, 7e0 1F,12345") = [0xF800; 0x7E0].
Proof.
  destruct (parseValues_bare_words (str " ") [] (str "F800")
              [(str ", ", str "7e0"); (str " ", str "1F"); (str ",", str "12345")])
    as (_ & Hp).
  - repeat constructor.
  - split; [discriminate | repeat constructor].
  - repeat constructor; discriminate.
  - constructor.
  - exact Hp.
Defined.

(** ** Brace blocks: the second extraction tier *)

Lemma lang_only_chars (P : ascii -> Prop) (r : regex) :
  only_chars P r -> forall w, lang r w -> Forall P w.
Proof.
  induction r as [| q | r1 IH1 r2 IH2 | min max r1 IH | i r1 IH];
    cbn [only_chars lang]; intros Hr w Hw.
  - subst w. constructor.
  - destruct Hw as (c & -> & Hc). repeat constructor. exact (Hr c Hc).
  - destruct Hr as [Hr1 Hr2]. destruct Hw as (u & v & -> & Hu & Hv).
    apply Forall_app. split; [exact (IH1 Hr1 u Hu) | exact (IH2 Hr2 v Hv)].
  - destruct Hw as (ws & -> & Hws & _).
    induction Hws as [|x ws Hx _ IHws]; [constructor |].
    cbn [mjoin list_join]. apply Forall_app. split; [exact (IH Hr x Hx) | exact IHws].
  - exact (IH Hr w Hw).
Qed.

Lemma hex_not_brace c : is_hex c = true -> negb (Ascii.eqb "}" c) = true.
Proof.
  intros Hc. apply negb_true_iff.
  revert c Hc. apply exclusive_by_enumeration. vm_compute. reflexivity.
Qed.

Lemma group_no_brace w :
  lang fallbackPattern_group w -> all_of (fun c => negb (Ascii.eqb "}" c)) w.
Proof.
  apply (lang_only_chars (fun c => negb (Ascii.eqb "}" c) = true)).
  unfold fallbackPattern_group, not_brace, not_chr.
  cbn [only_chars Star Plus lit str list_ascii_of_string chr].
  repeat split; try (intros c Hc; exact Hc);
    try (intros c Hc; apply Ascii.eqb_eq in Hc; subst c; reflexivity).
  exact hex_not_brace.
Qed.

Lemma first_brace_unique (w body s1 s2 : text) :
  all_of (fun c => negb (Ascii.eqb "}" c)) w ->
  all_of (fun c => negb (Ascii.eqb "}" c)) body ->
  w ++ "}"%char :: s1 = body ++ "}"%char :: s2 -> w = body.
Proof.
  revert body. induction w as [|c w IH]; intros body Hw Hb Heq.
  - destruct body as [|b body]; [reflexivity |].
    apply Forall_cons in Hb as [Hb _]. injection Heq as <- _. discriminate.
  - apply Forall_cons in Hw as [Hc Hw].
    destruct body as [|b body].
    + injection Heq as -> _. discriminate.
    + apply Forall_cons in Hb as [_ Hb]. injection Heq as <- Heq.
      f_equal. exact (IH body Hw Hb Heq).
Qed.

Section Completeness.
Context {R : Type}.
Implicit Types (k : @cont R) (s : text) (cs : captures).

(** A starred class does not fail when the continuation succeeds after
    some run of the class. *)
Lemma star_class_complete p a : forall b cs k,
  all_of p a -> k b cs <> None ->
  matchK (Star (Chr p)) (a ++ b) cs k <> None.
Proof.
  induction a as [|c a IH]; intros b cs k Ha Hk; unfold Star;
    rewrite matchK_Rep; cbv zeta; cbn [Nat.eqb andb app].
  - destruct (matchK (Chr p) b cs _); [discriminate | exact Hk].
  - apply Forall_cons in Ha as [Hc Ha].
    rewrite matchK_Chr, Hc.
    replace (Nat.eqb (length (a ++ b)) (length (c :: a ++ b))) with false
      by (symmetry; apply Nat.eqb_neq; simpl; lia).
    cbn [fmap option_fmap option_map Nat.pred].
    pose proof (IH b cs k Ha Hk) as H. unfold Star in H.
    destruct (matchK (Rep 0 None (Chr p)) (a ++ b) cs k); [discriminate | contradiction].
Qed.

Lemma plus_class_complete p c a b cs k :
  p c = true -> all_of p a -> k b cs <> None ->
  matchK (Plus (Chr p)) (c :: a ++ b) cs k <> None.
Proof.
  intros Hc Ha Hk. unfold Plus. rewrite matchK_Rep. cbv zeta. cbn [Nat.eqb andb].
  rewrite matchK_Chr, Hc. cbn [fmap option_fmap option_map Nat.pred].
  exact (star_class_complete p a b cs k Ha Hk).
Qed.

End Completeness.

(** The group of the brace-block pattern does not fail on a text without
    closing brace that holds a token, when the continuation succeeds
    behind it. *)
Lemma group_complete {R} (b1 b2 rest : text) (h : ascii) (k : @cont R) :
  all_of (fun c => negb (Ascii.eqb "}" c)) b1 ->
  all_of (fun c => negb (Ascii.eqb "}" c)) b2 ->
  is_hex h = true -> stops (fun c => negb (Ascii.eqb "}" c)) rest ->
  (forall cs, k rest cs <> None) ->
  matchK fallbackPattern_group
    (b1 ++ "0"%char :: "x"%char :: h :: b2 ++ rest) [] k <> None.
Proof.
  intros Hb1 Hb2 Hh Hrest Hk. unfold fallbackPattern_group.
  rewrite matchK_Seq. apply star_class_complete; [exact Hb1 |].
  unfold Plus at 1. rewrite matchK_Rep. cbv zeta. cbn [Nat.eqb andb].
  change ("0"%char :: "x"%char :: h :: b2 ++ rest)
    with (str "0x" ++ h :: b2 ++ rest).
  rewrite step_lit, matchK_Seq.
  cbn [fmap option_fmap option_map Nat.pred].
  change (h :: b2 ++ rest) with (h :: [] ++ (b2 ++ rest)).
  apply plus_class_complete; [exact Hh | constructor |].
  apply star_class_complete; [exact Hb2 |].
  rewrite matchK_Rep. cbv zeta. cbn [Nat.eqb andb].
  destruct (matchK _ rest [] _); [discriminate | apply Hk].
Qed.

Lemma fallback_here (body post : text) :
  all_of (fun c => negb (Ascii.eqb "}" c)) body -> has_hex_token body ->
  exists m rest cs,
    match_here fallbackPattern ("{"%char :: body ++ "}"%char :: post)
    = Some (m, rest, cs) /\ capture 1 cs = Some body.
Proof.
  intros Hbody (b1 & h & b2 & -> & Hh).
  apply Forall_app in Hbody as [Hb1 Hb2].
  do 3 apply Forall_cons in Hb2 as [_ Hb2].
  unfold match_here.
  set (S0 := "{"%char :: (b1 ++ "0"%char :: "x"%char :: h :: b2) ++ "}"%char :: post).
  set (kfin := fun (s' : text) (cs : captures) =>
                 let n := (length S0 - length s')%nat in
                 Some (take n S0, drop n S0, cs)).
  change fallbackPattern
    with (chr "{" +> Grp 1 fallbackPattern_group +> chr "}").
  unfold S0 at 1. rewrite step_chr, matchK_Seq, matchK_Grp.
  set (sg := (b1 ++ "0"%char :: "x"%char :: h :: b2) ++ "}"%char :: post).
  destruct (matchK fallbackPattern_group sg [] _) as [z |] eqn:E.
  - apply (matchK_sound fallbackPattern_group eq_refl) in E
      as (w & s' & cs' & Hsg & Hw & Hk).
    unfold chr in Hk. destruct s' as [|c s'']; [discriminate |].
    rewrite matchK_Chr in Hk.
    destruct (Ascii.eqb "}" c) eqn:Ec; [| discriminate].
    apply Ascii.eqb_eq in Ec. subst c.
    unfold kfin in Hk. injection Hk as <-.
    do 3 eexists. split; [reflexivity |].
    cbn [capture Nat.eqb]. f_equal.
    replace (length sg - S (length s''))%nat with (length w)
      by (rewrite Hsg, length_app; simpl; lia).
    rewrite Hsg at 1. rewrite take_app_length.
    apply (first_brace_unique w _ s'' post).
    + apply group_no_brace, Hw.
    + apply Forall_app. split; [exact Hb1 |]. repeat constructor. 
      * apply hex_not_brace, Hh.
      * exact Hb2.
    + rewrite <- Hsg. reflexivity.
  - exfalso. revert E. unfold sg. rewrite <- app_assoc. cbn [app].
    apply group_complete; [exact Hb1 | exact Hb2 | exact Hh | reflexivity |].
    intros cs. unfold chr. rewrite matchK_Chr. cbn [Ascii.eqb]. discriminate.
Qed.

Lemma single_line_app a b : single_line (a ++ b) = single_line a ++ single_line b.
Proof. unfold single_line, replace_char. rewrite !map_app. reflexivity. Qed.

Lemma single_line_keeps c s :
  c <> " "%char -> In c (single_line s) -> In c s.
Proof.
  intros Hc Hin. unfold single_line in Hin.
  do 2 (apply replace_char_keeps in Hin; [| exact Hc]). exact Hin.
Qed.

Lemma single_line_no_brace s :
  ~ In "}"%char s -> all_of (fun c => negb (Ascii.eqb "}" c)) (single_line s).
Proof.
  intros Hno. apply List.Forall_forall. intros c Hc.
  apply negb_true_iff. apply Ascii.eqb_neq. intros <-.
  apply Hno. apply single_line_keeps; [discriminate | exact Hc].
Qed.

Lemma single_line_hex c : is_hex c = true -> single_line [c] = [c].
Proof.
  intros Hc.
  assert (H : forall a, implb (is_hex a)
                (match single_line [a] with
                 | [b] => Ascii.eqb b a
                 | _ => false
                 end) = true)
    by (apply ascii_forall; vm_compute; reflexivity).
  specialize (H c). rewrite Hc in H. cbn [implb] in H.
  unfold single_line, replace_char in *. cbn [map] in *.
  apply Ascii.eqb_eq in H. rewrite H. reflexivity.
Qed.

Lemma single_line_token s : has_hex_token s -> has_hex_token (single_line s).
Proof.
  intros (pre & h & post & -> & Hh).
  exists (single_line pre), h, (single_line post). split; [| exact Hh].
  rewrite single_line_app.
  change ("0"%char :: "x"%char :: h :: post)
    with (str "0x" ++ [h] ++ post).
  rewrite !single_line_app, (single_line_hex h Hh). reflexivity.
Qed.

(** X15: a brace block with a token is taken by the second tier when the strict
    pattern matches nowhere: for a text whose first opening brace is
    followed by a block without closing brace that holds a token, and by a
    closing brace, the extractor returns the name [parsed_array] and the
    block, read up to the first closing brace, with its line feeds and
    carriage returns replaced by blanks; the image, when the conversion
    succeeds, has that name and the values parsed from that block. *)
Theorem brace_block_extraction (pre body post : text)
  (Hstrict : exec arrayPattern (pre ++ "{"%char :: body ++ "}"%char :: post) = None)
  (Hpre : ~ In "{"%char pre) (Hbody : ~ In "}"%char body)
  (Htok : has_hex_token body) :
  let content := pre ++ "{"%char :: body ++ "}"%char :: post in
  extract content = inr (str "parsed_array", single_line body) /\
  parseHexFile content <> inl NoHexValuesFound /\
  forall img, parseHexFile content = inr img ->
    name img = str "parsed_array" /\ data img = parseValues (single_line body).
Proof.
  cbv zeta.
  assert (Hex : extract (pre ++ "{"%char :: body ++ "}"%char :: post)
              = inr (str "parsed_array", single_line body)).
  { unfold extract. rewrite Hstrict.
    change (replace_char "013" " " (replace_char "010" " " ?s))
      with (single_line s).
    rewrite single_line_app.
    change ("{"%char :: body ++ "}"%char :: post)
      with (str "{" ++ body ++ str "}" ++ post).
    rewrite !single_line_app.
    change (single_line (str "{")) with (str "{").
    change (single_line (str "}")) with (str "}").
    cbn [str list_ascii_of_string app].
    destruct (fallback_here (single_line body) (single_line post)
                (single_line_no_brace body Hbody) (single_line_token body Htok))
      as (m & rest & cs & Hm & Hcap).
    rewrite exec_skip.
    - rewrite (exec_here _ _ _ Hm), Hcap. reflexivity.
    - intros p1 p2 Hp Hne.
      destruct p2 as [|c p2]; [contradiction |].
      assert (Hc : Ascii.eqb "{" c = false).
      { apply Ascii.eqb_neq. intros <-. apply Hpre.
        apply single_line_keeps; [discriminate |].
        rewrite Hp. apply in_or_app. right. left. reflexivity. }
      unfold match_here, fallbackPattern. cbn [app].
      rewrite matchK_Seq. unfold chr at 1. rewrite matchK_Chr, Hc. reflexivity. }
  split; [exact Hex |].
  pose proof (parseHexFile_cases (pre ++ "{"%char :: body ++ "}"%char :: post)) as Hcases.
  rewrite Hex in Hcases.
  destruct (parseValues (single_line body)) as [|v vs] eqn:Hv.
  - rewrite Hcases. split; [discriminate |]. intros img Himg. discriminate.
  - destruct Hcases as (img & Himg & Hname & Hdata). rewrite Himg.
    split; [discriminate |]. intros img' [= <-]. split; assumption.
Qed.

Lemma brace_block_extraction_witness :
  extract (str "static foo {0x1," ++ "010"%char :: str "0x2} ;")
  = inr (str "parsed_array", str "0x1, 0x2").
Proof.
  destruct (brace_block_extraction (str "static foo ")
              (str "0x1," ++ "010"%char :: str "0x2") (str " ;")) as (He & _).
  - vm_compute. reflexivity.
  - simpl. intuition discriminate.
  - simpl. intuition discriminate.
  - exists [], "1"%char, (str "," ++ "010"%char :: str "0x2").
    split; reflexivity.
  - exact He.
Defined.

(** ** The preview of a converted file *)

Lemma parsed_dims (t : text) (img : ImageData) :
  parseHexFile t = inr img ->
  1 <= width img /\ 1 <= height img /\
  width img * height img = Z.of_nat (length (data img)).
Proof.
  intros Himg. unfold parseHexFile in Himg.
  destruct (extract t) as [e | [arrayName block]]; [discriminate |].
  destruct (parseValues block) as [|v vs] eqn:Ev; [discriminate |].
  set (N := Z.of_nat (length (v :: vs))) in *.
  destruct (resolveDimensions_candidate N) as (d & Hin & Hp & Hres).
  destruct (candidates_nonneg N d ltac:(lia) Hin) as [Hw Hh].
  rewrite Hres in Himg. injection Himg as <-. cbn [width height data].
  assert (1 <= N) by (unfold N; simpl; lia). repeat split; nia.
Qed.

Lemma inserts_all {A} (l base : list A) :
  length base = length l -> list_inserts 0 l base = l.
Proof.
  intros Hlen. apply list_eq. intros i.
  destruct (decide (i < length l)%nat) as [Hlt | Hge].
  - rewrite list_lookup_inserts by lia. f_equal. lia.
  - rewrite list_lookup_inserts_ge by lia.
    rewrite !lookup_ge_None_2 by lia. reflexivity.
Qed.

(** X16: the preview of a converted file is complete and opaque: the preview
    does not throw on an image returned by [parseHexFile], its raster is
    exactly the sequence of red, green, blue and alpha 255 of the parsed
    values, four bytes for each value and nothing else, so no pixel is
    left transparent and no value is left out. *)
Theorem parsed_image_preview (t : text) (img : ImageData)
  (Himg : parseHexFile t = inr img) :
  exists raster,
    createPreview img = Some raster /\
    length raster = (4 * length (data img))%nat /\
    forall i : nat, (i < length (data img))%nat ->
      exists v r g b,
        data img !! i = Some v /\ rgb565ToRgb v = (r, g, b) /\
        raster !! (4 * i)%nat = Some r /\ raster !! (4 * i + 1)%nat = Some g /\
        raster !! (4 * i + 2)%nat = Some b /\ raster !! (4 * i + 3)%nat = Some 255.
Proof.
  destruct (parsed_dims t img Himg) as (Hw & Hh & Hprod).
  assert (Hlen : length (mjoin (preview_pixel <$> data img))
                 = (4 * length (data img))%nat).
  { rewrite length_join, (sum_list_fmap_same 4).
    - rewrite length_fmap. lia.
    - apply Forall_fmap, Forall_forall. intros y _. apply preview_pixel_length. }
  exists (mjoin (preview_pixel <$> data img)). split; [| split].
  - rewrite preview_raster by lia. f_equal. apply inserts_all.
    rewrite length_replicate, Hlen, !Z.abs_eq by lia. nia.
  - exact Hlen.
  - intros i Hi.
    destruct (lookup_lt_is_Some_2 (data img) i Hi) as [v Hv].
    destruct (rgb565ToRgb v) as [[r g] b] eqn:Hrgb.
    exists v, r, g, b. split; [exact Hv |]. split; [exact Hrgb |].
    assert (Hpx : forall (c : nat) x, [r; g; b; 255] !! c = Some x ->
              mjoin (preview_pixel <$> data img) !! (4 * i + c)%nat = Some x).
    { intros c x Hx.
      assert (Hc : (c < 4)%nat) by (apply lookup_lt_Some in Hx; exact Hx).
      replace (4 * i + c)%nat with (i * 4 + c)%nat by lia.
      apply join_lookup_Some_same_length'.
      - apply Forall_fmap, Forall_forall. intros y _. apply preview_pixel_length.
      - exact Hc.
      - exists (preview_pixel v). split.
        + rewrite list_lookup_fmap, Hv. reflexivity.
        + unfold preview_pixel. rewrite Hrgb. exact Hx. }
    pose proof (Hpx 0%nat r eq_refl) as H0. rewrite Nat.add_0_r in H0.
    exact (conj H0 (conj (Hpx 1%nat g eq_refl)
                     (conj (Hpx 2%nat b eq_refl) (Hpx 3%nat 255 eq_refl)))).
Qed.

Lemma parsed_image_preview_witness :
  exists raster,
    createPreview {| width := 2; height := 1; data := [0xF800; 0x1F];
                     name := str "extracted_hex_values" |} = Some raster /\
    length raster = 8%nat.
Proof.
  destruct (parsed_image_preview (str "0xF800 0x1F")
              {| width := 2; height := 1; data := [0xF800; 0x1F];
                 name := str "extracted_hex_values" |})
    as (raster & Hp & Hl & _).
  - vm_compute. reflexivity.
  - exists raster. split; [exact Hp | exact Hl].
Defined.

(** ** The example's display data and the parsed image *)

Lemma parsed_resolved (t : text) (img : ImageData) :
  parseHexFile t = inr img ->
  resolveDimensions (Z.of_nat (length (data img))) = (width img, height img).
Proof.
  intros Himg. unfold parseHexFile in Himg.
  destruct (extract t) as [e | [arrayName block]]; [discriminate |].
  destruct (parseValues block) as [|v vs] eqn:Ev; [discriminate |].
  destruct (resolveDimensions _) as [wd ht] eqn:Hres.
  injection Himg as <-. cbn [width height data]. exact Hres.
Qed.

Lemma displayPixels_inserts (parsed : list Z) :
  exists m : nat,
    Z.of_nat m = 57600 /\
    displayPixels parsed
    = list_inserts 0
        (take (Z.to_nat (Z.min (Z.of_nat (length parsed)) 57600)) parsed)
        (replicate m 0).
Proof.
  exists (Z.to_nat 57600). split; [apply Z2Nat.id; lia |].
  unfold displayPixels.
  rewrite <- (Z2Nat.id (Z.min _ 57600)) at 1 by lia.
  apply copy_loop. lia.
Qed.

Lemma resolve_57600 : resolveDimensions 57600 = (240, 240).
Proof. vm_compute. reflexivity. Qed.

(** X17: the example's override changes nothing exactly when the file holds
    57600 values: for an image returned by [parseHexFile], the display
    data equals the parsed image if and only if the parsed image has 57600
    values; with any other number of values the page shows 240 by 240
    while the bitmap, made from the parsed image, has other dimensions or
    other data. *)
Theorem displayData_identity (t : text) (img : ImageData)
  (Himg : parseHexFile t = inr img) :
  displayData img = img <-> Z.of_nat (length (data img)) = 57600.
Proof.
  destruct (displayPixels_inserts (data img)) as (m & Hm & Hd).
  split.
  - intros Heq. apply (f_equal data) in Heq. cbn [displayData data] in Heq.
    rewrite <- Heq at 1. rewrite Hd, length_inserts, length_replicate. exact Hm.
  - intros Hlen. pose proof (parsed_resolved t img Himg) as Hres.
    rewrite Hlen, resolve_57600 in Hres. injection Hres as Hw Hh.
    unfold displayData. rewrite Hd.
    rewrite take_ge by lia. rewrite inserts_all by (rewrite length_replicate; lia).
    destruct img as [wd ht dt nm]. cbn [width height data name] in *.
    subst wd ht. reflexivity.
Qed.

Lemma displayData_identity_witness :
  displayData {| width := 2; height := 1; data := [0xF800; 0x1F];
                 name := str "extracted_hex_values" |}
  = {| width := 2; height := 1; data := [0xF800; 0x1F];
       name := str "extracted_hex_values" |}
  <-> Z.of_nat 2 = 57600.
Proof.
  apply (displayData_identity (str "0xF800 0x1F")). vm_compute. reflexivity.
Defined.
